(** * Legion analytics front end: timeline span drawer and metric streamer

    A shallow embedding of
    - [TimelineTrackCanvasBaseDrawer] (span-track drawing, caption text),
    - [MetricStreamer] (viewport-driven block fetching behind a semaphore),
    together with the properties their specification states about them.

    Conventions.  JavaScript numbers that the drawer computes with are
    modelled as rationals ([Q]): only finite values.  The two needles of the
    binary searches of [drawSpanTrack], which decide the spans that are
    drawn, are rounded to doubles as the program computes them ([Js.sub]);
    the pixel arithmetic is exact, without rounding.
    Array indices and comparator results are integers ([Z]).  Strings are
    sequences of 8-bit characters, which agrees with JavaScript's UTF-16
    strings on ASCII text. *)

From Stdlib Require Import ZArith QArith Qround Lia Lqa List String Ascii Bool.

From Stdlib Require Import Sorted Permutation.

From stdpp Require Import gmap strings.

Import ListNotations.

Local Open Scope Z_scope.

(** * Part I: the embedding *)

(** ** JavaScript operators used by the code *)

Module Js.

(** [ToUint32] and [ToInt32] of an integer-valued number. *)
Definition toUint32 (z : Z) : Z := z mod 2 ^ 32.

Definition toInt32 (z : Z) : Z := (z + 2 ^ 31) mod 2 ^ 32 - 2 ^ 31.

(** [~z] *)
Definition bitNot (z : Z) : Z := Z.lnot (toInt32 z).

(** [z >>> k] *)
Definition ushr (z : Z) (k : Z) : Z := Z.shiftr (toUint32 z) k.

(** [x < y] on finite numbers, as a boolean. *)
Definition ltb (x y : Q) : bool :=
  match Qcompare x y with Lt => true | _ => false end.

(** Rounding to the nearest integer, a tie going to the even one. *)
Definition roundHalfEven (m : Q) : Z :=
  let f := Qfloor m in
  match Qcompare (m - inject_Z f) (1 # 2) with
  | Lt => f
  | Gt => f + 1
  | Eq => if Z.even f then f else f + 1
  end.

(** The doubles are the integers of at most 53 bits times a power of two
    that is no less than [2^-1074]. *)
Definition doubleUnit : Z := 2 ^ 1074.

(** For [s >= 0], a number counted in units of [2^-1074]: the nearest
    double, in the same units.  Below [2^53] units the doubles are one unit
    apart; from there on a number of [n] bits is kept to its 53 leading
    bits. *)
Definition nearestDouble (s : Q) : Z :=
  let shift := Z.max 0 (Z.log2 (Qfloor s) - 52) in
  roundHalfEven (s / inject_Z (2 ^ shift)) * 2 ^ shift.

(** The double nearest to a rational (IEEE 754 round to nearest, ties to
    even), for a rational within the range of the doubles: there is no
    overflow to an infinity here. *)
Definition toDouble (q : Q) : Q :=
  if ltb q 0
  then (- (inject_Z (nearestDouble (- q * inject_Z doubleUnit)) / inject_Z doubleUnit))%Q
  else (inject_Z (nearestDouble (q * inject_Z doubleUnit)) / inject_Z doubleUnit)%Q.

(** [x - y] on doubles: the exact difference, rounded. *)
Definition sub (x y : Q) : Q := toDouble (x - y).

End Js.

(** ** The npm package [binary-search]

    [drawSpanTrack] calls [binarySearch(haystack, needle, comparator)] with
    the two optional bounds left out.  The package's loop is

    <<
      low = 0; high = haystack.length - 1;
      while (low <= high) {
        mid = low + ((high - low) >>> 1);
        cmp = +comparator(haystack[mid], needle, mid, haystack);
        if (cmp < 0.0) low = mid + 1;
        else if (cmp > 0.0) high = mid - 1;
        else return mid;
      }
      return ~low;
    >>

    The result is [None] when the comparator is handed [undefined] (an index
    outside the array), where the comparators of the drawer throw. *)

Module BinarySearch.

Section Search.
Context {A N : Type}.
Variable haystack : list A.
Variable needle : N.
Variable comparator : A -> N -> Z.

Definition at_index (i : Z) : option A :=
  if i <? 0 then None else nth_error haystack (Z.to_nat i).

(** The [while] loop; [fuel] bounds the number of iterations, and
    [high - low + 1] iterations are always enough
    ([BinarySearchFacts.loop_spec]). *)
Fixpoint loop (fuel : nat) (low high : Z) : option Z :=
  if high <? low then Some (Js.bitNot low)
  else
    match fuel with
    | O => Some (Js.bitNot low)
    | S fuel' =>
        let mid := low + Js.ushr (high - low) 1 in
        match at_index mid with
        | None => None
        | Some x =>
            let cmp := comparator x needle in
            if cmp <? 0 then loop fuel' (mid + 1) high
            else if 0 <? cmp then loop fuel' low (mid - 1)
            else Some mid
        end
    end.

Definition binarySearch : option Z :=
  let len := Z.of_nat (length haystack) in
  loop (S (length haystack)) 0 (len - 1).

(** [cmpAt i] is the comparator's verdict on the element at index [i]. *)
Definition cmpAt (i : Z) : option Z :=
  option_map (fun x => comparator x needle) (at_index i).

(** The haystack is ordered for the comparator: whatever lies left of an
    element that is not "too high" is "too low". *)
Definition ordered : Prop :=
  forall i j ci cj,
    i < j -> cmpAt i = Some ci -> cmpAt j = Some cj -> cj <= 0 -> ci < 0.

(** [r] splits the haystack: "too low" strictly left of [r], the rest
    from [r] on. *)
Definition splits (r : Z) : Prop :=
  0 <= r <= Z.of_nat (length haystack) /\
  forall i c, cmpAt i = Some c -> (c < 0 <-> i < r).

Definition insertionPoint (r : Z) : Z := if r <? 0 then Js.bitNot r else r.

End Search.

End BinarySearch.

(** ** String operations of the JavaScript library used by the drawer *)

Module JsString.

Local Open Scope string_scope.

Definition lowerChar (c : ascii) : ascii :=
  let n := nat_of_ascii c in
  if (Nat.leb 65 n && Nat.leb n 90)%bool then ascii_of_nat (n + 32) else c.

(** [s.toLowerCase()], on ASCII letters. *)
Fixpoint toLowerCase (s : string) : string :=
  match s with
  | EmptyString => EmptyString
  | String c s' => String (lowerChar c) (toLowerCase s')
  end.

(** [s.includes(sub)] *)
Fixpoint includes (s sub : string) : bool :=
  (String.prefix sub s ||
   match s with
   | EmptyString => false
   | String _ s' => includes s' sub
   end)%bool.

(** [s.startsWith(p)] *)
Definition startsWith (s p : string) : bool := String.prefix p s.

(** [s.substring(a, b)] for [a <= b]. *)
Definition substring (a b : nat) (s : string) : string :=
  String.substring a (b - a) s.

(** [s.slice(0, b)]: a negative [b] counts from the end of [s]. *)
Definition slice0 (s : string) (b : Z) : string :=
  if (b <? 0)%Z
  then String.substring 0 (Z.to_nat (Z.of_nat (String.length s) + b)) s
  else String.substring 0 (Z.to_nat b) s.

(** [s.split("::")]: [acc] holds the characters of the piece being read. *)
Fixpoint splitColons (acc : string) (s : string) : list string :=
  match s with
  | EmptyString => [acc]
  | String c s' =>
      match s' with
      | String c' s'' =>
          if (Ascii.eqb c ":" && Ascii.eqb c' ":")%bool
          then acc :: splitColons EmptyString s''
          else splitColons (acc ++ String c EmptyString) s'
      | EmptyString => [acc ++ String c EmptyString]
      end
  end.

Definition split (s : string) : list string := splitColons EmptyString s.

Definition hexValue (c : ascii) : option Z :=
  let n := Z.of_nat (nat_of_ascii c) in
  if ((48 <=? n) && (n <=? 57))%Z then Some (n - 48)
  else if ((97 <=? n) && (n <=? 102))%Z then Some (n - 87)
  else if ((65 <=? n) && (n <=? 70))%Z then Some (n - 55)
  else None.

Fixpoint parseHexFrom (acc : option Z) (s : string) : option Z :=
  match s with
  | EmptyString => acc
  | String c s' =>
      match hexValue c with
      | None => acc
      | Some d =>
          parseHexFrom (Some (16 * match acc with Some a => a | None => 0 end + d)) s'
      end
  end.

(** [parseInt(s, 16)] on a string without sign, blanks or [0x] prefix: the
    value of the leading hexadecimal digits, [None] (NaN) without any. *)
Definition parseInt16 (s : string) : option Z := parseHexFrom None s.

Definition hexDigit (d : Z) : ascii :=
  ascii_of_nat (Z.to_nat (if (d <? 10)%Z then 48 + d else 87 + d)).

Fixpoint hexDigits (fuel : nat) (n : Z) (acc : string) : string :=
  match fuel with
  | O => acc
  | S fuel' =>
      let acc' := String (hexDigit (n mod 16)) acc in
      if (n / 16 =? 0)%Z then acc' else hexDigits fuel' (n / 16) acc'
  end.

(** [n.toString(16)] for an integer [n >= 0]. *)
Definition toString16 (n : Z) : string :=
  hexDigits (S (Z.to_nat (Z.log2 n))) n EmptyString.

End JsString.

(** ** The canvas: a 2D drawing context recording what is painted *)

Module Canvas.

Local Open Scope Q_scope.

Inductive DrawOp : Type :=
| FillRect (style : string) (alpha : Q) (x y w h : Q)
| FillText (style : string) (font : string) (alpha : Q) (text : string) (x y : Q).

Record TextMetrics : Type := {
  width : Q;
  actualBoundingBoxAscent : Q
}.

(** The part of [CanvasRenderingContext2D] the drawer touches: three drawing
    attributes, the stack of [save()], and the operations painted so far,
    each with the attributes in force when it was painted.  Attributes are
    recorded as assigned: the drawer assigns colours in [#rrggbb] form and
    alphas [alpha / 255] of a byte, which a canvas takes as they are. *)
Record t : Type := {
  fillStyle : string;
  font : string;
  globalAlpha : Q;
  saved : list (string * string * Q);
  ops : list DrawOp
}.

Definition setFillStyle (s : string) (c : t) : t :=
  {| fillStyle := s; font := font c; globalAlpha := globalAlpha c;
     saved := saved c; ops := ops c |}.

Definition setFont (f : string) (c : t) : t :=
  {| fillStyle := fillStyle c; font := f; globalAlpha := globalAlpha c;
     saved := saved c; ops := ops c |}.

Definition setGlobalAlpha (a : Q) (c : t) : t :=
  {| fillStyle := fillStyle c; font := font c; globalAlpha := a;
     saved := saved c; ops := ops c |}.

Definition paint (op : DrawOp) (c : t) : t :=
  {| fillStyle := fillStyle c; font := font c; globalAlpha := globalAlpha c;
     saved := saved c; ops := ops c ++ [op] |}.

Definition fillRect (x y w h : Q) (c : t) : t :=
  paint (FillRect (fillStyle c) (globalAlpha c) x y w h) c.

Definition fillText (text : string) (x y : Q) (c : t) : t :=
  paint (FillText (fillStyle c) (font c) (globalAlpha c) text x y) c.

Definition save (c : t) : t :=
  {| fillStyle := fillStyle c; font := font c; globalAlpha := globalAlpha c;
     saved := (fillStyle c, font c, globalAlpha c) :: saved c; ops := ops c |}.

Definition restore (c : t) : t :=
  match saved c with
  | [] => c
  | (s, f, a) :: rest =>
      {| fillStyle := s; font := f; globalAlpha := a; saved := rest; ops := ops c |}
  end.

End Canvas.

(** ** Outcome of a piece of code that may throw *)

Inductive Completion (A : Type) : Type :=
| Normal (a : A)
| Throw (a : A).

Arguments Normal {A} a.

Arguments Throw {A} a.

Definition completionState {A : Type} (r : Completion A) : A :=
  match r with Normal a => a | Throw a => a end.

Definition isThrow {A : Type} (r : Completion A) : bool :=
  match r with Normal _ => false | Throw _ => true end.

(** [for (i of idxs) body(i)], stopping at the first iteration that throws. *)
Fixpoint forEachIndex {A : Type} (body : Z -> A -> Completion A)
    (idxs : list Z) (a : A) : Completion A :=
  match idxs with
  | [] => Normal a
  | i :: rest =>
      match body i a with
      | Normal a' => forEachIndex body rest a'
      | Throw a' => Throw a'
      end
  end.

(** The values of [i] in [for (i = first; i < last; i += 1)]. *)
Fixpoint countFrom (first : Z) (n : nat) : list Z :=
  match n with
  | O => []
  | S n' => first :: countFrom (first + 1) n'
  end.

Definition indexRange (first last : Z) : list Z :=
  countFrom first (Z.to_nat (last - first)).

(** ** [TimelineTrackCanvasBaseDrawer] *)

Module Drawer.

Import Canvas.
Local Open Scope Q_scope.

Record Span : Type := {
  beginMs : Q;
  endMs : Q;
  scopeHash : Z;
  alpha : Q
}.

Record SpanTrack : Type := { spans : list Span }.

Record ScopeDesc : Type := { name : string }.

(** [{ begin, end, msToPixelsFactor, search }] *)
Record TimelineTrackContext : Type := {
  tc_begin : Q;
  tc_end : Q;
  msToPixelsFactor : Q;
  search : string
}.

(** A caption item; an absent [font] or [color] is [None], an absent
    [skippable] is [false]. *)
Record TimelineCaptionItem : Type := {
  value : string;
  itemFont : option string;
  itemColor : option string;
  skippable : bool
}.

(** The drawer object: its 2D context (unset before [initialize]), the scope
    table of its state store, and the offset of its process. *)
Record t : Type := {
  ctx : option Canvas.t;
  scopes : gmap Z ScopeDesc;
  processOffsetMs : Q
}.

Definition withCtx (this : t) (c : Canvas.t) : t :=
  {| ctx := Some c; scopes := scopes this; processOffsetMs := processOffsetMs this |}.

(** The first comparator of [drawSpanTrack]: where does the span lie with
    respect to the left edge of the view? *)
Definition compareFirst (span : Span) (needle : Q) : Z :=
  if Js.ltb (endMs span) needle then (-1)%Z
  else if Js.ltb needle (beginMs span) then 1%Z
  else 0%Z.

(** The second comparator: with respect to the right edge. *)
Definition compareLast (span : Span) (needle : Q) : Z :=
  if Js.ltb (beginMs span) needle then (-1)%Z
  else if Js.ltb needle (endMs span) then 1%Z
  else 0%Z.

Definition getIndexColor (trackIndex : Z) : string :=
  if (Z.rem trackIndex 2 =? 0)%Z then "#fea446"%string else "#fede99"%string.

(** One colour channel of [shadeColor]: [parseInt], division, [Math.round],
    clamping.  For NaN the test [r < 255] fails, which gives 255. *)
Definition shadeChannel (hex : string) (decimal : Q) : Z :=
  match JsString.parseInt16 hex with
  | None => 255%Z
  | Some r =>
      let r' := Qfloor (inject_Z r / decimal + (1 # 2)) in
      if (r' <? 255)%Z then r' else 255%Z
  end.

Definition twoDigits (r : Z) : string :=
  let h := JsString.toString16 r in
  if Nat.eqb (String.length h) 1 then ("0" ++ h)%string else h.

Definition shadeColor (color : string) (decimal : Q) : string :=
  let base := if JsString.startsWith color "#" then 1%nat else 0%nat in
  let r := shadeChannel (JsString.substring base 3 color) decimal in
  let g := shadeChannel (JsString.substring (base + 2) 5 color) decimal in
  let b := shadeChannel (JsString.substring (base + 4) 7 color) decimal in
  ("#" ++ twoDigits r ++ twoDigits g ++ twoDigits b)%string.

Definition mainColor : string := "#000000".

Definition subColor : string := "#4d4d4d".

Definition defaultFont : string := "15px arial".

(** The [while ((current = split.shift()))] loop of [getCaptions]: it ends
    at the end of the pieces or at the first empty piece. *)
Fixpoint restCaptions (split : list string) : list TimelineCaptionItem :=
  match split with
  | [] => []
  | current :: rest =>
      if String.eqb current EmptyString then []
      else
        {| value := ("::" ++ current)%string;
           itemFont := Some defaultFont;
           itemColor := Some (match rest with [] => mainColor | _ :: _ => subColor end);
           skippable := false |} :: restCaptions rest
  end.

(** The quantities the loop of [drawSpanTrack] computes for a span:
    [beginSpan], [endSpan], [beginPixels], [endPixels] and [callWidth]. *)
Definition beginSpanOf (this : t) (span : Span) : Q :=
  beginMs span + processOffsetMs this.

Definition endSpanOf (this : t) (span : Span) : Q :=
  endMs span + processOffsetMs this.

Definition beginPixelsOf (this : t) (tc : TimelineTrackContext) (span : Span) : Q :=
  (beginSpanOf this span - tc_begin tc) * msToPixelsFactor tc.

Definition endPixelsOf (this : t) (tc : TimelineTrackContext) (span : Span) : Q :=
  (endSpanOf this span - tc_begin tc) * msToPixelsFactor tc.

Definition callWidthOf (this : t) (tc : TimelineTrackContext) (span : Span) : Q :=
  endPixelsOf this tc span - beginPixelsOf this tc span.

Section Drawing.
(** [ctx.measureText(text)] under a given font: supplied by the browser. *)
Variable measureText : string -> string -> TextMetrics.
(** [spanPixelHeight] of [TimelineValues] and [formatExecutionTime] of
    [lib/format] are imported by the drawer from modules outside this
    development. *)
Variable spanPixelHeight : Q.
Variable formatExecutionTime : Q -> string.

Definition getCaptions (caption : string) (beginSpan endSpan : Q)
    : list TimelineCaptionItem :=
  let split := JsString.split caption in
  (match split with
   | first :: second :: others =>
       {| value := first; itemFont := Some defaultFont;
          itemColor := Some subColor; skippable := false |}
       :: restCaptions (second :: others)
   | _ =>
       [{| value := caption; itemFont := None;
           itemColor := Some mainColor; skippable := false |}]
   end)
  ++ [{| value := ("  (" ++ formatExecutionTime (endSpan - beginSpan) ++ ")")%string;
         itemFont := Some "12px arial"%string;
         itemColor := Some subColor;
         skippable := true |}].

(** [a || b] on strings: the empty string is falsy. *)
Definition orDefault (a : option string) (b : string) : string :=
  match a with
  | Some s => if String.eqb s EmptyString then b else s
  | None => b
  end.

(** The [for ... of items] loop of [writeText]. *)
Fixpoint writeItems (defaultFillStyle defaultFont' : string)
    (characterWidth : Q) (y : Q) (items : list TimelineCaptionItem)
    (width x : Q) (c : Canvas.t) : Canvas.t :=
  match items with
  | [] => c
  | item :: rest =>
      let c := setFillStyle (orDefault (itemColor item) defaultFillStyle) c in
      let c := setFont (orDefault (itemFont item) defaultFont') c in
      let budget := Qfloor (width / characterWidth) in
      if (budget =? 0)%Z then c
      else if ((budget <? Z.of_nat (String.length (value item)))%Z && skippable item)%bool
      then writeItems defaultFillStyle defaultFont' characterWidth y rest width x c
      else
        let textSlice := JsString.slice0 (value item) budget in
        let c := fillText textSlice x y c in
        let size := Canvas.width (measureText (font c) textSlice) in
        writeItems defaultFillStyle defaultFont' characterWidth y rest
          (width - size) (x + size) c
  end.

Definition writeText (c : Canvas.t) (width characterWidth : Q)
    (items : list TimelineCaptionItem) (x y : Q) : Canvas.t :=
  let defaultFillStyle := fillStyle c in
  let defaultFont' := font c in
  restore (writeItems defaultFillStyle defaultFont' characterWidth y items width x (save c)).

Definition drawSpanLeftMarker (color : string) (callWidth beginPixels offsetY : Q)
    (c : Canvas.t) : Canvas.t :=
  if Js.ltb callWidth 8 then c
  else
    restore (fillRect beginPixels offsetY 1 spanPixelHeight
               (setFillStyle (shadeColor color (104 # 100)) (save c))).

(** [offsetY = trackIndex * spanPixelHeight] *)
Definition offsetYOf (trackIndex : Z) : Q := inject_Z trackIndex * spanPixelHeight.

(** The body of the [for] loop of [drawSpanTrack], for one [spanIndex]. *)
Definition drawSpan (this : t) (trackIndex : Z) (track : SpanTrack)
    (tc : TimelineTrackContext) (characterWidth characterHeight : Q)
    (spanIndex : Z) (c : Canvas.t) : Completion Canvas.t :=
  match BinarySearch.at_index (spans track) spanIndex with
  | None => Throw c
  | Some span =>
      let offsetY := offsetYOf trackIndex in
      let color := getIndexColor trackIndex in
      let beginSpan := beginSpanOf this span in
      let endSpan := endSpanOf this span in
      let beginPixels := beginPixelsOf this tc span in
      let callWidth := callWidthOf this tc span in
      if Js.ltb callWidth (1 # 10) then Normal c
      else
        let c := setGlobalAlpha (alpha span / 255) c in
        if (scopeHash span =? 0)%Z then
          let c := setFillStyle color c in
          let c := fillRect beginPixels offsetY callWidth spanPixelHeight c in
          Normal (setGlobalAlpha 1 c)
        else
          match scopes this !! scopeHash span with
          | None => Throw c
          | Some scope =>
              let highlighted :=
                (negb (String.eqb (search tc) EmptyString) &&
                 JsString.includes (JsString.toLowerCase (name scope))
                                   (JsString.toLowerCase (search tc)))%bool in
              let c := setFillStyle (if highlighted then "#ffee59"%string else color) c in
              let c := fillRect beginPixels offsetY callWidth spanPixelHeight c in
              let c := drawSpanLeftMarker (fillStyle c) callWidth beginPixels offsetY c in
              let c :=
                if Js.ltb (characterWidth * 5) callWidth then
                  let c := setFillStyle "#000000" c in
                  let extraHeight := (1 # 2) * (spanPixelHeight - characterHeight) in
                  writeText c callWidth characterWidth
                    (getCaptions (name scope) beginSpan endSpan)
                    (beginPixels + 5) (offsetY + characterHeight + extraHeight)
                else c in
              Normal (setGlobalAlpha 1 c)
          end
  end.

Definition complement (r : Z) : Z := if (r <? 0)%Z then Js.bitNot r else r.

(** The needles of the two searches, [beginViewRange - processOffsetMs] and
    [endViewRange - processOffsetMs]: each is one subtraction on doubles. *)
Definition firstNeedle (this : t) (tc : TimelineTrackContext) : Q :=
  Js.sub (tc_begin tc) (processOffsetMs this).

Definition lastNeedle (this : t) (tc : TimelineTrackContext) : Q :=
  Js.sub (tc_end tc) (processOffsetMs this).

(** [firstSpan] and [lastSpan] as [drawSpanTrack] computes them; [None]
    when a comparator throws. *)
Definition spanBounds (this : t) (track : SpanTrack) (tc : TimelineTrackContext)
    : option (Z * Z) :=
  match BinarySearch.binarySearch (spans track)
          (firstNeedle this tc) compareFirst with
  | None => None
  | Some r1 =>
      match BinarySearch.binarySearch (spans track)
              (lastNeedle this tc) compareLast with
      | None => None
      | Some r2 => Some (complement r1, complement r2)
      end
  end.

(** The span indices the loop of [drawSpanTrack] goes through. *)
Definition visitedSpans (this : t) (track : SpanTrack) (tc : TimelineTrackContext)
    : option (list Z) :=
  option_map (fun b => indexRange (fst b) (snd b)) (spanBounds this track tc).

Definition testString : string := "<>_w".

(** [characterWidth] and [characterHeight], measured on [testString] under
    the font of the context. *)
Definition characterWidthOf (c : Canvas.t) : Q :=
  Canvas.width (measureText (font c) testString)
  / inject_Z (Z.of_nat (String.length testString)).

Definition characterHeightOf (c : Canvas.t) : Q :=
  actualBoundingBoxAscent (measureText (font c) testString).

Definition drawSpanTrack (this : t) (trackIndex : Z) (track : SpanTrack)
    (tc : TimelineTrackContext) : Completion t :=
  match ctx this with
  | None => Normal this
  | Some c =>
      match visitedSpans this track tc with
      | None => Throw this
      | Some idxs =>
          let characterWidth := characterWidthOf c in
          let characterHeight := characterHeightOf c in
          match forEachIndex
                  (drawSpan this trackIndex track tc characterWidth characterHeight)
                  idxs c with
          | Normal c' => Normal (withCtx this c')
          | Throw c' => Throw (withCtx this c')
          end
      end
  end.

End Drawing.

End Drawer.

(** ** Tracks, views and the spans in view *)

Module Visibility.

Import Drawer.
Local Open Scope Q_scope.

(** The spans of a track follow one another without overlap: each span ends
    no earlier than it begins, and strictly before the next one begins. *)
Definition nonOverlapping (track : SpanTrack) : Prop :=
  Forall (fun s => beginMs s <= endMs s) (spans track) /\
  Sorted (fun s s' => endMs s < beginMs s') (spans track).

(** The claim's reading of "visible": the closed interval of the span,
    shifted by the process offset, meets the closed view range. *)
Definition intersectsView (this : Drawer.t) (tc : TimelineTrackContext) (s : Span) : bool :=
  negb (Js.ltb (endMs s + processOffsetMs this) (tc_begin tc)) &&
  negb (Js.ltb (tc_end tc) (beginMs s + processOffsetMs this)).

(** What the two searches select: the span ends at or after the first
    needle, [viewMin - processOffsetMs], and begins strictly before the
    second, [viewMax - processOffsetMs]; the needles are the doubles the
    program computes. *)
Definition inView (this : Drawer.t) (tc : TimelineTrackContext) (s : Span) : bool :=
  negb (Js.ltb (endMs s) (firstNeedle this tc)) &&
  Js.ltb (beginMs s) (lastNeedle this tc).

(** The doubles nearest to 0.1, 0.2, 0.3 and 0.8, and the double that
    prints as 0.30000000000000004. *)
Definition double_0_1 : Q := 3602879701896397 # 36028797018963968.

Definition double_0_2 : Q := 3602879701896397 # 18014398509481984.

Definition double_0_3 : Q := 5404319552844595 # 18014398509481984.

Definition double_0_8 : Q := 3602879701896397 # 4503599627370496.

Definition double_0_30000000000000004 : Q := 1351079888211149 # 4503599627370496.

Definition spanAt (track : SpanTrack) (p : Span -> bool) (i : Z) : bool :=
  match BinarySearch.at_index (spans track) i with
  | Some s => p s
  | None => false
  end.

Definition allIndices (track : SpanTrack) : list Z :=
  indexRange 0 (Z.of_nat (length (spans track))).

(** The track of the specification's scenario. *)
Definition plainSpan (b e : Q) : Span :=
  {| beginMs := b; endMs := e; scopeHash := 0; alpha := 255 |}.

Definition fiveSpans : SpanTrack :=
  {| spans := [plainSpan 0 5; plainSpan 10 15; plainSpan 20 25;
               plainSpan 30 35; plainSpan 40 45] |}.

Definition idleDrawer (offset : Q) : Drawer.t :=
  {| ctx := None; scopes := ∅; processOffsetMs := offset |}.

Definition viewOf (lo hi : Q) : TimelineTrackContext :=
  {| tc_begin := lo; tc_end := hi; msToPixelsFactor := 1; search := EmptyString |}.

Definition ascendingByBegin (track : SpanTrack) : Prop :=
  Sorted (fun s s' => beginMs s <= beginMs s') (spans track).

End Visibility.

(** ** A font, a canvas and a track to draw *)

Module SpanDrawing.

Import Canvas Drawer.
Local Open Scope Q_scope.

(** A fixed-pitch font of 8 pixels per character, for the examples. *)
Definition fixedPitch (font text : string) : TextMetrics :=
  {| width := inject_Z (8 * Z.of_nat (String.length text));
     actualBoundingBoxAscent := 11 |}.

Definition blankCanvas : Canvas.t :=
  {| fillStyle := "#e8e8e8"; font := "15px arial"; globalAlpha := 1;
     saved := []; ops := [] |}.

Definition noDuration (d : Q) : string := "1ms".

(** Two spans, the first of a scope that no table knows, the second without
    scope. *)
Definition unknownScopeTrack : SpanTrack :=
  {| spans := [ {| beginMs := 0; endMs := 40; scopeHash := 7; alpha := 255 |};
                {| beginMs := 50; endMs := 90; scopeHash := 0; alpha := 255 |} ] |}.

Definition drawerWith (c : Canvas.t) (table : gmap Z ScopeDesc) : Drawer.t :=
  {| ctx := Some c; scopes := table; processOffsetMs := 0 |}.

(** Three spans, the second of a scope that no table knows, the others
    without scope. *)
Definition lateUnknownScopeTrack : SpanTrack :=
  {| spans := [ {| beginMs := 0; endMs := 40; scopeHash := 0; alpha := 255 |};
                {| beginMs := 50; endMs := 90; scopeHash := 7; alpha := 255 |};
                {| beginMs := 95; endMs := 99; scopeHash := 0; alpha := 255 |} ] |}.

(** A span of 48 milliseconds of the scope ["ns::inner::leaf"]. *)
Definition qualifiedTrack : SpanTrack :=
  {| spans := [ {| beginMs := 0; endMs := 48; scopeHash := 3; alpha := 255 |} ] |}.

Definition qualifiedScopes : gmap Z ScopeDesc :=
  {[ 3%Z := {| name := "ns::inner::leaf" |} ]}.

End SpanDrawing.

(** ** The texts a canvas was asked to paint *)

Module Captions.

Import Canvas Drawer.
Local Open Scope Q_scope.

(** The text of the [fillText] calls among the operations, in order. *)
Fixpoint textsOf (l : list DrawOp) : list string :=
  match l with
  | [] => []
  | FillText _ _ _ text _ _ :: rest => text :: textsOf rest
  | FillRect _ _ _ _ _ _ :: rest => textsOf rest
  end.

End Captions.

(** ** The interval coverage tracker of a metric *)

Module Tracker.

(** Modelled from the spec: the class [MetricState] of the repository (the
    Interval Coverage Tracker) is not among the sources.  The specification
    gives it, per level of detail, a fetched-coverage set kept as a sorted
    list of disjoint intervals with merge-on-insert, and a set of
    materialized blocks; [registerBlock] "marks the block materialized;
    merges its time range into the fetched-coverage set for its LOD".
    Times are whole milliseconds. *)
Record Registration : Type := {
  blockId : string;
  startMs : Z;
  endMs : Z;
  lod : Z
}.

(** Modelled from the spec: merge-on-insert of the closed interval
    [lo, hi] into a sorted list of disjoint intervals.  An interval wholly
    before the next stored one is put in front of it; one wholly after it is
    merged into the rest; one that meets it absorbs it. *)
Fixpoint mergeInto (lo hi : Z) (cov : list (Z * Z)) : list (Z * Z) :=
  match cov with
  | [] => [(lo, hi)]
  | (a, b) :: rest =>
      if hi <? a then (lo, hi) :: (a, b) :: rest
      else if b <? lo then (a, b) :: mergeInto lo hi rest
      else mergeInto (Z.min lo a) (Z.max hi b) rest
  end.

Record t : Type := {
  materialized : gset string;
  coverage : gmap Z (list (Z * Z))
}.

Definition empty : t := {| materialized := ∅; coverage := ∅ |}.

Definition coverageAt (l : Z) (tr : t) : list (Z * Z) :=
  default [] (coverage tr !! l).

(** Modelled from the spec: [registerBlock], see [Registration]. *)
Definition registerBlock (r : Registration) (tr : t) : t :=
  {| materialized := {[ blockId r ]} ∪ materialized tr;
     coverage := <[ lod r := mergeInto (startMs r) (endMs r) (coverageAt (lod r) tr) ]>
                   (coverage tr) |}.

(** Registering a sequence of blocks, in the order of the list. *)
Definition registerAll (rs : list Registration) (tr : t) : t :=
  fold_left (fun acc r => registerBlock r acc) rs tr.

(** The stored intervals are well formed, in ascending order and apart. *)
Fixpoint disjointSorted (cov : list (Z * Z)) : Prop :=
  match cov with
  | [] => True
  | (a, b) :: rest =>
      a <= b /\ Forall (fun p => b < fst p) rest /\ disjointSorted rest
  end.

(** The points of the half-millisecond grid an interval list covers; the
    half steps tell two intervals that are one millisecond apart from their
    union. *)
Definition covers (cov : list (Z * Z)) (x : Z) : Prop :=
  Exists (fun p => 2 * fst p <= x <= 2 * snd p) cov.

Definition wellFormed (tr : t) : Prop :=
  forall l cov, coverage tr !! l = Some cov -> disjointSorted cov.

Definition validRange (r : Registration) : Prop := startMs r <= endMs r.

Definition sampleBlock (id : string) (lo hi l : Z) : Registration :=
  {| blockId := id; startMs := lo; endMs := hi; lod := l |}.

End Tracker.

(** ** JavaScript numbers with their infinities *)

Module Number.

Inductive t : Type :=
| NaN
| NegInf
| Fin (q : Q)
| PosInf.

Definition isNaN (a : t) : bool :=
  match a with NaN => true | _ => false end.

(** [a < b] *)
Definition ltb (a b : t) : bool :=
  match a, b with
  | NaN, _ | _, NaN => false
  | NegInf, NegInf => false
  | NegInf, _ => true
  | _, NegInf => false
  | PosInf, _ => false
  | Fin _, PosInf => true
  | Fin p, Fin q => Js.ltb p q
  end.

Definition min2 (a b : t) : t :=
  match a, b with
  | NaN, _ | _, NaN => NaN
  | NegInf, _ | _, NegInf => NegInf
  | PosInf, x => x
  | x, PosInf => x
  | Fin p, Fin q => if Js.ltb q p then Fin q else Fin p
  end.

Definition max2 (a b : t) : t :=
  match a, b with
  | NaN, _ | _, NaN => NaN
  | PosInf, _ | _, PosInf => PosInf
  | NegInf, x => x
  | x, NegInf => x
  | Fin p, Fin q => if Js.ltb p q then Fin q else Fin p
  end.

(** [Math.min(...l)] and [Math.max(...l)]: without arguments they are
    [+Infinity] and [-Infinity]. *)
Definition mathMin (l : list t) : t := fold_right min2 PosInf l.

Definition mathMax (l : list t) : t := fold_right max2 NegInf l.

End Number.

(** ** [MetricStreamer] *)

Module Streamer.

(** What the streamer reads of a block. *)
Record Block : Type := {
  blockId : string;
  streamId : string
}.

(** The classes [MetricState] and [MetricStore] and the payload types of the
    telemetry client are imported by the streamer from modules outside this
    development; this is the interface the streamer uses of them.  The store
    is represented by the array of metric states that [get(store)] yields. *)
Class MetricApi : Type := {
  MetricState : Type;
  MetricDesc : Type;
  BlockManifest : Type;
  BlockData : Type;
  (** [getMetricStore()] *)
  getMetricStore : list MetricState;
  (** [m.name], [m.min], [m.max], [m.canBeDisplayed()] *)
  name : MetricState -> string;
  min : MetricState -> Number.t;
  max : MetricState -> Number.t;
  canBeDisplayed : MetricState -> bool;
  (** [Array.from(m.requestMissingBlocks(min, max, lod))] *)
  requestMissingBlocks : MetricState -> Number.t -> Number.t -> Z -> list Block;
  (** [new MetricState(metricDesc)] and [metricState.registerBlock(blockManifest)] *)
  newMetricState : MetricDesc -> MetricState;
  registerManifest : BlockManifest -> MetricState -> MetricState;
  descName : MetricDesc -> string;
  manifestMetrics : BlockManifest -> list MetricDesc;
  (** [store.registerMetrics(metrics)] and
      [store.registerBlock(blockData, blockId, metricName)] *)
  registerMetrics : list MetricState -> list MetricState -> list MetricState;
  registerBlock : BlockData -> string -> string -> list MetricState -> list MetricState
}.

Record FetchRequest : Type := {
  req_processId : string;
  req_streamId : string;
  req_metricName : string;
  req_blockId : string;
  req_lod : Z
}.

(** One run of the [async (block) => ...] callback of
    [fetchSelectedMetrics]. *)
Record Task : Type := {
  metricName : string;
  block : Block;
  taskLod : Z
}.

(** A task that holds a unit of the semaphore and awaits its fetch;
    [requested] tells whether a request went out (none does while the
    client is unset, when the awaited value is [undefined]). *)
Record Fetch : Type := {
  task : Task;
  requested : bool
}.

(** Modelled from the spec: the class [Semaphore] of the package
    [semaphore-async-await] is not among the sources.  It is the counting
    gate of the specification: [acquire] takes a free unit or suspends the
    caller in a first-in first-out queue until one is handed to it;
    [release] always succeeds, and hands the unit to the first suspended
    caller when there is one. *)
Record Semaphore : Type := {
  permits : Z;
  promiseResolverQueue : list Task
}.

Definition capacity : Z := 8.

(** [new Semaphore(n)] *)
Definition newSemaphore (n : Z) : Semaphore :=
  {| permits := n; promiseResolverQueue := [] |}.

(** Modelled from the spec: [acquire()] for the task [k].  The boolean tells
    whether the unit is granted at once; otherwise [k] waits in the queue. *)
Definition acquire (k : Task) (sem : Semaphore) : bool * Semaphore :=
  if 0 <? permits sem
  then (true, {| permits := permits sem - 1;
                 promiseResolverQueue := promiseResolverQueue sem |})
  else (false, {| permits := permits sem;
                  promiseResolverQueue := promiseResolverQueue sem ++ [k] |}).

(** Modelled from the spec: [release()].  The first queued task, if any, is
    handed the unit and resumes; otherwise the unit is free again. *)
Definition signal (sem : Semaphore) : option Task * Semaphore :=
  match promiseResolverQueue sem with
  | k :: rest => (Some k, {| permits := permits sem; promiseResolverQueue := rest |})
  | [] => (None, {| permits := permits sem + 1; promiseResolverQueue := [] |})
  end.

Section WithApi.
Context {api : MetricApi}.

(** How the awaited fetch of a task ends: with a payload, with
    [undefined], or with an error. *)
Inductive Outcome : Type :=
| Data (d : BlockData)
| NoData
| Failed.

Record t : Type := {
  currentMinMs : Number.t;
  currentMaxMs : Number.t;
  metricStore : list MetricState;
  client : bool;
  processId : string;
  semaphore : Semaphore;
  (** the tasks between [acquire] and [release], oldest first *)
  inFlight : list Fetch;
  (** the tasks that have run to their end, with how their fetch ended *)
  settled : list (Task * Outcome);
  (** the [fetch_block_metric] requests sent so far *)
  requests : list FetchRequest
}.

(** [new MetricStreamer(processId)] *)
Definition new (pid : string) : t :=
  {| currentMinMs := Number.NegInf;
     currentMaxMs := Number.PosInf;
     metricStore := getMetricStore;
     client := false;
     processId := pid;
     semaphore := newSemaphore 8;
     inFlight := [];
     settled := [];
     requests := [] |}.

Definition requestOf (s : t) (k : Task) : FetchRequest :=
  {| req_processId := processId s;
     req_streamId := streamId (block k);
     req_metricName := metricName k;
     req_blockId := blockId (block k);
     req_lod := taskLod k |}.

(** The task has acquired its unit: it calls
    [this.client?.fetch_block_metric(...)] and awaits the result. *)
Definition issueFetch (k : Task) (sem : Semaphore) (s : t) : t :=
  {| currentMinMs := currentMinMs s;
     currentMaxMs := currentMaxMs s;
     metricStore := metricStore s;
     client := client s;
     processId := processId s;
     semaphore := sem;
     inFlight := inFlight s ++ [{| task := k; requested := client s |}];
     settled := settled s;
     requests := if client s then requests s ++ [requestOf s k] else requests s |}.

Definition withSemaphore (sem : Semaphore) (s : t) : t :=
  {| currentMinMs := currentMinMs s;
     currentMaxMs := currentMaxMs s;
     metricStore := metricStore s;
     client := client s;
     processId := processId s;
     semaphore := sem;
     inFlight := inFlight s;
     settled := settled s;
     requests := requests s |}.

(** The callback is started for a block: [await this.semaphore.acquire()],
    after which the task goes on to its fetch, at once or when it is handed
    a unit. *)
Definition launch (k : Task) (s : t) : t :=
  match acquire k (semaphore s) with
  | (true, sem) => issueFetch k sem s
  | (false, sem) => withSemaphore sem s
  end.

(** [this.semaphore.release()] in the [finally] clause; a task that is
    handed the unit goes on to its fetch. *)
Definition release (s : t) : t :=
  match signal (semaphore s) with
  | (Some k, sem) => issueFetch k sem s
  | (None, sem) => withSemaphore sem s
  end.

Fixpoint removeNth {A : Type} (n : nat) (l : list A) : list A :=
  match n, l with
  | _, [] => []
  | O, _ :: rest => rest
  | S n', x :: rest => x :: removeNth n' rest
  end.

(** The fetch awaited by the [n]-th task in flight ends with [o]: the
    payload, if there is one, is registered with the store; in every case
    the [finally] clause releases the unit of the task. *)
Definition settle (n : nat) (o : Outcome) (s : t) : t :=
  match nth_error (inFlight s) n with
  | None => s
  | Some f =>
      let o' := if requested f then o else NoData in
      release
        {| currentMinMs := currentMinMs s;
           currentMaxMs := currentMaxMs s;
           metricStore :=
             match o' with
             | Data d =>
                 registerBlock d (blockId (block (task f))) (metricName (task f))
                   (metricStore s)
             | NoData | Failed => metricStore s
             end;
           client := client s;
           processId := processId s;
           semaphore := semaphore s;
           inFlight := removeNth n (inFlight s);
           settled := settled s ++ [(task f, o')];
           requests := requests s |}
  end.

Definition launchAll (ks : list Task) (s : t) : t :=
  fold_left (fun acc k => launch k acc) ks s.

(** The [missingBlocks] array of [fetchSelectedMetrics]. *)
Definition missingBlocks (lod : Z) (s : t) : list (string * list Block) :=
  map (fun m => (name m,
                 requestMissingBlocks m (currentMinMs s) (currentMaxMs s) lod))
      (List.filter canBeDisplayed (metricStore s)).

(** The callbacks the two nested [forEach] start, in order. *)
Definition tasksOf (lod : Z) (missing : list (string * list Block)) : list Task :=
  flat_map (fun metric =>
              map (fun b => {| metricName := fst metric; block := b; taskLod := lod |})
                  (snd metric))
           missing.

Definition fetchSelectedMetrics (lod : Z) (s : t) : t :=
  let missing := missingBlocks lod s in
  if Nat.eqb (length (flat_map snd missing)) 0 then s
  else launchAll (tasksOf lod missing) s.

Definition tick (lod : Z) (min max : Number.t) (s : t) : t :=
  fetchSelectedMetrics lod
    {| currentMinMs := min;
       currentMaxMs := max;
       metricStore := metricStore s;
       client := client s;
       processId := processId s;
       semaphore := semaphore s;
       inFlight := inFlight s;
       settled := settled s;
       requests := requests s |}.

(** The [Map<string, MetricState>] of [initializeAsync], in insertion
    order. *)
Fixpoint mapGet (key : string) (m : list (string * MetricState)) : option MetricState :=
  match m with
  | [] => None
  | (k, v) :: rest => if String.eqb k key then Some v else mapGet key rest
  end.

Fixpoint mapUpdate (key : string) (f : MetricState -> MetricState)
    (m : list (string * MetricState)) : list (string * MetricState) :=
  match m with
  | [] => []
  | (k, v) :: rest =>
      if String.eqb k key then (k, f v) :: rest else (k, v) :: mapUpdate key f rest
  end.

Definition addMetric (manifest : BlockManifest)
    (m : list (string * MetricState)) (desc : MetricDesc) : list (string * MetricState) :=
  let m1 :=
    match mapGet (descName desc) m with
    | None => m ++ [(descName desc, newMetricState desc)]
    | Some _ => m
    end in
  mapUpdate (descName desc) (registerManifest manifest) m1.

Definition addManifest (m : list (string * MetricState))
    (blockManifest : option BlockManifest) : list (string * MetricState) :=
  match blockManifest with
  | None => m
  | Some manifest => fold_left (addMetric manifest) (manifestMetrics manifest) m
  end.

(** [initializeAsync], given the manifests the client answered with (one
    per listed block, [None] for an [undefined] answer). *)
Definition initializeAsync (blockManifests : list (option BlockManifest)) (s : t) : t :=
  let metricStates := fold_left addManifest blockManifests [] in
  let store := registerMetrics (map snd metricStates) (metricStore s) in
  {| currentMinMs := Number.mathMin (map min store);
     currentMaxMs := Number.mathMax (map max store);
     metricStore := store;
     client := true;
     processId := processId s;
     semaphore := semaphore s;
     inFlight := inFlight s;
     settled := settled s;
     requests := requests s |}.

(** What happens to a streamer, one event after the other. *)
Inductive Event : Type :=
| Initialize (blockManifests : list (option BlockManifest))
| Tick (lod : Z) (min max : Number.t)
| Settle (n : nat) (o : Outcome).

Definition step (s : t) (e : Event) : t :=
  match e with
  | Initialize blockManifests => initializeAsync blockManifests s
  | Tick lod min max => tick lod min max s
  | Settle n o => settle n o s
  end.

Definition run (events : list Event) (s : t) : t := fold_left step events s.

(** The holders of the gate: the tasks that acquired a unit and have not
    released it. *)
Definition holders (s : t) : Z := Z.of_nat (length (inFlight s)).

Definition queued (s : t) : list Task := promiseResolverQueue (semaphore s).

(** Let every awaited fetch end, oldest first, [outcome] telling how. *)
Fixpoint drain (outcome : Task -> Outcome) (fuel : nat) (s : t) : t :=
  match fuel with
  | O => s
  | S fuel' =>
      match inFlight s with
      | [] => s
      | f :: _ => drain outcome fuel' (settle 0 (outcome (task f)) s)
      end
  end.

Definition drainAll (outcome : Task -> Outcome) (s : t) : t :=
  drain outcome (length (inFlight s) + length (queued s)) s.

(** The accounting of the gate: units are never negative, the free units and
    the holders add up to the capacity, and tasks queue only when no unit
    is free. *)
Definition gateInvariant (s : t) : Prop :=
  0 <= permits (semaphore s) /\
  permits (semaphore s) + holders s = capacity /\
  (queued s <> [] -> permits (semaphore s) = 0).

End WithApi.

End Streamer.

(** ** A metric registry to run the streamer on *)

Module Registry.

Import Streamer.

Record Desc : Type := {
  md_name : string;
  md_unit : string
}.

(** The manifest of a block: the block, its time range, and the metrics it
    has samples of. *)
Record Manifest : Type := {
  bm_block : Block;
  bm_startMs : Z;
  bm_endMs : Z;
  bm_metrics : list Desc
}.

(** The payload of a fetched block, reduced to its level of detail. *)
Record Payload : Type := { bd_lod : Z }.

(** Modelled from the spec: the class [MetricState] is not among the
    sources.  A metric keeps the index of the blocks its manifests announced
    (each with its time range) and the tracker of what has been fetched. *)
Record State : Type := {
  ms_name : string;
  ms_unit : string;
  ms_blocks : list (Block * (Z * Z));
  ms_tracker : Tracker.t
}.

Definition fromDesc (d : Desc) : State :=
  {| ms_name := md_name d; ms_unit := md_unit d; ms_blocks := [];
     ms_tracker := Tracker.empty |}.

(** Modelled from the spec: [registerManifestBlock] "adds a Block Reference
    to the known-blocks index ...; does not mark it as fetched". *)
Definition addBlock (bm : Manifest) (m : State) : State :=
  {| ms_name := ms_name m; ms_unit := ms_unit m;
     ms_blocks := ms_blocks m ++ [(bm_block bm, (bm_startMs bm, bm_endMs bm))];
     ms_tracker := ms_tracker m |}.

Definition msOf (z : Z) : Number.t := Number.Fin (inject_Z z).

(** Modelled from the spec: the global range of a metric is the range of
    its announced blocks. *)
Definition stateMin (m : State) : Number.t :=
  Number.mathMin (map (fun b => msOf (fst (snd b))) (ms_blocks m)).

Definition stateMax (m : State) : Number.t :=
  Number.mathMax (map (fun b => msOf (snd (snd b))) (ms_blocks m)).

(** Modelled from the spec: [canBeDisplayed] is "true once at least one
    manifest has been registered for the metric". *)
Definition displayable (m : State) : bool :=
  match ms_blocks m with [] => false | _ :: _ => true end.

Definition coveredBy (cov : list (Z * Z)) (a b : Z) : bool :=
  existsb (fun p => (fst p <=? a) && (b <=? snd p)) cov.

(** Modelled from the spec: [requestMissingBlocks] "returns blocks whose
    time range intersects [min,max], belong to the requested LOD ..., and
    are not yet materialized". *)
Definition missing (m : State) (lo hi : Number.t) (lod : Z) : list Block :=
  map fst
    (List.filter
       (fun b =>
          negb (Number.ltb (msOf (snd (snd b))) lo) &&
          negb (Number.ltb hi (msOf (fst (snd b)))) &&
          negb (coveredBy (Tracker.coverageAt lod (ms_tracker m))
                  (fst (snd b)) (snd (snd b))))
       (ms_blocks m)).

(** Modelled from the spec: [registerMetrics] is an "idempotent insert; a
    metric already present is left untouched". *)
Definition insertMetric (store : list State) (m : State) : list State :=
  if existsb (fun m' => String.eqb (ms_name m') (ms_name m)) store
  then store else store ++ [m].

Definition insertMetrics (metrics store : list State) : list State :=
  fold_left insertMetric metrics store.

Definition rangeOf (id : string) (m : State) : option (Z * Z) :=
  option_map snd
    (List.find (fun b => String.eqb (blockId (fst b)) id) (ms_blocks m)).

(** Modelled from the spec: registering a fetched block with the store hands
    it to the tracker of its metric. *)
Definition storeBlock (d : Payload) (id metric : string) (store : list State)
    : list State :=
  map (fun m =>
         if String.eqb (ms_name m) metric then
           match rangeOf id m with
           | Some (a, b) =>
               {| ms_name := ms_name m; ms_unit := ms_unit m;
                  ms_blocks := ms_blocks m;
                  ms_tracker :=
                    Tracker.registerBlock
                      {| Tracker.blockId := id; Tracker.startMs := a;
                         Tracker.endMs := b; Tracker.lod := bd_lod d |}
                      (ms_tracker m) |}
           | None => m
           end
         else m)
      store.

#[export] Instance api : MetricApi := {|
  MetricState := State;
  MetricDesc := Desc;
  BlockManifest := Manifest;
  BlockData := Payload;
  getMetricStore := [];
  name := ms_name;
  min := stateMin;
  max := stateMax;
  canBeDisplayed := displayable;
  requestMissingBlocks := missing;
  newMetricState := fromDesc;
  registerManifest := addBlock;
  descName := md_name;
  manifestMetrics := bm_metrics;
  registerMetrics := insertMetrics;
  registerBlock := storeBlock
|}.

(** A process with ten blocks of ten milliseconds each, all with samples of
    the metric ["fps"]. *)
Definition blockNamed (i : Z) : Block :=
  {| blockId := String (ascii_of_nat (Z.to_nat (97 + i))) EmptyString;
     streamId := "s" |}.

Definition manifestOf (i : Z) : option Manifest :=
  Some {| bm_block := blockNamed i; bm_startMs := 10 * i; bm_endMs := 10 * i + 10;
          bm_metrics := [{| md_name := "fps"; md_unit := "hz" |}] |}.

Definition tenManifests : list (option Manifest) :=
  map manifestOf [0; 1; 2; 3; 4; 5; 6; 7; 8; 9].

(** The streamer is initialized and ticks on the whole range: eight fetches
    go out, two tasks queue. *)
Definition saturated : list Event :=
  [Initialize tenManifests; Tick 0 (msOf 0) (msOf 100)].

(** The streamer is initialized on one block, ticks, and the block
    arrives. *)
Definition loaded : list Event :=
  [Initialize [manifestOf 0]; Tick 0 (msOf 0) (msOf 100);
   Settle 0 (Data {| bd_lod := 0 |})].

End Registry.

(** ** What a piece of drawing code leaves of the canvas *)

Module Paint.

Import Canvas.
Local Open Scope Q_scope.

(** [c'] is [c] with more operations painted: the font and the stack of
    [save()] are the same, and the operations of [c] are still there, in
    front. *)
Definition extends (c c' : Canvas.t) : Prop :=
  font c' = font c /\
  saved c' = saved c /\
  exists more, ops c' = ops c ++ more.

(** [c'] is [c] but for more operations painted: every drawing attribute is
    as in [c]. *)
Definition onlyPaints (c c' : Canvas.t) (more : list DrawOp) : Prop :=
  c' = {| fillStyle := fillStyle c; font := font c; globalAlpha := globalAlpha c;
          saved := saved c; ops := ops c ++ more |}.

Definition isFillText (op : DrawOp) : bool :=
  match op with
  | FillText _ _ _ _ _ _ => true
  | FillRect _ _ _ _ _ _ => false
  end.

(** The width, as the browser measures it, of the texts among the
    operations. *)
Fixpoint measuredWidth (measureText : string -> string -> TextMetrics)
    (l : list DrawOp) : Q :=
  match l with
  | [] => 0
  | FillText _ font _ text _ _ :: rest =>
      width (measureText font text) + measuredWidth measureText rest
  | FillRect _ _ _ _ _ _ :: rest => measuredWidth measureText rest
  end.

(** The operation paints a text that is the beginning of the value of the
    caption item. *)
Definition paintsBeginningOf (op : DrawOp) (item : Drawer.TimelineCaptionItem) : Prop :=
  match op with
  | FillText _ _ _ text _ _ => String.prefix text (Drawer.value item) = true
  | FillRect _ _ _ _ _ _ => False
  end.

(** A font whose characters are all half as wide as the width the caller
    reckons with, and one whose characters are all twice as wide. *)
Definition narrowFont (font text : string) : TextMetrics :=
  {| width := inject_Z (4 * Z.of_nat (String.length text));
     actualBoundingBoxAscent := 11 |}.

Definition wideFont (font text : string) : TextMetrics :=
  {| width := inject_Z (16 * Z.of_nat (String.length text));
     actualBoundingBoxAscent := 11 |}.

(** A track with spans out of order, to run the searches on. *)
Definition jumbledTrack : Drawer.SpanTrack :=
  {| Drawer.spans :=
       [ {| Drawer.beginMs := 50; Drawer.endMs := 60; Drawer.scopeHash := 3; Drawer.alpha := 255 |};
         {| Drawer.beginMs := 0; Drawer.endMs := 100; Drawer.scopeHash := 0; Drawer.alpha := 128 |};
         {| Drawer.beginMs := 20; Drawer.endMs := 25; Drawer.scopeHash := 3; Drawer.alpha := 255 |} ] |}.

Definition oneScope : gmap Z Drawer.ScopeDesc :=
  {[ 3%Z := {| Drawer.name := "engine::Update" |} ]}.

End Paint.

(** ** The items of a caption, apart *)

Module CaptionItems.

Import Drawer.
Local Open Scope Q_scope.

(** The items [getCaptions] yields for the name: all but the last one, which
    is the duration. *)
Definition nameItems (formatExecutionTime : Q -> string)
    (caption : string) (beginSpan endSpan : Q) : list TimelineCaptionItem :=
  removelast (getCaptions formatExecutionTime caption beginSpan endSpan).

(** The last item [getCaptions] yields. *)
Definition durationItem (formatExecutionTime : Q -> string)
    (beginSpan endSpan : Q) : TimelineCaptionItem :=
  {| value := ("  (" ++ formatExecutionTime (endSpan - beginSpan) ++ ")")%string;
     itemFont := Some "12px arial"%string;
     itemColor := Some subColor;
     skippable := true |}.

(** The values of the items, written one after the other. *)
Definition spelled (items : list TimelineCaptionItem) : string :=
  String.concat EmptyString (map value items).

Definition secondsOf (q : Q) : string := "2s".

End CaptionItems.

(** ** Colours by their channels *)

Module Colour.

Import Drawer.
Local Open Scope Q_scope.

Definition isByte (r : Z) : Prop := (0 <= r <= 255)%Z.

(** The colour string [#rrggbb] of three channels, as [shadeColor] writes
    it. *)
Definition hexColor (r g b : Z) : string :=
  ("#" ++ twoDigits r ++ twoDigits g ++ twoDigits b)%string.

(** A channel divided by [decimal], rounded, and held at 255. *)
Definition shaded (decimal : Q) (r : Z) : Z :=
  Z.min 255 (Qfloor (inject_Z r / decimal + (1 # 2))).

(** The test run over every byte: [twoDigits] writes two characters, and
    [parseInt] reads the byte back from them. *)
Definition byteRoundTrip (r : Z) : bool :=
  match twoDigits r with
  | String _ (String _ EmptyString) =>
      match JsString.parseInt16 (twoDigits r) with
      | Some r' => (r' =? r)%Z
      | None => false
      end
  | _ => false
  end.

(** The string is made of hexadecimal digits and [#] only. *)
Fixpoint hexOrHash (s : string) : bool :=
  match s with
  | EmptyString => true
  | String c s' =>
      (match JsString.hexValue c with
       | Some _ => true
       | None => Ascii.eqb c "#"
       end && hexOrHash s')%bool
  end.

(** The context of a draw but for the search term. *)
Definition withSearch (tc : TimelineTrackContext) (s : string) : TimelineTrackContext :=
  {| tc_begin := tc_begin tc; tc_end := tc_end tc;
     msToPixelsFactor := msToPixelsFactor tc; search := s |}.

End Colour.

(** ** Histories of a streamer *)

Module History.

Import Streamer.

Section WithApi.
Context {api : MetricApi}.

(** The store once the payloads of settled fetches are registered with it,
    in the order the fetches ended. *)
Definition registerSettled (store : list MetricState) (entries : list (Task * Outcome))
    : list MetricState :=
  fold_left
    (fun st e =>
       match snd e with
       | Data d => registerBlock d (blockId (block (fst e))) (metricName (fst e)) st
       | NoData | Failed => st
       end)
    entries store.

Definition isInitialize (e : Event) : bool :=
  match e with
  | Initialize _ => true
  | Tick _ _ _ | Settle _ _ => false
  end.

(** The accounting of requests: none goes out but for a task that holds a
    unit. *)
Definition requestsAccounted (s : t) : Prop :=
  (length (requests s) <= length (inFlight s) + length (settled s))%nat.

(** The map [metricStates] that [initializeAsync] builds from the
    manifests. *)
Definition metricStatesOf (blockManifests : list (option BlockManifest))
    : list (string * MetricState) :=
  fold_left addManifest blockManifests [].

(** The metric descriptions of the manifests, each with the manifest that
    lists it, in the order [initializeAsync] goes through them. *)
Definition listings (blockManifests : list (option BlockManifest))
    : list (MetricDesc * BlockManifest) :=
  flat_map
    (fun bm =>
       match bm with
       | Some manifest => map (fun d => (d, manifest)) (manifestMetrics manifest)
       | None => []
       end)
    blockManifests.

Definition listingsOf (key : string) (blockManifests : list (option BlockManifest))
    : list (MetricDesc * BlockManifest) :=
  List.filter (fun l => String.eqb (descName (fst l)) key) (listings blockManifests).

(** The state of a metric after its listings: created from the first
    description, then handed every manifest that lists it. *)
Definition stateAfter (ls : list (MetricDesc * BlockManifest)) : option MetricState :=
  match ls with
  | [] => None
  | (d, _) :: _ =>
      Some (fold_left (fun st l => registerManifest (snd l) st) ls (newMetricState d))
  end.

(** The state under a key, seen through what was there before and the
    listings of the key gone through. *)
Definition afterListings (start : option MetricState)
    (ls : list (MetricDesc * BlockManifest)) : option MetricState :=
  match start with
  | Some st => Some (fold_left (fun st l => registerManifest (snd l) st) ls st)
  | None => stateAfter ls
  end.

(** The names the listings are under. *)
Definition namesOf (ls : list (MetricDesc * BlockManifest)) : list string :=
  map (fun l => descName (fst l)) ls.

End WithApi.

End History.

(** ** A registry of bare metrics *)

Module Plain.

Import Streamer.

(** A metric reduced to its name and its two bounds, as the manifests give
    them; a manifest is the list of its metrics. *)
Record Metric : Type := {
  pm_name : string;
  pm_min : Number.t;
  pm_max : Number.t
}.

Definition api : MetricApi := {|
  MetricState := Metric;
  MetricDesc := Metric;
  BlockManifest := list Metric;
  BlockData := unit;
  getMetricStore := [];
  name := pm_name;
  min := pm_min;
  max := pm_max;
  canBeDisplayed := fun _ => true;
  requestMissingBlocks := fun _ _ _ _ => [];
  newMetricState := fun d => d;
  registerManifest := fun _ m => m;
  descName := pm_name;
  manifestMetrics := fun l => l;
  registerMetrics := fun metrics store => store ++ metrics;
  registerBlock := fun _ _ _ store => store
|}.

(** A manifest with a metric whose least time is not a number. *)
Definition spoiled : list (option (list Metric)) :=
  [Some [ {| pm_name := "a"; pm_min := Number.NaN; pm_max := Number.Fin 5 |};
          {| pm_name := "b"; pm_min := Number.Fin 1; pm_max := Number.Fin 2 |} ]].

End Plain.

(** * Part II: the properties *)

(** ** Integer operators, comparisons and rounding *)

Module JsFacts.

Import Js.

Lemma ltb_spec (x y : Q) : ltb x y = true <-> (x < y)%Q.
Proof.
  unfold ltb. rewrite Qlt_alt. destruct (Qcompare x y); intuition congruence.
Qed.

Lemma ltb_false (x y : Q) : ltb x y = false <-> (y <= x)%Q.
Proof.
  split; intros H.
  - apply Qnot_lt_le. intros Hlt. apply ltb_spec in Hlt. congruence.
  - destruct (ltb x y) eqn:E; [|reflexivity].
    apply ltb_spec in E. exfalso. apply (Qlt_not_le _ _ E H).
Qed.

Lemma toInt32_small (z : Z) : - 2 ^ 31 <= z < 2 ^ 31 -> toInt32 z = z.
Proof. intros H. unfold toInt32. rewrite Z.mod_small; lia. Qed.

Lemma bitNot_small (z : Z) : - 2 ^ 31 <= z < 2 ^ 31 -> bitNot z = - z - 1.
Proof.
  intros H. unfold bitNot. rewrite toInt32_small by assumption.
  unfold Z.lnot, Z.pred. lia.
Qed.

Lemma ushr1_small (z : Z) : 0 <= z < 2 ^ 32 -> ushr z 1 = z / 2.
Proof.
  intros H. unfold ushr, toUint32. rewrite Z.mod_small by assumption.
  rewrite Z.shiftr_div_pow2 by lia. reflexivity.
Qed.

Lemma roundHalfEven_bounds (m : Q) :
  Qfloor m <= roundHalfEven m <= Qfloor m + 1.
Proof.
  unfold roundHalfEven.
  destruct (Qcompare (m - inject_Z (Qfloor m)) (1 # 2)); [destruct (Z.even _)| |]; lia.
Qed.

Lemma roundHalfEven_mono (m1 m2 : Q) :
  (m1 <= m2)%Q -> roundHalfEven m1 <= roundHalfEven m2.
Proof.
  intros Hle. pose proof (Qfloor_resp_le m1 m2 Hle) as Hf.
  pose proof (roundHalfEven_bounds m1) as B1.
  pose proof (roundHalfEven_bounds m2) as B2.
  destruct (Z.eq_dec (Qfloor m1) (Qfloor m2)) as [E|N]; [|lia].
  unfold roundHalfEven. rewrite <- E.
  destruct (Qcompare_spec (m1 - inject_Z (Qfloor m1)) (1 # 2)) as [H1|H1|H1];
    destruct (Qcompare_spec (m2 - inject_Z (Qfloor m1)) (1 # 2)) as [H2|H2|H2];
    try lia; try (destruct (Z.even (Qfloor m1)); lia); exfalso; lra.
Qed.

Lemma roundHalfEven_Z (n : Z) : roundHalfEven (inject_Z n) = n.
Proof.
  unfold roundHalfEven. rewrite Qfloor_Z.
  destruct (Qcompare_spec (inject_Z n - inject_Z n) (1 # 2)) as [H|H|H];
    [exfalso; lra|reflexivity|exfalso; lra].
Qed.

Lemma nearestDouble_nonneg (s : Q) : (0 <= s)%Q -> 0 <= nearestDouble s.
Proof.
  intros Hs. unfold nearestDouble.
  set (k := Z.max 0 (Z.log2 (Qfloor s) - 52)).
  assert (Hk : 0 <= k) by (unfold k; lia).
  assert (Hp : 0 < 2 ^ k) by (apply Z.pow_pos_nonneg; lia).
  assert (HP : (0 < inject_Z (2 ^ k))%Q)
    by (change 0%Q with (inject_Z 0); rewrite <- Zlt_Qlt; assumption).
  apply Z.mul_nonneg_nonneg; [|lia].
  rewrite <- (roundHalfEven_Z 0). apply roundHalfEven_mono.
  apply Qle_shift_div_l; [assumption|]. change (inject_Z 0) with 0%Q. lra.
Qed.

Lemma floor_lt_pow2 (s : Q) :
  (0 <= s)%Q -> (s < inject_Z (2 ^ (Z.log2 (Qfloor s) + 1)))%Q.
Proof.
  intros Hs.
  assert (H0 : 0 <= Qfloor s).
  { rewrite <- (Qfloor_Z 0). apply Qfloor_resp_le. assumption. }
  assert (Ht : Qfloor s + 1 <= 2 ^ (Z.log2 (Qfloor s) + 1)).
  { destruct (Z.eq_dec (Qfloor s) 0) as [E|N].
    - rewrite E. simpl. lia.
    - pose proof (Z.log2_spec (Qfloor s)). replace (Z.succ (Z.log2 (Qfloor s)))
        with (Z.log2 (Qfloor s) + 1) in * by lia. lia. }
  apply Qlt_le_trans with (y := inject_Z (Qfloor s + 1)); [apply Qlt_floor|].
  rewrite <- Zle_Qle. assumption.
Qed.

Lemma nearestDouble_mono (s1 s2 : Q) :
  (0 <= s1)%Q -> (s1 <= s2)%Q -> nearestDouble s1 <= nearestDouble s2.
Proof.
  intros H1 Hle.
  assert (H2 : (0 <= s2)%Q) by lra.
  assert (Ht1 : 0 <= Qfloor s1).
  { rewrite <- (Qfloor_Z 0). apply Qfloor_resp_le. assumption. }
  pose proof (Qfloor_resp_le s1 s2 Hle) as Ht.
  pose proof (Z.log2_le_mono _ _ Ht) as Hlog.
  unfold nearestDouble.
  set (k1 := Z.max 0 (Z.log2 (Qfloor s1) - 52)).
  set (k2 := Z.max 0 (Z.log2 (Qfloor s2) - 52)).
  assert (Hk1 : 0 <= k1) by (unfold k1; lia).
  assert (Hk : k1 <= k2) by (unfold k1, k2; lia).
  assert (Hp1 : 0 < 2 ^ k1) by (apply Z.pow_pos_nonneg; lia).
  assert (Hp2 : 0 < 2 ^ k2) by (apply Z.pow_pos_nonneg; lia).
  assert (HP1 : (0 < inject_Z (2 ^ k1))%Q)
    by (change 0%Q with (inject_Z 0); rewrite <- Zlt_Qlt; assumption).
  assert (HP2 : (0 < inject_Z (2 ^ k2))%Q)
    by (change 0%Q with (inject_Z 0); rewrite <- Zlt_Qlt; assumption).
  destruct (Z.eq_dec k1 k2) as [E|N].
  - rewrite <- E. apply Z.mul_le_mono_nonneg_r; [lia|].
    apply roundHalfEven_mono. apply Qmult_le_compat_r; [assumption|].
    apply Qlt_le_weak. apply Qinv_lt_0_compat. assumption.
  - assert (Hlt : k1 + 1 <= k2) by lia.
    (* the first result is at most 2^(k1+53) *)
    assert (Hr1 : roundHalfEven (s1 / inject_Z (2 ^ k1)) <= 2 ^ 53).
    { rewrite <- (roundHalfEven_Z (2 ^ 53)). apply roundHalfEven_mono.
      apply Qle_shift_div_r; [assumption|]. rewrite <- inject_Z_mult.
      rewrite <- Z.pow_add_r by lia.
      apply Qlt_le_weak.
      apply Qlt_le_trans with (y := inject_Z (2 ^ (Z.log2 (Qfloor s1) + 1)));
        [apply floor_lt_pow2; assumption|].
      rewrite <- Zle_Qle. apply Z.pow_le_mono_r; unfold k1; lia. }
    (* the second is at least 2^(k2+52) *)
    assert (Hk2 : k2 = Z.log2 (Qfloor s2) - 52) by (unfold k2 in *; lia).
    assert (Hpos2 : 0 < Qfloor s2).
    { destruct (Z_lt_le_dec 0 (Qfloor s2)) as [H|H]; [assumption|].
      rewrite (Z.log2_nonpos _ H) in Hk2. lia. }
    assert (Hr2 : 2 ^ 52 <= roundHalfEven (s2 / inject_Z (2 ^ k2))).
    { rewrite <- (roundHalfEven_Z (2 ^ 52)) at 1. apply roundHalfEven_mono.
      apply Qle_shift_div_l; [assumption|]. rewrite <- inject_Z_mult.
      rewrite <- Z.pow_add_r by lia.
      replace (52 + k2)%Z with (Z.log2 (Qfloor s2)) by lia.
      apply Qle_trans with (y := inject_Z (Qfloor s2)); [|apply Qfloor_le].
      rewrite <- Zle_Qle. apply (Z.log2_spec _ Hpos2). }
    apply Z.le_trans with (m := 2 ^ 53 * 2 ^ k1).
    + apply Z.mul_le_mono_nonneg_r; [lia|assumption].
    + apply Z.le_trans with (m := 2 ^ 52 * 2 ^ k2).
      * rewrite <- !Z.pow_add_r by lia. apply Z.pow_le_mono_r; lia.
      * apply Z.mul_le_mono_nonneg_r; [lia|assumption].
Qed.

Lemma doubleUnit_pos : (0 < inject_Z doubleUnit)%Q.
Proof.
  change 0%Q with (inject_Z 0). rewrite <- Zlt_Qlt.
  unfold doubleUnit. apply Z.pow_pos_nonneg; lia.
Qed.

Lemma scaled_nonneg (q : Q) : (0 <= q)%Q -> (0 <= q * inject_Z doubleUnit)%Q.
Proof.
  intros H. apply Qmult_le_0_compat; [assumption|].
  apply Qlt_le_weak. apply doubleUnit_pos.
Qed.

Lemma unscaled_le (a b : Z) :
  a <= b -> (inject_Z a / inject_Z doubleUnit <= inject_Z b / inject_Z doubleUnit)%Q.
Proof.
  intros H. apply Qmult_le_compat_r; [rewrite <- Zle_Qle; assumption|].
  apply Qlt_le_weak. apply Qinv_lt_0_compat. apply doubleUnit_pos.
Qed.

Lemma toDouble_nonneg (q : Q) :
  (0 <= q)%Q ->
  (0 <= inject_Z (nearestDouble (q * inject_Z doubleUnit)) / inject_Z doubleUnit)%Q.
Proof.
  intros H.
  pose proof (nearestDouble_nonneg _ (scaled_nonneg q H)) as Hn.
  pose proof (unscaled_le 0 _ Hn) as Hu.
  assert (E : (inject_Z 0 / inject_Z doubleUnit == 0)%Q) by reflexivity.
  rewrite E in Hu. exact Hu.
Qed.

(** Rounding to a double keeps the order. *)
Lemma toDouble_mono (q1 q2 : Q) : (q1 <= q2)%Q -> (toDouble q1 <= toDouble q2)%Q.
Proof.
  intros Hle. unfold toDouble.
  destruct (ltb q1 0) eqn:E1; destruct (ltb q2 0) eqn:E2.
  - apply ltb_spec in E1, E2. apply Qopp_le_compat. apply unscaled_le.
    apply nearestDouble_mono.
    + apply scaled_nonneg. lra.
    + apply Qmult_le_compat_r; [lra|]. apply Qlt_le_weak. apply doubleUnit_pos.
  - apply ltb_spec in E1. apply ltb_false in E2.
    assert (A : (0 <= - q1)%Q) by lra.
    pose proof (toDouble_nonneg _ A). pose proof (toDouble_nonneg _ E2). lra.
  - apply ltb_false in E1. apply ltb_spec in E2. exfalso. lra.
  - apply ltb_false in E1, E2. apply unscaled_le. apply nearestDouble_mono.
    + apply scaled_nonneg. assumption.
    + apply Qmult_le_compat_r; [assumption|]. apply Qlt_le_weak. apply doubleUnit_pos.
Qed.

Lemma sub_le_mono_l (a b c : Q) : (a <= b)%Q -> (sub a c <= sub b c)%Q.
Proof. intros H. unfold sub. apply toDouble_mono. lra. Qed.

(** The rounded difference of 0.8 and 0.3 is 0.5, a tie that goes to the
    even double; the exact difference of the two doubles is above 0.5. *)
Example sub_rounds :
  (sub (3602879701896397 # 4503599627370496) (5404319552844595 # 18014398509481984)
   == 1 # 2)%Q /\
  (1 # 2 < (3602879701896397 # 4503599627370496) - (5404319552844595 # 18014398509481984))%Q.
Proof. split; vm_compute; reflexivity. Qed.

(** A double is its own rounding, and so is its difference with 0. *)
Example sub_zero : (sub 12 0 == 12)%Q /\ (toDouble (1 # 8) == 1 # 8)%Q.
Proof. split; vm_compute; reflexivity. Qed.

End JsFacts.

(** ** The binary search finds the split of an ordered haystack *)

Module BinarySearchFacts.

Import BinarySearch.

Section Search.
Context {A N : Type}.
Variable haystack : list A.
Variable needle : N.
Variable comparator : A -> N -> Z.

Lemma at_index_Some (i : Z) :
  0 <= i < Z.of_nat (length haystack) -> exists x, at_index haystack i = Some x.
Proof.
  intros [H0 H1]. unfold at_index.
  destruct (i <? 0) eqn:E; [apply Z.ltb_lt in E; lia|].
  destruct (nth_error haystack (Z.to_nat i)) eqn:En; [eauto|].
  apply nth_error_None in En. lia.
Qed.

Lemma loop_spec :
  Z.of_nat (length haystack) < 2 ^ 31 ->
  ordered haystack needle comparator ->
  forall fuel low high,
    0 <= low -> high < Z.of_nat (length haystack) -> low <= high + 1 ->
    high - low + 1 <= Z.of_nat fuel ->
    (forall i c, cmpAt haystack needle comparator i = Some c -> i < low -> c < 0) ->
    (forall i c, cmpAt haystack needle comparator i = Some c -> high < i -> 0 <= c) ->
    exists r, loop haystack needle comparator fuel low high = Some r /\
              splits haystack needle comparator (insertionPoint r).
Proof.
  intros Hlen Hord. induction fuel as [|fuel IH]; intros low high H0 Hhi Hle Hfuel Hlo Hup.
  - assert (high = low - 1) by lia. subst high. simpl.
    replace (low - 1 <? low) with true by (symmetry; apply Z.ltb_lt; lia).
    eexists; split; [reflexivity|].
    unfold insertionPoint. rewrite JsFacts.bitNot_small by lia.
    replace (- low - 1 <? 0) with true by (symmetry; apply Z.ltb_lt; lia).
    rewrite JsFacts.bitNot_small by lia.
    replace (- (- low - 1) - 1) with low by lia.
    split; [lia|]. intros i c Hc. split; intros H.
    + destruct (Z_lt_le_dec i low); [assumption|].
      assert (0 <= c) by (apply (Hup i c Hc); lia). lia.
    + eauto.
  - cbn [loop]. destruct (high <? low) eqn:Ehl.
    + apply Z.ltb_lt in Ehl. assert (high = low - 1) by lia. subst high.
      eexists; split; [reflexivity|].
      unfold insertionPoint. rewrite JsFacts.bitNot_small by lia.
      replace (- low - 1 <? 0) with true by (symmetry; apply Z.ltb_lt; lia).
      rewrite JsFacts.bitNot_small by lia.
      replace (- (- low - 1) - 1) with low by lia.
      split; [lia|]. intros i c Hc. split; intros H.
      * destruct (Z_lt_le_dec i low); [assumption|].
        assert (0 <= c) by (apply (Hup i c Hc); lia). lia.
      * eauto.
    + apply Z.ltb_ge in Ehl.
      rewrite JsFacts.ushr1_small by lia.
      set (mid := low + (high - low) / 2).
      assert (Hmid : low <= mid <= high).
      { unfold mid. pose proof (Z.div_pos (high - low) 2).
        assert ((high - low) / 2 <= high - low)
          by (apply Z.div_le_upper_bound; lia). lia. }
      destruct (at_index_Some mid) as [x Hx]; [lia|]. rewrite Hx.
      assert (Hcm : cmpAt haystack needle comparator mid = Some (comparator x needle))
        by (unfold cmpAt; rewrite Hx; reflexivity).
      destruct (comparator x needle <? 0) eqn:Eneg.
      * apply Z.ltb_lt in Eneg. apply IH; try lia.
        -- intros i c Hc Hi. destruct (Z.eq_dec i mid) as [->|Hne].
           ++ assert (c = comparator x needle) by congruence. lia.
           ++ apply (Hord i mid c (comparator x needle)); try assumption; lia.
        -- assumption.
      * apply Z.ltb_ge in Eneg.
        destruct (0 <? comparator x needle) eqn:Epos.
        -- apply Z.ltb_lt in Epos. apply IH; try lia.
           ++ assumption.
           ++ intros i c Hc Hi. destruct (Z_lt_le_dec high i) as [Hgt|Hgt].
              ** eauto.
              ** destruct (Z_lt_le_dec c 0) as [Hc0|Hc0]; [|assumption].
                 destruct (Z.eq_dec i mid) as [->|Hne]; [assert (c = comparator x needle) by congruence; lia|].
                 assert (comparator x needle < 0); [|lia].
                 apply (Hord mid i (comparator x needle) c); try assumption; lia.
        -- apply Z.ltb_ge in Epos.
           assert (Hz : comparator x needle = 0) by lia.
           eexists; split; [reflexivity|].
           unfold insertionPoint.
           replace (mid <? 0) with false by (symmetry; apply Z.ltb_ge; lia).
           split; [lia|]. intros i c Hc. split; intros H.
           ++ destruct (Z_lt_le_dec i mid) as [Hlt|Hge]; [assumption|].
              destruct (Z.eq_dec i mid) as [->|Hne]; [assert (c = comparator x needle) by congruence; lia|].
              assert (comparator x needle < 0); [|lia].
              apply (Hord mid i (comparator x needle) c); try assumption; lia.
           ++ destruct (Z.eq_dec i mid) as [->|Hne]; [lia|].
              apply (Hord i mid c (comparator x needle)); try assumption; lia.
Qed.

(** On an ordered haystack the search does not throw, and the index it
    yields, once a negative "not found" result is complemented, splits the
    haystack. *)
Lemma binarySearch_splits :
  Z.of_nat (length haystack) < 2 ^ 31 ->
  ordered haystack needle comparator ->
  exists r, binarySearch haystack needle comparator = Some r /\
            splits haystack needle comparator (insertionPoint r).
Proof.
  intros Hlen Hord. unfold binarySearch.
  apply loop_spec; try assumption; try lia.
  - intros i c Hc Hi. unfold cmpAt, at_index in Hc.
    replace (i <? 0) with true in Hc by (symmetry; apply Z.ltb_lt; lia).
    discriminate.
  - intros i c Hc Hi. unfold cmpAt, at_index in Hc.
    destruct (i <? 0); [discriminate|].
    destruct (nth_error haystack (Z.to_nat i)) eqn:En; [|discriminate].
    assert (Z.to_nat i < length haystack)%nat
      by (apply nth_error_Some; congruence). lia.
Qed.

End Search.

End BinarySearchFacts.

(** ** String operations on examples *)

Module JsStringFacts.

Local Open Scope string_scope.
Import JsString.

Example split_qualified : split "ns::inner::leaf" = ["ns"; "inner"; "leaf"].
Proof. reflexivity. Qed.

Example split_plain : split "main" = ["main"].
Proof. reflexivity. Qed.

Example split_odd_colons : split "a:::b" = ["a"; ":b"].
Proof. reflexivity. Qed.

Example slice0_negative : slice0 "::inner" (-1) = "::inne".
Proof. reflexivity. Qed.

Example toString16_ex : toString16 244 = "f4" /\ toString16 9 = "9" /\ toString16 0 = "0".
Proof. repeat split. Qed.

Example parseInt16_ex : parseInt16 "fe" = Some 254 /\ parseInt16 "zz" = None.
Proof. split; reflexivity. Qed.

End JsStringFacts.

(** ** Index ranges *)

Lemma countFrom_In (n : nat) : forall first i,
  In i (countFrom first n) <-> first <= i < first + Z.of_nat n.
Proof.
  induction n as [|n IH]; intros first i; simpl.
  - lia.
  - rewrite IH. lia.
Qed.

Lemma filter_countFrom (a b : Z) (n : nat) : forall lo,
  List.filter (fun i => (a <=? i) && (i <? b)) (countFrom lo n)
  = countFrom (Z.max lo a) (Z.to_nat (Z.min (lo + Z.of_nat n) b - Z.max lo a)).
Proof.
  induction n as [|n IH]; intros lo.
  - simpl. replace (Z.to_nat _) with O by lia. reflexivity.
  - cbn [countFrom List.filter]. rewrite IH.
    replace (lo + 1 + Z.of_nat n) with (lo + Z.of_nat (S n)) by lia.
    destruct (a <=? lo) eqn:Ea; [apply Z.leb_le in Ea|apply Z.leb_gt in Ea]; simpl.
    + destruct (lo <? b) eqn:Eb; [apply Z.ltb_lt in Eb|apply Z.ltb_ge in Eb].
      * replace (Z.max lo a) with lo by lia.
        replace (Z.to_nat (Z.min (lo + Z.of_nat (S n)) b - lo))
          with (S (Z.to_nat (Z.min (lo + Z.of_nat (S n)) b - Z.max (lo + 1) a))) by lia.
        cbn [countFrom]. f_equal. f_equal. lia.
      * replace (Z.to_nat (Z.min (lo + Z.of_nat (S n)) b - Z.max (lo + 1) a)) with O by lia.
        replace (Z.to_nat (Z.min (lo + Z.of_nat (S n)) b - Z.max lo a)) with O by lia.
        reflexivity.
    + replace (Z.max (lo + 1) a) with (Z.max lo a) by lia. reflexivity.
Qed.

Lemma indexRange_filter (first last len : Z) :
  0 <= first -> last <= len ->
  indexRange first last
  = List.filter (fun i => (first <=? i) && (i <? last)) (indexRange 0 len).
Proof.
  intros H0 H1. unfold indexRange. rewrite filter_countFrom.
  replace (Z.max 0 first) with first by lia.
  destruct (Z_lt_le_dec len 0) as [Hneg|Hpos].
  - replace (Z.to_nat (last - first)) with O by lia.
    replace (Z.to_nat _) with O by lia. reflexivity.
  - f_equal. lia.
Qed.

(** ** Which spans [drawSpanTrack] goes through *)

Module VisibilityFacts.

Import Drawer.
Local Open Scope Q_scope.
Import Visibility.

Lemma separated_head (l : list Span) : forall x,
  Forall (fun s => beginMs s <= endMs s) l ->
  Sorted (fun s s' => endMs s < beginMs s') l ->
  HdRel (fun s s' => endMs s < beginMs s') x l ->
  forall s, In s l -> endMs x < beginMs s.
Proof.
  induction l as [|h l IH]; intros x Hwf Hs Hhd s Hin; [contradiction|].
  pose proof (Forall_inv Hwf) as Hh. pose proof (Forall_inv_tail Hwf) as Hwf'.
  apply Sorted_inv in Hs as [Hs' Hhd'].
  apply HdRel_inv in Hhd.
  destruct Hin as [<-|Hin]; [assumption|].
  apply Qlt_trans with (y := endMs h).
  - apply Qlt_le_trans with (y := beginMs h); assumption.
  - apply IH; assumption.
Qed.

Lemma nonOverlapping_lt (l : list Span) :
  Forall (fun s => beginMs s <= endMs s) l ->
  Sorted (fun s s' => endMs s < beginMs s') l ->
  forall (i j : nat) si sj, (i < j)%nat ->
    nth_error l i = Some si -> nth_error l j = Some sj -> endMs si < beginMs sj.
Proof.
  induction l as [|h l IH]; intros Hwf Hs i j si sj Hij Hi Hj.
  - destruct i; discriminate.
  - pose proof (Forall_inv_tail Hwf) as Hwf'.
    apply Sorted_inv in Hs as [Hs' Hhd'].
    destruct j as [|j]; [lia|]. simpl in Hj.
    destruct i as [|i]; simpl in Hi.
    + injection Hi as <-. apply (separated_head l); try assumption.
      eapply nth_error_In; eassumption.
    + apply (IH Hwf' Hs' i j); try assumption. lia.
Qed.

Lemma at_index_lt (track : SpanTrack) (i j : Z) si sj :
  nonOverlapping track -> (i < j)%Z ->
  BinarySearch.at_index (spans track) i = Some si ->
  BinarySearch.at_index (spans track) j = Some sj ->
  endMs si < beginMs sj /\ beginMs si <= endMs si /\ beginMs sj <= endMs sj.
Proof.
  intros [Hwf Hs] Hij Hi Hj. unfold BinarySearch.at_index in *.
  destruct (i <? 0)%Z eqn:Ei; [discriminate|].
  destruct (j <? 0)%Z eqn:Ej; [discriminate|].
  apply Z.ltb_ge in Ei, Ej.
  pose proof (proj1 (List.Forall_forall _ _) Hwf) as Hall.
  repeat split.
  - apply (nonOverlapping_lt _ Hwf Hs (Z.to_nat i) (Z.to_nat j));
      try assumption. lia.
  - apply Hall. eapply nth_error_In; eassumption.
  - apply Hall. eapply nth_error_In; eassumption.
Qed.

Lemma compareFirst_ordered (track : SpanTrack) (needle : Q) :
  nonOverlapping track ->
  BinarySearch.ordered (spans track) needle compareFirst.
Proof.
  intros Hno i j ci cj Hij Hi Hj Hcj. unfold BinarySearch.cmpAt in *.
  destruct (BinarySearch.at_index (spans track) i) as [si|] eqn:Esi; [|discriminate].
  destruct (BinarySearch.at_index (spans track) j) as [sj|] eqn:Esj; [|discriminate].
  simpl in Hi, Hj. injection Hi as <-. injection Hj as <-.
  destruct (at_index_lt track i j si sj Hno Hij Esi Esj) as (Hlt & Hwi & Hwj).
  unfold compareFirst in *.
  assert (Hb : beginMs sj <= needle).
  { destruct (Js.ltb (endMs sj) needle) eqn:E1.
    - apply JsFacts.ltb_spec in E1. lra.
    - destruct (Js.ltb needle (beginMs sj)) eqn:E2; [lia|].
      apply JsFacts.ltb_false in E2. assumption. }
  replace (Js.ltb (endMs si) needle) with true; [lia|].
  symmetry. apply JsFacts.ltb_spec. lra.
Qed.

Lemma compareLast_ordered (track : SpanTrack) (needle : Q) :
  nonOverlapping track ->
  BinarySearch.ordered (spans track) needle compareLast.
Proof.
  intros Hno i j ci cj Hij Hi Hj Hcj. unfold BinarySearch.cmpAt in *.
  destruct (BinarySearch.at_index (spans track) i) as [si|] eqn:Esi; [|discriminate].
  destruct (BinarySearch.at_index (spans track) j) as [sj|] eqn:Esj; [|discriminate].
  simpl in Hi, Hj. injection Hi as <-. injection Hj as <-.
  destruct (at_index_lt track i j si sj Hno Hij Esi Esj) as (Hlt & Hwi & Hwj).
  unfold compareLast in *.
  assert (Hb : beginMs sj <= needle).
  { destruct (Js.ltb (beginMs sj) needle) eqn:E1.
    - apply JsFacts.ltb_spec in E1. lra.
    - destruct (Js.ltb needle (endMs sj)) eqn:E2; [lia|].
      apply JsFacts.ltb_false in E2. lra. }
  replace (Js.ltb (beginMs si) needle) with true; [lia|].
  symmetry. apply JsFacts.ltb_spec. lra.
Qed.

Lemma compareFirst_neg (s : Span) (n : Q) : (compareFirst s n < 0)%Z <-> endMs s < n.
Proof.
  unfold compareFirst. destruct (Js.ltb (endMs s) n) eqn:E.
  - apply JsFacts.ltb_spec in E. split; [intros _; assumption|lia].
  - apply JsFacts.ltb_false in E. split.
    + destruct (Js.ltb n (beginMs s)); lia.
    + intros H. lra.
Qed.

Lemma compareLast_neg (s : Span) (n : Q) : (compareLast s n < 0)%Z <-> beginMs s < n.
Proof.
  unfold compareLast. destruct (Js.ltb (beginMs s) n) eqn:E.
  - apply JsFacts.ltb_spec in E. split; [intros _; assumption|lia].
  - apply JsFacts.ltb_false in E. split.
    + destruct (Js.ltb n (endMs s)); lia.
    + intros H. lra.
Qed.

Lemma bool_eq_iff (a b : bool) : (a = true <-> b = true) -> a = b.
Proof. destruct a, b; intuition congruence. Qed.

Lemma visitedSpans_in_view
    (this : Drawer.t) (track : SpanTrack) (tc : TimelineTrackContext) :
  nonOverlapping track ->
  (Z.of_nat (length (spans track)) < 2 ^ 31)%Z ->
  visitedSpans this track tc
  = Some (List.filter (spanAt track (inView this tc)) (allIndices track)).
Proof.
  intros Hno Hlen. unfold visitedSpans, spanBounds.
  destruct (BinarySearchFacts.binarySearch_splits (spans track)
              (firstNeedle this tc) compareFirst Hlen
              (compareFirst_ordered track _ Hno)) as (r1 & -> & [Hr1 Hs1]).
  destruct (BinarySearchFacts.binarySearch_splits (spans track)
              (lastNeedle this tc) compareLast Hlen
              (compareLast_ordered track _ Hno)) as (r2 & -> & [Hr2 Hs2]).
  cbn [option_map fst snd]. f_equal.
  change (complement r1) with (BinarySearch.insertionPoint r1).
  change (complement r2) with (BinarySearch.insertionPoint r2).
  set (first := BinarySearch.insertionPoint r1) in *.
  set (last := BinarySearch.insertionPoint r2) in *.
  unfold allIndices.
  rewrite (indexRange_filter first last (Z.of_nat (length (spans track)))) by lia.
  apply List.filter_ext_in. intros i Hin.
  unfold indexRange in Hin. apply countFrom_In in Hin.
  destruct (BinarySearchFacts.at_index_Some (spans track) i) as [s Hsp]; [lia|].
  unfold spanAt. rewrite Hsp. unfold inView.
  specialize (Hs1 i (compareFirst s (firstNeedle this tc))).
  specialize (Hs2 i (compareLast s (lastNeedle this tc))).
  unfold BinarySearch.cmpAt in Hs1, Hs2. rewrite Hsp in Hs1, Hs2.
  specialize (Hs1 eq_refl). specialize (Hs2 eq_refl).
  rewrite compareFirst_neg in Hs1. rewrite compareLast_neg in Hs2.
  f_equal.
  - apply bool_eq_iff. rewrite Z.leb_le, negb_true_iff, JsFacts.ltb_false.
    split; intros H.
    + apply Qnot_lt_le. intros Hlt.
      assert (i < first)%Z by (apply Hs1; assumption). lia.
    + destruct (Z_lt_le_dec i first) as [Hlt|Hge]; [|assumption].
      apply Hs1 in Hlt. exfalso. apply (Qlt_not_le _ _ Hlt H).
  - apply bool_eq_iff. rewrite Z.ltb_lt, JsFacts.ltb_spec.
    split; intros H.
    + apply Hs2 in H. assumption.
    + apply Hs2. assumption.
Qed.

(** C1, as amended.  On a track of fewer than [2^31] spans that follow one
    another without overlap, the indices [drawSpanTrack] goes through are
    exactly those of the spans that end at or after the first needle,
    [viewMin - processOffsetMs], and begin strictly before the second,
    [viewMax - processOffsetMs], the needles being the doubles the program
    computes; and [drawSpanTrack] is the loop body run over these indices,
    in ascending order and each once.  A span that begins on the second
    needle is left out. *)
Theorem drawSpanTrack_visits_spans_in_view
    (this : Drawer.t) (track : SpanTrack) (tc : TimelineTrackContext) :
  nonOverlapping track ->
  (Z.of_nat (length (spans track)) < 2 ^ 31)%Z ->
  visitedSpans this track tc
  = Some (List.filter (spanAt track (inView this tc)) (allIndices track)) /\
  forall (measureText : string -> string -> Canvas.TextMetrics)
         (spanPixelHeight : Q) (formatExecutionTime : Q -> string)
         (trackIndex : Z) (c : Canvas.t),
    ctx this = Some c ->
    drawSpanTrack measureText spanPixelHeight formatExecutionTime
      this trackIndex track tc
    = match forEachIndex
              (drawSpan measureText spanPixelHeight formatExecutionTime
                 this trackIndex track tc
                 (characterWidthOf measureText c) (characterHeightOf measureText c))
              (List.filter (spanAt track (inView this tc)) (allIndices track)) c with
      | Normal c' => Normal (withCtx this c')
      | Throw c' => Throw (withCtx this c')
      end.
Proof.
  intros Hno Hlen.
  pose proof (visitedSpans_in_view this track tc Hno Hlen) as Hvis.
  split; [exact Hvis|].
  intros measureText spanPixelHeight formatExecutionTime trackIndex c Hctx.
  unfold drawSpanTrack. rewrite Hctx, Hvis. reflexivity.
Qed.

(** The scenario of the specification: five spans beginning at 0, 10, 20,
    30, 40 and ending at 5, 15, 25, 35, 45; the view [12, 32] with no
    process offset selects the spans at indices 1, 2, 3. *)
Lemma five_spans_view_12_32 :
  visitedSpans (idleDrawer 0) fiveSpans (viewOf 12 32) = Some [1; 2; 3]%Z.
Proof.
  destruct (drawSpanTrack_visits_spans_in_view (idleDrawer 0) fiveSpans (viewOf 12 32))
    as [E _].
  - split.
    + repeat constructor; discriminate.
    + repeat constructor.
  - vm_compute. reflexivity.
  - rewrite E. vm_compute. reflexivity.
Defined.

(** The claim as first stated fails at the edge of the view: with spans
    [0, 5] and [10, 15] and the view [3, 10], the second span meets the view
    in the point 10 and is not gone through. *)
Lemma touching_span_not_visited :
  ~ (forall this track tc,
       ascendingByBegin track -> tc_begin tc <= tc_end tc ->
       visitedSpans this track tc
       = Some (List.filter (spanAt track (intersectsView this tc)) (allIndices track))).
Proof.
  intros H.
  specialize (H (idleDrawer 0)
                {| spans := [plainSpan 0 5; plainSpan 10 15] |} (viewOf 3 10)).
  assert (Hv : visitedSpans (idleDrawer 0)
                 {| spans := [plainSpan 0 5; plainSpan 10 15] |} (viewOf 3 10)
               = Some [0%Z]) by reflexivity.
  rewrite Hv in H.
  assert (Hf : List.filter
                 (spanAt {| spans := [plainSpan 0 5; plainSpan 10 15] |}
                    (intersectsView (idleDrawer 0) (viewOf 3 10)))
                 (allIndices {| spans := [plainSpan 0 5; plainSpan 10 15] |})
               = [0; 1]%Z) by reflexivity.
  rewrite Hf in H.
  assert (Some [0%Z] = Some [0%Z; 1%Z]).
  { apply H.
    - repeat constructor; discriminate.
    - discriminate. }
  discriminate.
Qed.

(** The searches rely on the spans not overlapping: ascending begin times
    alone are not enough.  Here the first span covers the whole view and is
    not gone through. *)
Example enclosing_span_not_visited :
  visitedSpans (idleDrawer 0)
    {| spans := [plainSpan 0 100; plainSpan 10 15; plainSpan 20 25] |}
    (viewOf 50 60)
  = Some [].
Proof. reflexivity. Qed.

(** Nor may two spans touch: when one span ends where the next begins and
    the view begins there too, the search may settle on the second of them,
    and the first, which ends on the left edge, is not gone through. *)
Example touching_spans_at_left_edge :
  visitedSpans (idleDrawer 0)
    {| spans := [plainSpan 0 10; plainSpan 10 20; plainSpan 20 30] |}
    (viewOf 10 25)
  = Some [1; 2]%Z.
Proof. reflexivity. Qed.

(** With a process offset the spans are compared with the view shifted
    back. *)
Example five_spans_shifted :
  visitedSpans (idleDrawer 100) fiveSpans (viewOf 112 132) = Some [1; 2; 3]%Z.
Proof. vm_compute. reflexivity. Qed.

(** The shift is one subtraction on doubles, and its rounding decides at the
    edge.  With the offset 0.3 and the view beginning at 0.8 the needle is
    0.5: a span that ends at 0.5 is gone through, though its end shifted by
    the offset lies, exactly, before the view. *)
Example rounded_needle_keeps_span :
  visitedSpans (idleDrawer double_0_3) {| spans := [plainSpan 0 (1 # 2)] |}
    (viewOf double_0_8 2)
  = Some [0%Z] /\
  (1 # 2) + double_0_3 < double_0_8.
Proof. split; vm_compute; reflexivity. Qed.

(** Nor is the test the one on the shifted span computed in doubles: with
    the offset 0.2 and the view beginning at 0.30000000000000004 the needle
    is 0.10000000000000003, and a span that ends at 0.1 is not gone through,
    though 0.1 + 0.2 is 0.30000000000000004 in doubles. *)
Example shifted_sum_is_not_the_test :
  visitedSpans (idleDrawer double_0_2) {| spans := [plainSpan 0 double_0_1] |}
    (viewOf double_0_30000000000000004 2)
  = Some [] /\
  Js.toDouble (double_0_1 + double_0_2) == double_0_30000000000000004.
Proof. split; vm_compute; reflexivity. Qed.

End VisibilityFacts.

(** ** What [drawSpanTrack] paints for one span *)

Module SpanDrawingFacts.

Import Canvas Drawer.
Local Open Scope Q_scope.
Import SpanDrawing.

Lemma forEachIndex_app {A : Type} (body : Z -> A -> Completion A)
    (l1 l2 : list Z) : forall a,
  forEachIndex body (l1 ++ l2) a
  = match forEachIndex body l1 a with
    | Normal a' => forEachIndex body l2 a'
    | Throw a' => Throw a'
    end.
Proof.
  induction l1 as [|i l1 IH]; intros a; simpl; [reflexivity|].
  destruct (body i a); [apply IH|reflexivity].
Qed.

Section Facts.
Variable measureText : string -> string -> TextMetrics.
Variable spanPixelHeight : Q.
Variable formatExecutionTime : Q -> string.
Local Abbreviation body this trackIndex track tc cw ch :=
  (drawSpan measureText spanPixelHeight formatExecutionTime
     this trackIndex track tc cw ch).

(** C9.  A span whose pixel width [endPixels - beginPixels] is below 0.1
    leaves the canvas as it was (no rectangle, no marker, no caption, not
    even a change of [globalAlpha]) and the loop carries on with the next
    span: the loop over a range of indices behaves as over the range
    without that span. *)
Theorem subpixel_span_is_skipped
    (this : Drawer.t) (trackIndex : Z) (track : SpanTrack)
    (tc : TimelineTrackContext) (cw ch : Q) (i : Z) (span : Span) :
  BinarySearch.at_index (spans track) i = Some span ->
  callWidthOf this tc span < 1 # 10 ->
  (forall c, body this trackIndex track tc cw ch i c = Normal c) /\
  (forall before after c,
     forEachIndex (body this trackIndex track tc cw ch) (before ++ i :: after) c
     = forEachIndex (body this trackIndex track tc cw ch) (before ++ after) c).
Proof.
  intros Hspan Hw.
  assert (Hskip : forall c, body this trackIndex track tc cw ch i c = Normal c).
  { intros c. unfold drawSpan. rewrite Hspan. cbv zeta.
    apply JsFacts.ltb_spec in Hw. rewrite Hw. reflexivity. }
  split; [exact Hskip|].
  intros before after c. rewrite !forEachIndex_app.
  destruct (forEachIndex _ before c) as [c'|c']; [|reflexivity].
  simpl. rewrite Hskip. reflexivity.
Qed.

(** C10.  For a span with [scopeHash] 0 the loop body paints one rectangle
    in the colour of the track index, under the span's alpha, and nothing
    else; the result does not depend on the scope table (none is looked up,
    so nothing can throw), on the search term, or on the character metrics
    (no caption is written, whatever the width).  A span narrower than 0.1
    pixel is not painted at all. *)
Theorem unscoped_span_draws_plain_rectangle
    (this : Drawer.t) (trackIndex : Z) (track : SpanTrack)
    (tc : TimelineTrackContext) (cw ch : Q) (i : Z) (span : Span) (c : Canvas.t) :
  BinarySearch.at_index (spans track) i = Some span ->
  scopeHash span = 0%Z ->
  body this trackIndex track tc cw ch i c
  = Normal
      (if Js.ltb (callWidthOf this tc span) (1 # 10) then c
       else
         {| fillStyle := getIndexColor trackIndex;
            font := font c;
            globalAlpha := 1;
            saved := saved c;
            ops := ops c ++
                   [FillRect (getIndexColor trackIndex) (alpha span / 255)
                      (beginPixelsOf this tc span)
                      (offsetYOf spanPixelHeight trackIndex)
                      (callWidthOf this tc span) spanPixelHeight] |}).
Proof.
  intros Hspan Hzero. unfold drawSpan. rewrite Hspan. cbv zeta.
  destruct (Js.ltb (callWidthOf this tc span) (1 # 10)); [reflexivity|].
  rewrite Hzero. reflexivity.
Qed.

(** C3, as amended.  When the loop reaches a span that is wide enough to be
    painted and whose non-zero [scopeHash] has no entry in the scope table,
    [drawSpanTrack] throws: what the earlier spans painted stays, nothing is
    painted for this span (only [globalAlpha] has been set) and the later
    spans are not drawn. *)
Theorem missing_scope_aborts_draw
    (this : Drawer.t) (trackIndex : Z) (track : SpanTrack)
    (tc : TimelineTrackContext) (c c1 : Canvas.t)
    (before after : list Z) (i : Z) (span : Span) :
  ctx this = Some c ->
  visitedSpans this track tc = Some (before ++ i :: after) ->
  forEachIndex
    (body this trackIndex track tc
       (characterWidthOf measureText c) (characterHeightOf measureText c))
    before c = Normal c1 ->
  BinarySearch.at_index (spans track) i = Some span ->
  1 # 10 <= callWidthOf this tc span ->
  scopeHash span <> 0%Z ->
  scopes this !! scopeHash span = None ->
  drawSpanTrack measureText spanPixelHeight formatExecutionTime
    this trackIndex track tc
  = Throw (withCtx this (setGlobalAlpha (alpha span / 255) c1)).
Proof.
  intros Hctx Hvis Hbefore Hspan Hw Hhash Hnone.
  unfold drawSpanTrack. rewrite Hctx, Hvis. cbv zeta.
  rewrite forEachIndex_app, Hbefore. cbn [forEachIndex].
  unfold drawSpan at 1. rewrite Hspan. cbv zeta.
  apply JsFacts.ltb_false in Hw. rewrite Hw.
  apply Z.eqb_neq in Hhash. rewrite Hhash, Hnone. reflexivity.
Qed.

End Facts.

(** On [unknownScopeTrack] with an empty scope table the draw is aborted at
    the first span: it throws, and no rectangle at all has been painted,
    neither for the span of the unknown scope nor for the one after it. *)
Lemma unknown_scope_throws :
  let r := drawSpanTrack fixedPitch 20 noDuration
             (drawerWith blankCanvas ∅) 0 unknownScopeTrack
             (Visibility.viewOf 0 100) in
  isThrow r = true /\
  option_map ops (ctx (completionState r)) = Some [].
Proof. split; reflexivity. Qed.

(** On [lateUnknownScopeTrack] the rectangle of the first span is painted
    and stays; the draw is aborted at the second span, with nothing painted
    for it nor for the third. *)
Lemma missing_scope_aborts_draw_witness :
  drawSpanTrack fixedPitch 20 noDuration
    (drawerWith blankCanvas ∅) 0 lateUnknownScopeTrack (Visibility.viewOf 0 100)
  = Throw (withCtx (drawerWith blankCanvas ∅)
             (setGlobalAlpha (255 / 255)
                {| fillStyle := "#fea446"; font := "15px arial"; globalAlpha := 1;
                   saved := [];
                   ops := [FillRect "#fea446" (255 / 255)
                             (beginPixelsOf (drawerWith blankCanvas ∅)
                                (Visibility.viewOf 0 100)
                                {| beginMs := 0; endMs := 40; scopeHash := 0;
                                   alpha := 255 |})
                             (offsetYOf 20 0)
                             (callWidthOf (drawerWith blankCanvas ∅)
                                (Visibility.viewOf 0 100)
                                {| beginMs := 0; endMs := 40; scopeHash := 0;
                                   alpha := 255 |})
                             20] |})).
Proof.
  apply (missing_scope_aborts_draw fixedPitch 20 noDuration
           (drawerWith blankCanvas ∅) 0 lateUnknownScopeTrack
           (Visibility.viewOf 0 100) blankCanvas _
           [0%Z] [2%Z] 1%Z
           {| beginMs := 50; endMs := 90; scopeHash := 7; alpha := 255 |}).
  - reflexivity.
  - vm_compute. reflexivity.
  - reflexivity.
  - reflexivity.
  - vm_compute. discriminate.
  - discriminate.
  - reflexivity.
Defined.

Lemma subpixel_span_is_skipped_witness :
  forEachIndex
    (drawSpan fixedPitch 20 noDuration (drawerWith blankCanvas ∅) 0
       {| spans := [ {| beginMs := 0; endMs := 1 # 20; scopeHash := 7; alpha := 255 |};
                     {| beginMs := 50; endMs := 90; scopeHash := 0; alpha := 255 |} ] |}
       (Visibility.viewOf 0 100) 8 11)
    ([] ++ 0%Z :: [1%Z]) blankCanvas
  = forEachIndex
      (drawSpan fixedPitch 20 noDuration (drawerWith blankCanvas ∅) 0
         {| spans := [ {| beginMs := 0; endMs := 1 # 20; scopeHash := 7; alpha := 255 |};
                       {| beginMs := 50; endMs := 90; scopeHash := 0; alpha := 255 |} ] |}
         (Visibility.viewOf 0 100) 8 11)
      ([] ++ [1%Z]) blankCanvas.
Proof.
  apply (subpixel_span_is_skipped fixedPitch 20 noDuration
           (drawerWith blankCanvas ∅) 0 _ (Visibility.viewOf 0 100) 8 11 0%Z
           {| beginMs := 0; endMs := 1 # 20; scopeHash := 7; alpha := 255 |}).
  - reflexivity.
  - vm_compute. reflexivity.
Defined.

Lemma unscoped_span_draws_plain_rectangle_witness :
  drawSpan fixedPitch 20 noDuration (drawerWith blankCanvas ∅) 0
    unknownScopeTrack
    {| tc_begin := 0; tc_end := 100; msToPixelsFactor := 1; search := "main" |}
    8 11 1%Z blankCanvas
  = Normal
      {| fillStyle := "#fea446"; font := "15px arial"; globalAlpha := 1;
         saved := [];
         ops := [FillRect "#fea446" (255 / 255)
                   (beginPixelsOf (drawerWith blankCanvas ∅)
                      {| tc_begin := 0; tc_end := 100; msToPixelsFactor := 1;
                         search := "main" |}
                      {| beginMs := 50; endMs := 90; scopeHash := 0; alpha := 255 |})
                   (offsetYOf 20 0)
                   (callWidthOf (drawerWith blankCanvas ∅)
                      {| tc_begin := 0; tc_end := 100; msToPixelsFactor := 1;
                         search := "main" |}
                      {| beginMs := 50; endMs := 90; scopeHash := 0; alpha := 255 |})
                   20] |}.
Proof.
  apply (unscoped_span_draws_plain_rectangle fixedPitch 20 noDuration
           (drawerWith blankCanvas ∅) 0 unknownScopeTrack
           {| tc_begin := 0; tc_end := 100; msToPixelsFactor := 1; search := "main" |}
           8 11 1%Z
           {| beginMs := 50; endMs := 90; scopeHash := 0; alpha := 255 |}
           blankCanvas); reflexivity.
Defined.

End SpanDrawingFacts.

(** ** Captions under a pixel budget *)

Module CaptionsFacts.

Import Canvas Drawer.
Local Open Scope Q_scope.
Import Captions.

Lemma floor_at_least (x : Q) (n : Z) : inject_Z n <= x -> (n <= Qfloor x)%Z.
Proof.
  intros H. rewrite <- (Qfloor_Z n). apply Qfloor_resp_le. assumption.
Qed.





Section Budget.
Variable measureText : string -> string -> TextMetrics.
Variable formatExecutionTime : Q -> string.



End Budget.



(** The same through [drawSpanTrack], which writes the caption of a span
    wider than five characters: a span of 48 pixels of the scope
    ["ns::inner::leaf"] gets ["ns"] and ["::in"]. *)
Example cut_caption_on_the_track :
  option_map (fun c => textsOf (ops c))
    (ctx (completionState
            (drawSpanTrack SpanDrawing.fixedPitch 20 SpanDrawing.noDuration
               (SpanDrawing.drawerWith SpanDrawing.blankCanvas SpanDrawing.qualifiedScopes)
               0 SpanDrawing.qualifiedTrack (Visibility.viewOf 0 100))))
  = Some ["ns"; "::in"]%string.
Proof. vm_compute. reflexivity. Qed.

(** With room for one more character the next item, which is not marked
    skippable, is cut to the budget: a width of 24 pixels paints ["ns"] and
    then [":"]. *)
Example nonskippable_item_is_cut :
  textsOf
    (ops (writeText SpanDrawing.fixedPitch SpanDrawing.blankCanvas 24 8
            (getCaptions SpanDrawing.noDuration "ns::inner::leaf" 0 40) 5 30))
  = ["ns"; ":"]%string.
Proof. reflexivity. Qed.

(** The duration item is marked skippable: when it does not fit it is left
    out whole. *)
Example skippable_item_is_left_out :
  textsOf
    (ops (writeText SpanDrawing.fixedPitch SpanDrawing.blankCanvas (8 * 17) 8
            (getCaptions SpanDrawing.noDuration "ns::inner::leaf" 0 40) 5 30))
  = ["ns"; "::inner"; "::leaf"]%string.
Proof. reflexivity. Qed.

End CaptionsFacts.

(** ** Registration into a tracker *)

Module TrackerFacts.

Import Tracker.

Lemma covers_nil (x : Z) : covers [] x <-> False.
Proof. unfold covers. rewrite Exists_nil. reflexivity. Qed.

Lemma covers_cons (a b : Z) (rest : list (Z * Z)) (x : Z) :
  covers ((a, b) :: rest) x <-> (2 * a <= x <= 2 * b) \/ covers rest x.
Proof. unfold covers. rewrite Exists_cons. reflexivity. Qed.

Lemma covers_above (m : Z) (cov : list (Z * Z)) (x : Z) :
  Forall (fun p => m < fst p) cov -> covers cov x -> 2 * m + 2 <= x.
Proof.
  intros Hall Hc. unfold covers in Hc.
  apply List.Exists_exists in Hc as ([a b] & Hin & Hx).
  pose proof (proj1 (List.Forall_forall _ _) Hall (a, b) Hin) as Hm.
  simpl in *. lia.
Qed.

Lemma mergeInto_above (m : Z) (cov : list (Z * Z)) : forall lo hi,
  m < lo -> Forall (fun p => m < fst p) cov ->
  Forall (fun p => m < fst p) (mergeInto lo hi cov).
Proof.
  induction cov as [|[a b] rest IH]; intros lo hi Hlo Hall; simpl.
  - repeat constructor. assumption.
  - pose proof (Forall_inv Hall) as Ha. pose proof (Forall_inv_tail Hall) as Hrest.
    simpl in Ha.
    destruct (hi <? a); [|destruct (b <? lo)].
    + repeat constructor; assumption.
    + constructor; [assumption|]. apply IH; assumption.
    + apply IH; [lia|assumption].
Qed.

Lemma Forall_above_weaken (m m' : Z) (cov : list (Z * Z)) :
  m' <= m -> Forall (fun p => m < fst p) cov -> Forall (fun p => m' < fst p) cov.
Proof.
  intros Hle Hall. eapply List.Forall_impl; [|exact Hall].
  intros p Hp. simpl in *. lia.
Qed.

Lemma mergeInto_disjointSorted (cov : list (Z * Z)) : forall lo hi,
  lo <= hi -> disjointSorted cov -> disjointSorted (mergeInto lo hi cov).
Proof.
  induction cov as [|[a b] rest IH]; intros lo hi Hle Hds; simpl.
  - repeat split; [assumption|constructor].
  - destruct Hds as (Hab & Habove & Hrest).
    destruct (hi <? a) eqn:E1; [apply Z.ltb_lt in E1|apply Z.ltb_ge in E1].
    + simpl. repeat split; try assumption.
      constructor; [simpl; assumption|].
      apply (Forall_above_weaken b); [lia|assumption].
    + destruct (b <? lo) eqn:E2; [apply Z.ltb_lt in E2|apply Z.ltb_ge in E2].
      * simpl. repeat split; try assumption.
        -- apply mergeInto_above; assumption.
        -- apply IH; assumption.
      * apply IH; [lia|assumption].
Qed.

Lemma mergeInto_covers (cov : list (Z * Z)) : forall lo hi x,
  lo <= hi -> disjointSorted cov ->
  (covers (mergeInto lo hi cov) x <-> (2 * lo <= x <= 2 * hi) \/ covers cov x).
Proof.
  induction cov as [|[a b] rest IH]; intros lo hi x Hle Hds; simpl.
  - rewrite covers_cons, covers_nil. reflexivity.
  - destruct Hds as (Hab & Habove & Hrest).
    destruct (hi <? a) eqn:E1; [apply Z.ltb_lt in E1|apply Z.ltb_ge in E1].
    + rewrite !covers_cons. reflexivity.
    + destruct (b <? lo) eqn:E2; [apply Z.ltb_lt in E2|apply Z.ltb_ge in E2].
      * rewrite !covers_cons, IH by assumption. tauto.
      * rewrite IH by (try assumption; lia). rewrite covers_cons.
        assert (Hhull : 2 * Z.min lo a <= x <= 2 * Z.max hi b
                        <-> (2 * lo <= x <= 2 * hi) \/ (2 * a <= x <= 2 * b)) by lia.
        rewrite Hhull. tauto.
Qed.

(** Two well-formed interval lists that cover the same points are the same
    list. *)
Lemma disjointSorted_ext (c1 : list (Z * Z)) : forall c2,
  disjointSorted c1 -> disjointSorted c2 ->
  (forall x, covers c1 x <-> covers c2 x) -> c1 = c2.
Proof.
  induction c1 as [|[a1 b1] t1 IH]; intros [|[a2 b2] t2] H1 H2 Hext.
  - reflexivity.
  - exfalso. destruct H2 as (Hab & _). apply (covers_nil (2 * a2)).
    apply Hext. rewrite covers_cons. lia.
  - exfalso. destruct H1 as (Hab & _). apply (covers_nil (2 * a1)).
    apply Hext. rewrite covers_cons. lia.
  - destruct H1 as (Hab1 & Hup1 & Ht1). destruct H2 as (Hab2 & Hup2 & Ht2).
    assert (Ha : a1 = a2).
    { assert (a2 <= a1).
      { assert (Hc : covers ((a2, b2) :: t2) (2 * a1))
          by (apply Hext; rewrite covers_cons; lia).
        rewrite covers_cons in Hc. destruct Hc as [Hc|Hc]; [lia|].
        pose proof (covers_above b2 t2 _ Hup2 Hc). lia. }
      assert (a1 <= a2).
      { assert (Hc : covers ((a1, b1) :: t1) (2 * a2))
          by (apply Hext; rewrite covers_cons; lia).
        rewrite covers_cons in Hc. destruct Hc as [Hc|Hc]; [lia|].
        pose proof (covers_above b1 t1 _ Hup1 Hc). lia. }
      lia. }
    subst a2.
    assert (Hb : b1 = b2).
    { assert (~ b1 < b2).
      { intros Hlt.
        assert (Hc : covers ((a1, b1) :: t1) (2 * b1 + 1))
          by (apply Hext; rewrite covers_cons; lia).
        rewrite covers_cons in Hc. destruct Hc as [Hc|Hc]; [lia|].
        pose proof (covers_above b1 t1 _ Hup1 Hc). lia. }
      assert (~ b2 < b1).
      { intros Hlt.
        assert (Hc : covers ((a1, b2) :: t2) (2 * b2 + 1))
          by (apply Hext; rewrite covers_cons; lia).
        rewrite covers_cons in Hc. destruct Hc as [Hc|Hc]; [lia|].
        pose proof (covers_above b2 t2 _ Hup2 Hc). lia. }
      lia. }
    subst b2. f_equal. apply IH; try assumption.
    intros x. split; intros Hc.
    + pose proof (covers_above b1 t1 _ Hup1 Hc).
      assert (Hc' : covers ((a1, b1) :: t2) x)
        by (apply Hext; rewrite covers_cons; right; assumption).
      rewrite covers_cons in Hc'. destruct Hc' as [Hc'|Hc']; [lia|assumption].
    + pose proof (covers_above b1 t2 _ Hup2 Hc).
      assert (Hc' : covers ((a1, b1) :: t1) x)
        by (apply Hext; rewrite covers_cons; right; assumption).
      rewrite covers_cons in Hc'. destruct Hc' as [Hc'|Hc']; [lia|assumption].
Qed.

Lemma mergeInto_comm (cov : list (Z * Z)) (lo1 hi1 lo2 hi2 : Z) :
  disjointSorted cov -> lo1 <= hi1 -> lo2 <= hi2 ->
  mergeInto lo1 hi1 (mergeInto lo2 hi2 cov)
  = mergeInto lo2 hi2 (mergeInto lo1 hi1 cov).
Proof.
  intros Hds H1 H2.
  apply disjointSorted_ext.
  - apply mergeInto_disjointSorted; [assumption|].
    apply mergeInto_disjointSorted; assumption.
  - apply mergeInto_disjointSorted; [assumption|].
    apply mergeInto_disjointSorted; assumption.
  - intros x.
    rewrite !mergeInto_covers;
      try assumption; try (apply mergeInto_disjointSorted; assumption).
    tauto.
Qed.

Lemma coverageAt_disjointSorted (l : Z) (tr : t) :
  wellFormed tr -> disjointSorted (coverageAt l tr).
Proof.
  intros Hwf. unfold coverageAt.
  destruct (coverage tr !! l) as [cov|] eqn:E; simpl; [|exact I].
  exact (Hwf l cov E).
Qed.

Lemma registerBlock_wellFormed (r : Registration) (tr : t) :
  wellFormed tr -> validRange r -> wellFormed (registerBlock r tr).
Proof.
  intros Hwf Hr l cov Hl. unfold registerBlock in Hl. simpl in Hl.
  destruct (decide (lod r = l)) as [<-|Hne].
  - rewrite lookup_insert_eq in Hl. injection Hl as <-.
    apply mergeInto_disjointSorted; [exact Hr|].
    apply coverageAt_disjointSorted. assumption.
  - rewrite lookup_insert_ne in Hl by assumption. exact (Hwf l cov Hl).
Qed.

Lemma registerAll_wellFormed (rs : list Registration) : forall tr,
  wellFormed tr -> Forall validRange rs -> wellFormed (registerAll rs tr).
Proof.
  induction rs as [|r rs IH]; intros tr Hwf Hall; simpl; [assumption|].
  apply IH.
  - apply registerBlock_wellFormed; [assumption|exact (Forall_inv Hall)].
  - exact (Forall_inv_tail Hall).
Qed.

Lemma registerBlock_comm (r1 r2 : Registration) (tr : t) :
  wellFormed tr -> validRange r1 -> validRange r2 ->
  registerBlock r1 (registerBlock r2 tr) = registerBlock r2 (registerBlock r1 tr).
Proof.
  intros Hwf Hv1 Hv2. unfold registerBlock, coverageAt. simpl. f_equal.
  - rewrite !(assoc_L (∪)). f_equal. apply (comm_L (∪)).
  - destruct (decide (lod r1 = lod r2)) as [Heq|Hne].
    + rewrite Heq, !lookup_insert_eq, !insert_insert_eq. simpl. f_equal.
      apply mergeInto_comm; try assumption.
      apply coverageAt_disjointSorted. assumption.
    + rewrite !lookup_insert_ne by congruence.
      apply insert_insert_ne. congruence.
Qed.

(** C8.  Block registrations into one tracker commute: whatever the order
    in which a collection of blocks (each with a time range that begins no
    later than it ends) is registered, the tracker ends in the same state,
    the coverage of every level of detail and the set of materialized
    blocks alike. *)
Theorem registration_order_irrelevant
    (tr : t) (rs1 rs2 : list Registration) :
  wellFormed tr ->
  Forall validRange rs1 ->
  Permutation rs1 rs2 ->
  registerAll rs1 tr = registerAll rs2 tr.
Proof.
  intros Hwf Hall Hperm. revert tr Hwf Hall.
  induction Hperm as [|r l l' Hp IH|r1 r2 l|l l' l'' Hp1 IH1 Hp2 IH2];
    intros tr Hwf Hall.
  - reflexivity.
  - simpl. apply IH.
    + apply registerBlock_wellFormed; [assumption|exact (Forall_inv Hall)].
    + exact (Forall_inv_tail Hall).
  - simpl. f_equal.
    pose proof (Forall_inv Hall) as Hr2.
    pose proof (Forall_inv (Forall_inv_tail Hall)) as Hr1.
    apply registerBlock_comm; assumption.
  - rewrite IH1 by assumption. apply IH2; [assumption|].
    eapply Permutation_Forall; eassumption.
Qed.

Lemma empty_wellFormed : wellFormed empty.
Proof. intros l cov H. unfold empty in H. simpl in H. rewrite lookup_empty in H. discriminate. Qed.

(** Three blocks of one level of detail and one of another, in two orders. *)
Lemma registration_order_irrelevant_witness :
  registerAll [sampleBlock "a" 0 10 0; sampleBlock "b" 20 30 0;
               sampleBlock "c" 10 20 0; sampleBlock "d" 5 6 1] empty
  = registerAll [sampleBlock "d" 5 6 1; sampleBlock "c" 10 20 0;
                 sampleBlock "b" 20 30 0; sampleBlock "a" 0 10 0] empty.
Proof.
  apply registration_order_irrelevant.
  - exact empty_wellFormed.
  - repeat constructor; unfold validRange; simpl; lia.
  - apply Permutation_rev.
Defined.

(** Ranges that meet are stored as their union, ranges apart stay apart. *)
Example coverage_is_union :
  coverageAt 0 (registerAll [sampleBlock "a" 0 10 0; sampleBlock "b" 40 50 0;
                             sampleBlock "c" 5 20 0] empty)
  = [(0, 20); (40, 50)].
Proof. reflexivity. Qed.

End TrackerFacts.

(** ** The gate and the fetches of the streamer *)

Module StreamerFacts.

Import Streamer.

Section WithApi.
Context {api : MetricApi}.

Lemma new_invariant (pid : string) : gateInvariant (new pid).
Proof.
  unfold gateInvariant, holders, queued, capacity. simpl.
  repeat split; try lia. intros H. contradiction.
Qed.

Lemma launch_invariant (k : Task) (s : t) :
  gateInvariant s -> gateInvariant (launch k s).
Proof.
  unfold gateInvariant, holders, queued, capacity, launch, acquire.
  intros (H0 & Hsum & Hq).
  destruct (0 <? permits (semaphore s)) eqn:E;
    [apply Z.ltb_lt in E|apply Z.ltb_ge in E]; simpl.
  - rewrite length_app. simpl. repeat split; try lia.
    intros Hne. specialize (Hq Hne). lia.
  - repeat split; try lia.
Qed.

Lemma launchAll_invariant (ks : list Task) : forall s,
  gateInvariant s -> gateInvariant (launchAll ks s).
Proof.
  induction ks as [|k ks IH]; intros s Hinv; simpl; [assumption|].
  apply IH. apply launch_invariant. assumption.
Qed.

Lemma removeNth_length {A : Type} (l : list A) : forall n x,
  nth_error l n = Some x -> S (length (removeNth n l)) = length l.
Proof.
  induction l as [|y l IH]; intros [|n] x H; simpl in *; try discriminate.
  - reflexivity.
  - f_equal. eapply IH. eassumption.
Qed.

Lemma settle_invariant (n : nat) (o : Outcome) (s : t) :
  gateInvariant s -> gateInvariant (settle n o s).
Proof.
  unfold settle. intros Hinv.
  destruct (nth_error (inFlight s) n) as [f|] eqn:En; [|assumption].
  pose proof (removeNth_length _ _ _ En) as Hlen.
  destruct Hinv as (H0 & Hsum & Hq).
  unfold gateInvariant, holders, queued, capacity, release, signal in *. simpl.
  destruct (promiseResolverQueue (semaphore s)) as [|k rest] eqn:Eq; simpl.
  - repeat split; try lia. intros H. contradiction.
  - rewrite length_app. simpl.
    assert (permits (semaphore s) = 0) by (apply Hq; discriminate).
    repeat split; lia.
Qed.

Lemma fetchSelectedMetrics_invariant (lod : Z) (s : t) :
  gateInvariant s -> gateInvariant (fetchSelectedMetrics lod s).
Proof.
  intros Hinv. unfold fetchSelectedMetrics.
  destruct (Nat.eqb _ 0); [assumption|].
  apply launchAll_invariant. assumption.
Qed.

Lemma step_invariant (s : t) (e : Event) :
  gateInvariant s -> gateInvariant (step s e).
Proof.
  intros Hinv. destruct e as [ms|lod lo hi|n o]; simpl.
  - exact Hinv.
  - unfold tick. apply fetchSelectedMetrics_invariant. exact Hinv.
  - apply settle_invariant. exact Hinv.
Qed.

Lemma run_invariant (events : list Event) : forall s,
  gateInvariant s -> gateInvariant (run events s).
Proof.
  induction events as [|e events IH]; intros s Hinv; simpl; [assumption|].
  apply IH. apply step_invariant. assumption.
Qed.

Lemma invariant_bound (s : t) : gateInvariant s -> holders s <= capacity.
Proof. intros (H0 & Hsum & _). lia. Qed.

(** What settling a fetch does to the tasks, the gate and the store. *)
Lemma settle_effect (n : nat) (f : Fetch) (o : Outcome) (s : t) :
  nth_error (inFlight s) n = Some f ->
  settled (settle n o s)
    = settled s ++ [(task f, if requested f then o else NoData)] /\
  metricStore (settle n o s)
    = match (if requested f then o else NoData) with
      | Data d =>
          registerBlock d (blockId (block (task f))) (metricName (task f))
            (metricStore s)
      | NoData | Failed => metricStore s
      end /\
  match queued s with
  | [] =>
      inFlight (settle n o s) = removeNth n (inFlight s) /\
      queued (settle n o s) = [] /\
      permits (semaphore (settle n o s)) = permits (semaphore s) + 1 /\
      requests (settle n o s) = requests s
  | k :: rest =>
      inFlight (settle n o s)
        = removeNth n (inFlight s) ++ [{| task := k; requested := client s |}] /\
      queued (settle n o s) = rest /\
      permits (semaphore (settle n o s)) = permits (semaphore s)
  end.
Proof.
  intros Hn. unfold settle, queued, release, signal. rewrite Hn. simpl.
  destruct (promiseResolverQueue (semaphore s)) as [|k rest]; simpl;
    repeat split; reflexivity.
Qed.

Lemma In_removeNth {A : Type} (l : list A) : forall n x,
  In x (removeNth n l) -> In x l.
Proof.
  induction l as [|y l IH]; intros [|n] x H; simpl in *; try contradiction.
  - right. assumption.
  - destruct H as [H|H]; [left; assumption|right; eapply IH; eassumption].
Qed.

(** Once the fetches in flight are let to end, whatever their outcomes,
    no task is left in flight or queued, and every task that was in flight,
    queued or already settled is settled. *)
Lemma drain_completes (outcome : Task -> Outcome) (fuel : nat) : forall s,
  gateInvariant s ->
  (length (inFlight s) + length (queued s) <= fuel)%nat ->
  inFlight (drain outcome fuel s) = [] /\
  queued (drain outcome fuel s) = [] /\
  forall k,
    In k (map task (inFlight s)) \/ In k (queued s) \/ In k (map fst (settled s)) ->
    In k (map fst (settled (drain outcome fuel s))).
Proof.
  induction fuel as [|fuel IH]; intros s Hinv Hfuel.
  - simpl. destruct (inFlight s) as [|f fs] eqn:Ef; [|simpl in Hfuel; lia].
    destruct (queued s) as [|q qs] eqn:Eq; [|simpl in Hfuel; lia].
    repeat split; try assumption.
    intros k [H|[H|H]]; [contradiction|contradiction|assumption].
  - simpl. destruct (inFlight s) as [|f fs] eqn:Ef.
    + assert (Hq : queued s = []).
      { destruct Hinv as (H0 & Hsum & Hq). unfold holders, capacity in Hsum.
        rewrite Ef in Hsum. simpl in Hsum.
        destruct (queued s) as [|q qs] eqn:Eq; [reflexivity|].
        assert (permits (semaphore s) = 0) by (apply Hq; discriminate). lia. }
      repeat split; try assumption.
      intros k [H|[H|H]]; [contradiction|rewrite Hq in H; contradiction|assumption].
    + assert (Hn : nth_error (inFlight s) 0 = Some f) by (rewrite Ef; reflexivity).
      destruct (settle_effect 0 f (outcome (task f)) s Hn) as (Hset & _ & Hgate).
      pose proof (settle_invariant 0 (outcome (task f)) s Hinv) as Hinv'.
      set (s1 := settle 0 (outcome (task f)) s) in *.
      rewrite Ef in Hgate. simpl in Hgate.
      destruct (queued s) as [|q qs] eqn:Eq.
      * destruct Hgate as (Hfl & Hqu & _).
        destruct (IH s1 Hinv') as (Hi & Hq' & Hall).
        { rewrite Hfl, Hqu. simpl in *. lia. }
        repeat split; try assumption.
        intros k Hk. apply Hall. rewrite Hfl, Hqu, Hset, map_app, in_app_iff.
        simpl in *.
        destruct Hk as [[Hk|Hk]|[Hk|Hk]]; try contradiction; auto.
      * destruct Hgate as (Hfl & Hqu & _).
        destruct (IH s1 Hinv') as (Hi & Hq' & Hall).
        { rewrite Hfl, Hqu, length_app. simpl in *. lia. }
        repeat split; try assumption.
        intros k Hk. apply Hall.
        rewrite Hfl, Hqu, Hset, !map_app, !in_app_iff. simpl in *.
        destruct Hk as [[Hk|Hk]|[[Hk|Hk]|Hk]]; auto.
Qed.

Lemma no_missing_blocks (lod : Z) (s : t) :
  Forall (fun m => requestMissingBlocks m (currentMinMs s) (currentMaxMs s) lod = [])
         (List.filter canBeDisplayed (metricStore s)) ->
  flat_map snd (missingBlocks lod s) = [].
Proof.
  unfold missingBlocks.
  induction (List.filter canBeDisplayed (metricStore s)) as [|m ms IH];
    intros Hall; simpl; [reflexivity|].
  rewrite (Forall_inv Hall). simpl. apply IH. exact (Forall_inv_tail Hall).
Qed.

(** C4.  In every state a streamer reaches, whatever the ticks, the
    initializations and the order and outcomes of the fetches, and after
    starting the callback for any further sequence of blocks (as many as one
    likes), at most 8 tasks hold a unit of the semaphore; so in particular
    after each of the callbacks that [fetchSelectedMetrics] starts, and
    when it returns. *)
Theorem gate_never_exceeds_capacity
    (pid : string) (events : list Event) (lod : Z) (ks : list Task) (n : nat) :
  holders (launchAll ks (run events (new pid))) <= 8 /\
  holders (launchAll
             (firstn n (tasksOf lod (missingBlocks lod (run events (new pid)))))
             (run events (new pid))) <= 8 /\
  holders (fetchSelectedMetrics lod (run events (new pid))) <= 8.
Proof.
  pose proof (run_invariant events (new pid) (new_invariant pid)) as Hinv.
  repeat split.
  - apply (invariant_bound _ (launchAll_invariant ks _ Hinv)).
  - apply (invariant_bound _ (launchAll_invariant _ _ Hinv)).
  - apply (invariant_bound _ (fetchSelectedMetrics_invariant lod _ Hinv)).
Qed.

(** C5.  When the fetch of a task in flight ends in error, in any state a
    streamer reaches: the store is left as it was ([registerBlock] is not
    called); the task is settled as failed; its unit is released, going to
    the first queued task if there is one and back to the free units
    otherwise; and the other tasks are not held up: however their own
    fetches end, letting them end leaves no task in flight or queued and
    every sibling, in flight or queued, settled. *)
Theorem failed_fetch_is_isolated
    (pid : string) (events : list Event) (n : nat) (f : Fetch) :
  nth_error (inFlight (run events (new pid))) n = Some f ->
  requested f = true ->
  let s := run events (new pid) in
  let s1 := settle n Failed s in
  metricStore s1 = metricStore s /\
  settled s1 = settled s ++ [(task f, Failed)] /\
  match queued s with
  | [] =>
      inFlight s1 = removeNth n (inFlight s) /\
      queued s1 = [] /\
      permits (semaphore s1) = permits (semaphore s) + 1
  | k :: rest =>
      inFlight s1
        = removeNth n (inFlight s) ++ [{| task := k; requested := client s |}] /\
      queued s1 = rest /\
      permits (semaphore s1) = permits (semaphore s)
  end /\
  forall outcome,
    inFlight (drainAll outcome s1) = [] /\
    queued (drainAll outcome s1) = [] /\
    forall k,
      In k (map task (removeNth n (inFlight s))) \/ In k (queued s) ->
      In k (map fst (settled (drainAll outcome s1))).
Proof.
  intros Hn Hreq s s1.
  pose proof (run_invariant events (new pid) (new_invariant pid)) as Hinv.
  fold s in Hinv, Hn.
  destruct (settle_effect n f Failed s Hn) as (Hset & Hstore & Hgate).
  rewrite Hreq in Hset, Hstore. fold s1 in Hset, Hstore, Hgate.
  split; [exact Hstore|]. split; [exact Hset|].
  split.
  - destruct (queued s); intuition.
  - intros outcome.
    pose proof (settle_invariant n Failed s Hinv) as Hinv1. fold s1 in Hinv1.
    destruct (drain_completes outcome
                (length (inFlight s1) + length (queued s1)) s1 Hinv1 (le_n _))
      as (Hi & Hq & Hall).
    unfold drainAll. repeat split; try assumption.
    intros k Hk. apply Hall.
    destruct (queued s) as [|q qs].
    + destruct Hgate as (Hfl & _). rewrite Hfl.
      destruct Hk as [Hk|Hk]; [left; assumption|contradiction].
    + destruct Hgate as (Hfl & Hqu & _). rewrite Hfl, Hqu, map_app, in_app_iff.
      simpl. destruct Hk as [Hk|[Hk|Hk]]; auto.
Qed.

(** C6.  When [requestMissingBlocks] yields no block for any metric that can
    be displayed, [fetchSelectedMetrics] returns the streamer as it was: no
    request is sent, no unit of the semaphore is taken, no task is started,
    and the store is the same. *)
Theorem nothing_missing_is_noop (lod : Z) (s : t) :
  Forall (fun m => requestMissingBlocks m (currentMinMs s) (currentMaxMs s) lod = [])
         (List.filter canBeDisplayed (metricStore s)) ->
  fetchSelectedMetrics lod s = s.
Proof.
  intros Hall. unfold fetchSelectedMetrics.
  rewrite (no_missing_blocks lod s Hall). reflexivity.
Qed.

(** C7.  When the registry holds no metric once [initializeAsync] has
    registered what the manifests describe, the two reductions are over no
    argument: [currentMinMs] is [+Infinity] and [currentMaxMs] is
    [-Infinity], a pair with the minimum above the maximum, and neither is
    NaN. *)
Theorem empty_registry_global_range
    (blockManifests : list (option BlockManifest)) (s : t) :
  metricStore (initializeAsync blockManifests s) = [] ->
  currentMinMs (initializeAsync blockManifests s) = Number.PosInf /\
  currentMaxMs (initializeAsync blockManifests s) = Number.NegInf /\
  Number.ltb (currentMaxMs (initializeAsync blockManifests s))
             (currentMinMs (initializeAsync blockManifests s)) = true /\
  Number.isNaN (currentMinMs (initializeAsync blockManifests s)) = false /\
  Number.isNaN (currentMaxMs (initializeAsync blockManifests s)) = false.
Proof.
  unfold initializeAsync. simpl. intros ->. simpl. repeat split; reflexivity.
Qed.

End WithApi.

End StreamerFacts.

(** ** The streamer on a registry of ten blocks *)

Module RegistryFacts.

Import Streamer StreamerFacts.
Import Registry.

Example saturated_gate :
  holders (run saturated (new "p")) = 8 /\
  map (fun k => blockId (block k)) (queued (run saturated (new "p"))) = ["i"; "j"]%string /\
  length (requests (run saturated (new "p"))) = 8%nat.
Proof. repeat split; vm_compute; reflexivity. Qed.

Lemma failed_fetch_is_isolated_witness :
  metricStore (settle 3 Failed (run saturated (new "p")))
  = metricStore (run saturated (new "p")) /\
  map (fun f => blockId (block (task f)))
      (inFlight (settle 3 Failed (run saturated (new "p"))))
  = ["a"; "b"; "c"; "e"; "f"; "g"; "h"; "i"]%string /\
  length (settled (drainAll (fun _ => NoData)
                     (settle 3 Failed (run saturated (new "p"))))) = 10%nat.
Proof.
  pose proof (failed_fetch_is_isolated "p" saturated 3
                {| task := {| metricName := "fps"; block := blockNamed 3; taskLod := 0 |};
                   requested := true |}
                eq_refl eq_refl) as H.
  cbv zeta in H. destruct H as (Hstore & _ & _ & _).
  split; [exact Hstore|].
  split; vm_compute; reflexivity.
Defined.

Lemma nothing_missing_is_noop_witness :
  fetchSelectedMetrics 0 (run loaded (new "p")) = run loaded (new "p").
Proof.
  apply nothing_missing_is_noop.
  vm_compute. repeat constructor.
Defined.

Lemma empty_registry_global_range_witness :
  currentMinMs (initializeAsync [] (new "p")) = Number.PosInf /\
  currentMaxMs (initializeAsync [] (new "p")) = Number.NegInf.
Proof.
  assert (Hempty : metricStore (initializeAsync [] (new "p")) = [])
    by reflexivity.
  destruct (empty_registry_global_range [] (new "p") Hempty) as (Hmin & Hmax & _).
  split; assumption.
Defined.

End RegistryFacts.

(** ** The searches of [drawSpanTrack] on any track *)

Module SearchRangeFacts.

Import BinarySearch.

Section AnyHaystack.
Context {A N : Type}.
Variable haystack : list A.
Variable needle : N.
Variable comparator : A -> N -> Z.

(** Whatever the comparator answers, the loop ends with an index of the
    haystack at which the comparator answers 0, or with the complement of a
    position between 0 and the length. *)
Lemma loop_in_range :
  Z.of_nat (length haystack) < 2 ^ 31 ->
  forall fuel low high,
    0 <= low -> high < Z.of_nat (length haystack) -> low <= high + 1 ->
    exists r,
      loop haystack needle comparator fuel low high = Some r /\
      0 <= insertionPoint r <= Z.of_nat (length haystack) /\
      (0 <= r ->
       exists x, at_index haystack r = Some x /\ comparator x needle = 0).
Proof.
  intros Hlen. induction fuel as [|fuel IH]; intros low high H0 Hhi Hle.
  - exists (Js.bitNot low). split.
    + simpl. destruct (high <? low); reflexivity.
    + unfold insertionPoint. rewrite JsFacts.bitNot_small by lia.
      replace (- low - 1 <? 0) with true by (symmetry; apply Z.ltb_lt; lia).
      rewrite JsFacts.bitNot_small by lia. split; lia.
  - cbn [loop]. destruct (high <? low) eqn:Ehl.
    + exists (Js.bitNot low). split; [reflexivity|].
      unfold insertionPoint. rewrite JsFacts.bitNot_small by lia.
      replace (- low - 1 <? 0) with true by (symmetry; apply Z.ltb_lt; lia).
      rewrite JsFacts.bitNot_small by lia. split; lia.
    + apply Z.ltb_ge in Ehl. rewrite JsFacts.ushr1_small by lia.
      set (mid := low + (high - low) / 2).
      assert (Hmid : low <= mid <= high).
      { unfold mid. pose proof (Z.div_pos (high - low) 2).
        assert ((high - low) / 2 <= high - low)
          by (apply Z.div_le_upper_bound; lia). lia. }
      destruct (BinarySearchFacts.at_index_Some haystack mid) as [x Hx]; [lia|].
      rewrite Hx.
      destruct (comparator x needle <? 0) eqn:Eneg; [apply IH; lia|].
      destruct (0 <? comparator x needle) eqn:Epos; [apply IH; lia|].
      apply Z.ltb_ge in Eneg, Epos.
      exists mid. split; [reflexivity|].
      unfold insertionPoint.
      replace (mid <? 0) with false by (symmetry; apply Z.ltb_ge; lia).
      split; [lia|]. intros _. exists x. split; [assumption|lia].
Qed.

Lemma binarySearch_in_range :
  Z.of_nat (length haystack) < 2 ^ 31 ->
  exists r,
    binarySearch haystack needle comparator = Some r /\
    0 <= insertionPoint r <= Z.of_nat (length haystack) /\
    (0 <= r ->
     exists x, at_index haystack r = Some x /\ comparator x needle = 0).
Proof.
  intros Hlen. unfold binarySearch. apply loop_in_range; lia.
Qed.

End AnyHaystack.

End SearchRangeFacts.

(** ** What the loop of [drawSpanTrack] does to the canvas *)

Module TrackLoopFacts.

Import Canvas Drawer Paint.
Local Open Scope Q_scope.

Lemma extends_refl (c : Canvas.t) : extends c c.
Proof.
  unfold extends. repeat split. exists []. rewrite app_nil_r. reflexivity.
Qed.

Lemma extends_trans (c1 c2 c3 : Canvas.t) :
  extends c1 c2 -> extends c2 c3 -> extends c1 c3.
Proof.
  intros (Hf1 & Hs1 & m1 & Ho1) (Hf2 & Hs2 & m2 & Ho2).
  unfold extends. repeat split; try congruence.
  exists (m1 ++ m2). rewrite Ho2, Ho1, app_assoc. reflexivity.
Qed.

Lemma onlyPaints_extends (c c' : Canvas.t) (more : list DrawOp) :
  onlyPaints c c' more -> extends c c'.
Proof.
  unfold onlyPaints, extends. intros ->. simpl. repeat split. exists more. reflexivity.
Qed.

Lemma forEachIndex_extends (body : Z -> Canvas.t -> Completion Canvas.t)
    (idxs : list Z) :
  (forall i c, extends c (completionState (body i c))) ->
  forall c, extends c (completionState (forEachIndex body idxs c)).
Proof.
  intros Hbody. induction idxs as [|i idxs IH]; intros c; simpl.
  - apply extends_refl.
  - pose proof (Hbody i c) as Hi. destruct (body i c) as [c'|c']; simpl in *.
    + eapply extends_trans; [exact Hi|apply IH].
    + exact Hi.
Qed.

Lemma forEachIndex_normal (body : Z -> Canvas.t -> Completion Canvas.t)
    (idxs : list Z) :
  (forall i, In i idxs -> forall c, isThrow (body i c) = false) ->
  forall c, isThrow (forEachIndex body idxs c) = false.
Proof.
  induction idxs as [|i idxs IH]; intros Hbody c; simpl; [reflexivity|].
  pose proof (Hbody i (or_introl eq_refl) c) as Hi.
  destruct (body i c) as [c'|c']; simpl in Hi; [|discriminate].
  apply IH. intros j Hj. apply Hbody. right. assumption.
Qed.

Section Loop.
Variable measureText : string -> string -> TextMetrics.
Variable spanPixelHeight : Q.
Variable formatExecutionTime : Q -> string.

(** The loop of [writeText] paints texts only and leaves the stack of
    [save()] and [globalAlpha] alone. *)
Lemma writeItems_paints (dfs dft : string) (cw y : Q)
    (items : list TimelineCaptionItem) : forall width x c,
  exists more,
    Forall (fun op => isFillText op = true) more /\
    saved (writeItems measureText dfs dft cw y items width x c) = saved c /\
    globalAlpha (writeItems measureText dfs dft cw y items width x c) = globalAlpha c /\
    ops (writeItems measureText dfs dft cw y items width x c) = ops c ++ more.
Proof.
  induction items as [|item rest IH]; intros width x c.
  - exists []. simpl. rewrite app_nil_r. repeat split; constructor.
  - cbn [writeItems].
    destruct (Qfloor (width / cw) =? 0)%Z.
    + exists []. simpl. rewrite app_nil_r. repeat split; constructor.
    + destruct ((Qfloor (width / cw) <? Z.of_nat (String.length (value item)))%Z
                && skippable item)%bool.
      * destruct (IH width x
                    (setFont (orDefault (itemFont item) dft)
                       (setFillStyle (orDefault (itemColor item) dfs) c)))
          as (more & Htext & Hsaved & Halpha & Hops).
        exists more. repeat split; assumption.
      * match goal with
        | |- context [writeItems _ _ _ _ _ rest ?w ?x' ?c'] =>
            destruct (IH w x' c') as (more & Htext & Hsaved & Halpha & Hops);
            set (painted := c') in *
        end.
        exists (FillText (orDefault (itemColor item) dfs)
                  (orDefault (itemFont item) dft) (globalAlpha c)
                  (JsString.slice0 (value item) (Qfloor (width / cw))) x y :: more).
        repeat split.
        -- constructor; [reflexivity|assumption].
        -- rewrite Hsaved. reflexivity.
        -- rewrite Halpha. reflexivity.
        -- rewrite Hops. unfold painted. simpl. rewrite <- app_assoc. reflexivity.
Qed.

(** [writeText] gives the context back with the attributes it found (fill
    style, font, alpha, saved states): all it leaves is the texts it
    painted. *)
Theorem writeText_only_paints_texts
    (c : Canvas.t) (width characterWidth : Q)
    (items : list TimelineCaptionItem) (x y : Q) :
  exists more,
    Forall (fun op => isFillText op = true) more /\
    onlyPaints c (writeText measureText c width characterWidth items x y) more.
Proof.
  unfold writeText.
  destruct (writeItems_paints (fillStyle c) (font c) characterWidth y items
              width x (save c)) as (more & Htext & Hsaved & Halpha & Hops).
  exists more. split; [assumption|].
  unfold onlyPaints, restore. rewrite Hsaved, Hops. reflexivity.
Qed.

Lemma writeText_extends (c : Canvas.t) (width characterWidth : Q)
    (items : list TimelineCaptionItem) (x y : Q) :
  extends c (writeText measureText c width characterWidth items x y).
Proof.
  unfold writeText.
  destruct (writeItems_paints (fillStyle c) (font c) characterWidth y items
              width x (save c)) as (more & _ & Hsaved & _ & Hops).
  unfold extends, restore. rewrite Hsaved, Hops. simpl. repeat split.
  exists more. reflexivity.
Qed.

Lemma drawSpanLeftMarker_onlyPaints (color : string) (callWidth beginPixels offsetY : Q)
    (c : Canvas.t) :
  exists more,
    onlyPaints c (drawSpanLeftMarker spanPixelHeight color callWidth beginPixels offsetY c)
      more.
Proof.
  unfold drawSpanLeftMarker, onlyPaints. destruct (Js.ltb callWidth 8).
  - exists []. rewrite app_nil_r. destruct c; reflexivity.
  - eexists. reflexivity.
Qed.

Lemma drawSpan_extends (this : Drawer.t) (trackIndex : Z) (track : SpanTrack)
    (tc : TimelineTrackContext) (cw ch : Q) (i : Z) (c : Canvas.t) :
  extends c
    (completionState
       (drawSpan measureText spanPixelHeight formatExecutionTime
          this trackIndex track tc cw ch i c)).
Proof.
  unfold drawSpan.
  destruct (BinarySearch.at_index (spans track) i) as [span|]; [|apply extends_refl].
  cbv zeta.
  destruct (Js.ltb (callWidthOf this tc span) (1 # 10)); [apply extends_refl|].
  destruct (scopeHash span =? 0)%Z.
  - unfold extends. simpl. repeat split. eexists. reflexivity.
  - destruct (scopes this !! scopeHash span) as [scope|].
    + simpl completionState.
      match goal with
      | |- context [drawSpanLeftMarker _ ?col ?w ?b ?o ?c0] =>
          destruct (drawSpanLeftMarker_onlyPaints col w b o c0) as (m1 & Hm1);
          set (marked := drawSpanLeftMarker spanPixelHeight col w b o c0) in *;
          set (rect := c0) in *
      end.
      assert (Hrect : extends c rect).
      { unfold rect, extends. simpl. repeat split. eexists. reflexivity. }
      assert (Hmarked : extends c marked).
      { eapply extends_trans; [exact Hrect|]. eapply onlyPaints_extends. exact Hm1. }
      destruct (Js.ltb (cw * 5) (callWidthOf this tc span)).
      * match goal with
        | |- context [writeText _ ?c1 ?w ?cw' ?its ?x ?y] =>
            pose proof (writeText_extends c1 w cw' its x y) as Hm2;
            set (written := writeText measureText c1 w cw' its x y) in *
        end.
        assert (Hw : extends c written).
        { eapply extends_trans; [exact Hmarked|].
          eapply extends_trans; [|exact Hm2].
          unfold extends. simpl. repeat split. exists []. rewrite app_nil_r. reflexivity. }
        destruct Hw as (Hf & Hs & m & Ho).
        unfold extends. simpl. repeat split; try assumption. exists m. assumption.
      * destruct Hmarked as (Hf & Hs & m & Ho).
        unfold extends. simpl. repeat split; try assumption. exists m. assumption.
    + unfold extends. simpl. repeat split. exists []. rewrite app_nil_r. reflexivity.
Qed.

(** [drawSpanTrack] never erases: whether it returns or throws, the context
    it leaves has the font and the saved states it found, and the operations
    painted before are still there, in front of what it painted. *)
Theorem drawSpanTrack_only_adds
    (this : Drawer.t) (trackIndex : Z) (track : SpanTrack)
    (tc : TimelineTrackContext) (c : Canvas.t) :
  ctx this = Some c ->
  exists c',
    ctx (completionState
           (drawSpanTrack measureText spanPixelHeight formatExecutionTime
              this trackIndex track tc)) = Some c' /\
    extends c c'.
Proof.
  intros Hctx. unfold drawSpanTrack. rewrite Hctx.
  destruct (visitedSpans this track tc) as [idxs|].
  - cbv zeta.
    pose proof (forEachIndex_extends
                  (drawSpan measureText spanPixelHeight formatExecutionTime
                     this trackIndex track tc
                     (characterWidthOf measureText c) (characterHeightOf measureText c))
                  idxs
                  (fun i c0 => drawSpan_extends this trackIndex track tc _ _ i c0) c)
      as Hext.
    destruct (forEachIndex _ idxs c) as [c'|c']; simpl in *; eauto.
  - simpl. exists c. split; [assumption|apply extends_refl].
Qed.

Lemma visitedSpans_in_bounds
    (this : Drawer.t) (track : SpanTrack) (tc : TimelineTrackContext) :
  (Z.of_nat (length (spans track)) < 2 ^ 31)%Z ->
  exists idxs,
    visitedSpans this track tc = Some idxs /\
    forall i, In i idxs -> (0 <= i < Z.of_nat (length (spans track)))%Z.
Proof.
  intros Hlen. unfold visitedSpans, spanBounds.
  destruct (SearchRangeFacts.binarySearch_in_range (spans track)
              (firstNeedle this tc) compareFirst Hlen)
    as (r1 & -> & Hr1 & _).
  destruct (SearchRangeFacts.binarySearch_in_range (spans track)
              (lastNeedle this tc) compareLast Hlen)
    as (r2 & -> & Hr2 & _).
  eexists. split; [reflexivity|].
  cbn [fst snd]. change (complement r1) with (BinarySearch.insertionPoint r1).
  change (complement r2) with (BinarySearch.insertionPoint r2).
  intros i Hin. unfold indexRange in Hin. apply countFrom_In in Hin. lia.
Qed.

(** On any track, sorted or not, the two searches end within the bounds of
    the array: every index the loop of [drawSpanTrack] goes through is the
    index of a span. *)
Theorem visited_indices_are_spans
    (this : Drawer.t) (track : SpanTrack) (tc : TimelineTrackContext) :
  (Z.of_nat (length (spans track)) < 2 ^ 31)%Z ->
  exists idxs,
    visitedSpans this track tc = Some idxs /\
    forall i, In i idxs -> exists span, BinarySearch.at_index (spans track) i = Some span.
Proof.
  intros Hlen.
  destruct (visitedSpans_in_bounds this track tc Hlen) as (idxs & Hv & Hidx).
  exists idxs. split; [assumption|].
  intros i Hin. apply BinarySearchFacts.at_index_Some. apply Hidx. assumption.
Qed.

(** The only thing [drawSpanTrack] throws at is an unknown scope: when every
    non-zero [scopeHash] of the track has an entry in the scope table, it
    returns normally, on any track. *)
Theorem drawSpanTrack_returns_when_scopes_known
    (this : Drawer.t) (trackIndex : Z) (track : SpanTrack)
    (tc : TimelineTrackContext) :
  (Z.of_nat (length (spans track)) < 2 ^ 31)%Z ->
  (forall span, In span (spans track) ->
     scopeHash span <> 0%Z -> exists scope, scopes this !! scopeHash span = Some scope) ->
  isThrow (drawSpanTrack measureText spanPixelHeight formatExecutionTime
             this trackIndex track tc) = false.
Proof.
  intros Hlen Hscopes. unfold drawSpanTrack.
  destruct (ctx this) as [c|]; [|reflexivity].
  destruct (visitedSpans_in_bounds this track tc Hlen) as (idxs & -> & Hidx).
  cbv zeta.
  assert (Hloop : isThrow
            (forEachIndex
               (drawSpan measureText spanPixelHeight formatExecutionTime
                  this trackIndex track tc
                  (characterWidthOf measureText c) (characterHeightOf measureText c))
               idxs c) = false).
  { apply forEachIndex_normal. intros i Hi c0.
    destruct (BinarySearchFacts.at_index_Some (spans track) i (Hidx i Hi))
      as [span Hspan].
    unfold drawSpan. rewrite Hspan. cbv zeta.
    destruct (Js.ltb (callWidthOf this tc span) (1 # 10)); [reflexivity|].
    destruct (scopeHash span =? 0)%Z eqn:Ez; [reflexivity|].
    apply Z.eqb_neq in Ez.
    assert (Hin : In span (spans track)).
    { unfold BinarySearch.at_index in Hspan.
      destruct (i <? 0)%Z; [discriminate|].
      eapply nth_error_In. eassumption. }
    destruct (Hscopes span Hin Ez) as [scope ->]. reflexivity. }
  destruct (forEachIndex _ idxs c); simpl in *; congruence.
Qed.

End Loop.

End TrackLoopFacts.

(** ** What [writeText] paints *)

Module WriteTextFacts.

Import Canvas Drawer Paint.
Local Open Scope Q_scope.

Lemma substring_prefix (s : string) : forall n,
  String.prefix (String.substring 0 n s) s = true.
Proof.
  induction s as [|ch s IH]; intros [|n]; simpl; try reflexivity.
  rewrite IH. destruct (ascii_dec ch ch); [reflexivity|contradiction].
Qed.

Lemma slice0_prefix (s : string) (b : Z) :
  String.prefix (JsString.slice0 s b) s = true.
Proof. unfold JsString.slice0. destruct (b <? 0)%Z; apply substring_prefix. Qed.

Lemma substring_length (s : string) : forall n,
  (String.length (String.substring 0 n s) <= n)%nat.
Proof.
  induction s as [|ch s IH]; intros [|n]; simpl; try lia.
  specialize (IH n). lia.
Qed.

Lemma floor_times (w cw : Q) :
  0 < cw -> inject_Z (Qfloor (w / cw)) * cw <= w.
Proof.
  intros Hcw.
  assert (H : inject_Z (Qfloor (w / cw)) * cw <= (w / cw) * cw).
  { apply Qmult_le_compat_r; [apply Qfloor_le|]. apply Qlt_le_weak. assumption. }
  assert (Hne : ~ cw == 0) by (intros E; rewrite E in Hcw; apply (Qlt_irrefl 0 Hcw)).
  assert (E : (w / cw) * cw == w) by (field; assumption).
  rewrite E in H. exact H.
Qed.

Lemma floor_nonneg (w cw : Q) : 0 < cw -> 0 <= w -> (0 <= Qfloor (w / cw))%Z.
Proof.
  intros Hcw Hw. apply (CaptionsFacts.floor_at_least (w / cw) 0).
  apply Qle_shift_div_l; [assumption|]. change (0 * cw <= w). lra.
Qed.

Lemma floor_negative (w cw : Q) : 0 < cw -> w < 0 -> (Qfloor (w / cw) < 0)%Z.
Proof.
  intros Hcw Hw.
  assert (H : w / cw < 0).
  { apply Qlt_shift_div_r; [assumption|]. lra. }
  rewrite Zlt_Qlt. apply Qle_lt_trans with (y := w / cw); [apply Qfloor_le|assumption].
Qed.

Section Texts.
Variable measureText : string -> string -> TextMetrics.

Lemma writeItems_in_order (dfs dft : string) (cw y : Q)
    (items : list TimelineCaptionItem) : forall width x c,
  exists more chosen,
    ops (writeItems measureText dfs dft cw y items width x c) = ops c ++ more /\
    sublist chosen items /\
    Forall2 paintsBeginningOf more chosen.
Proof.
  induction items as [|item rest IH]; intros width x c.
  - exists [], []. simpl. rewrite app_nil_r. repeat split; constructor.
  - cbn [writeItems].
    destruct (Qfloor (width / cw) =? 0)%Z.
    + exists [], []. simpl. rewrite app_nil_r.
      repeat split; [apply sublist_nil_l|constructor].
    + destruct ((Qfloor (width / cw) <? Z.of_nat (String.length (value item)))%Z
                && skippable item)%bool.
      * destruct (IH width x
                    (setFont (orDefault (itemFont item) dft)
                       (setFillStyle (orDefault (itemColor item) dfs) c)))
          as (more & chosen & Hops & Hsub & Hall).
        exists more, chosen. repeat split; try assumption.
        apply sublist_cons. assumption.
      * match goal with
        | |- context [writeItems _ _ _ _ _ rest ?w ?x' ?c'] =>
            destruct (IH w x' c') as (more & chosen & Hops & Hsub & Hall)
        end.
        exists (FillText (orDefault (itemColor item) dfs)
                  (orDefault (itemFont item) dft) (globalAlpha c)
                  (JsString.slice0 (value item) (Qfloor (width / cw))) x y :: more),
               (item :: chosen).
        repeat split.
        -- rewrite Hops. simpl. rewrite <- app_assoc. reflexivity.
        -- apply sublist_skip. assumption.
        -- constructor; [apply slice0_prefix|assumption].
Qed.

(** [writeText] paints the items in the order given, never one twice: the
    texts it paints are, one for one and in order, beginnings of the values
    of a selection of the items. *)
Theorem writeText_paints_beginnings_in_order
    (c : Canvas.t) (width characterWidth : Q)
    (items : list TimelineCaptionItem) (x y : Q) :
  exists more chosen,
    ops (writeText measureText c width characterWidth items x y) = ops c ++ more /\
    sublist chosen items /\
    Forall2 paintsBeginningOf more chosen.
Proof.
  unfold writeText.
  destruct (writeItems_in_order (fillStyle c) (font c) characterWidth y items
              width x (save c)) as (more & chosen & Hops & Hsub & Hall).
  exists more, chosen. repeat split; try assumption.
  unfold restore.
  destruct (saved (writeItems measureText (fillStyle c) (font c) characterWidth y
                     items width x (save c))) as [|[[s f] a] rest];
    simpl; rewrite Hops; reflexivity.
Qed.

Lemma writeItems_within_width (dfs dft : string) (cw y : Q)
    (items : list TimelineCaptionItem) :
  0 < cw ->
  (forall font text,
     0 <= Canvas.width (measureText font text) /\
     Canvas.width (measureText font text)
       <= inject_Z (Z.of_nat (String.length text)) * cw) ->
  forall width x c,
    0 <= width ->
    exists more,
      ops (writeItems measureText dfs dft cw y items width x c) = ops c ++ more /\
      measuredWidth measureText more <= width.
Proof.
  intros Hcw Hnarrow.
  induction items as [|item rest IH]; intros width x c Hw.
  - exists []. simpl. rewrite app_nil_r. split; [reflexivity|assumption].
  - cbn [writeItems].
    destruct (Qfloor (width / cw) =? 0)%Z.
    + exists []. simpl. rewrite app_nil_r. split; [reflexivity|assumption].
    + destruct ((Qfloor (width / cw) <? Z.of_nat (String.length (value item)))%Z
                && skippable item)%bool.
      * destruct (IH width x
                    (setFont (orDefault (itemFont item) dft)
                       (setFillStyle (orDefault (itemColor item) dfs) c)) Hw)
          as (more & Hops & Hsum).
        exists more. split; assumption.
      * set (budget := Qfloor (width / cw)).
        set (text := JsString.slice0 (value item) budget).
        set (fnt := orDefault (itemFont item) dft).
        assert (Hb0 : (0 <= budget)%Z) by (apply floor_nonneg; assumption).
        assert (Hlen : (Z.of_nat (String.length text) <= budget)%Z).
        { unfold text, JsString.slice0.
          replace (budget <? 0)%Z with false by (symmetry; apply Z.ltb_ge; lia).
          pose proof (substring_length (value item) (Z.to_nat budget)). lia. }
        destruct (Hnarrow fnt text) as [Hs0 Hs1].
        assert (Hsize : Canvas.width (measureText fnt text) <= width).
        { eapply Qle_trans; [exact Hs1|].
          eapply Qle_trans; [|apply (floor_times width cw Hcw)].
          apply Qmult_le_compat_r; [|apply Qlt_le_weak; assumption].
          rewrite <- Zle_Qle. exact Hlen. }
        match goal with
        | |- context [writeItems _ _ _ _ _ rest ?w ?x' ?c'] =>
            destruct (IH w x' c') as (more & Hops & Hsum)
        end.
        { simpl. fold fnt. fold budget. fold text. lra. }
        exists (FillText (orDefault (itemColor item) dfs) fnt (globalAlpha c) text x y
                :: more).
        split.
        -- rewrite Hops. simpl. rewrite <- app_assoc. reflexivity.
        -- simpl in Hsum |- *. fold fnt budget text in Hsum. lra.
Qed.

(** When no text measures wider than [characterWidth] for each of its
    characters, [writeText] stays within the width it is given: the measured
    widths of the texts it paints add up to no more than [width]. *)
Theorem writeText_stays_within_width
    (c : Canvas.t) (width characterWidth : Q)
    (items : list TimelineCaptionItem) (x y : Q) :
  0 < characterWidth ->
  0 <= width ->
  (forall font text,
     0 <= Canvas.width (measureText font text) /\
     Canvas.width (measureText font text)
       <= inject_Z (Z.of_nat (String.length text)) * characterWidth) ->
  exists more,
    ops (writeText measureText c width characterWidth items x y) = ops c ++ more /\
    measuredWidth measureText more <= width.
Proof.
  intros Hcw Hw Hnarrow. unfold writeText.
  destruct (writeItems_within_width (fillStyle c) (font c) characterWidth y items
              Hcw Hnarrow width x (save c) Hw) as (more & Hops & Hsum).
  exists more. split; [|assumption].
  unfold restore.
  destruct (saved (writeItems measureText (fillStyle c) (font c) characterWidth y
                     items width x (save c))) as [|[[s f] a] rest];
    simpl; rewrite Hops; reflexivity.
Qed.

(** The loop of [writeText] stops on a budget of zero only.  Once a text
    has measured wider than the width that was left, the width is negative
    and so is the budget: the next item that is not skippable is painted all
    the same, cut at its end by as many characters as the budget is below
    zero, and a skippable one is passed over. *)
Theorem writeText_goes_on_below_zero
    (dfs dft : string) (cw y : Q) (item : TimelineCaptionItem)
    (rest : list TimelineCaptionItem) (width x : Q) (c : Canvas.t) :
  0 < cw ->
  width < 0 ->
  let budget := Qfloor (width / cw) in
  let text :=
    String.substring 0
      (Z.to_nat (Z.of_nat (String.length (value item)) + budget)) (value item) in
  let font' := orDefault (itemFont item) dft in
  let c1 := setFont font' (setFillStyle (orDefault (itemColor item) dfs) c) in
  (budget < 0)%Z /\
  writeItems measureText dfs dft cw y (item :: rest) width x c
  = if skippable item
    then writeItems measureText dfs dft cw y rest width x c1
    else writeItems measureText dfs dft cw y rest
           (width - Canvas.width (measureText font' text))
           (x + Canvas.width (measureText font' text))
           (fillText text x y c1).
Proof.
  intros Hcw Hw budget text font' c1.
  assert (Hb : (budget < 0)%Z) by (apply floor_negative; assumption).
  split; [assumption|].
  cbn [writeItems]. fold budget.
  replace (budget =? 0)%Z with false by (symmetry; apply Z.eqb_neq; lia).
  replace (budget <? Z.of_nat (String.length (value item)))%Z with true
    by (symmetry; apply Z.ltb_lt; lia).
  destruct (skippable item); simpl; [reflexivity|].
  unfold JsString.slice0.
  replace (budget <? 0)%Z with true by (symmetry; apply Z.ltb_lt; lia).
  reflexivity.
Qed.

End Texts.

End WriteTextFacts.

(** ** The items of a caption *)

Module CaptionItemsFacts.

Import Drawer CaptionItems.
Local Open Scope string_scope.

Lemma append_nil_r (s : string) : s ++ EmptyString = s.
Proof.
  induction s as [|c s IH]; [reflexivity|].
  change (String c (s ++ EmptyString) = String c s). f_equal. exact IH.
Qed.

Lemma append_assoc (s t u : string) : (s ++ t) ++ u = s ++ (t ++ u).
Proof.
  induction s as [|c s IH]; [reflexivity|].
  change (String c ((s ++ t) ++ u) = String c (s ++ (t ++ u))). f_equal. exact IH.
Qed.

Lemma splitColons_step (c c' : ascii) (s acc : string) :
  JsString.splitColons acc (String c (String c' s))
  = if (Ascii.eqb c ":" && Ascii.eqb c' ":")%bool
    then acc :: JsString.splitColons EmptyString s
    else JsString.splitColons (acc ++ String c EmptyString) (String c' s).
Proof. reflexivity. Qed.

Lemma splitColons_nonempty (s : string) :
  (forall acc, JsString.splitColons acc s <> []) /\
  (forall c acc, JsString.splitColons acc (String c s) <> []).
Proof.
  induction s as [|c' s [IH1 IH2]].
  - split; intros; simpl; discriminate.
  - split.
    + intros acc. apply IH2.
    + intros c acc. rewrite splitColons_step.
      destruct (Ascii.eqb c ":" && Ascii.eqb c' ":")%bool; [discriminate|].
      apply IH2.
Qed.

Lemma concat_cons (sep x : string) (l : list string) :
  l <> [] -> String.concat sep (x :: l) = x ++ sep ++ String.concat sep l.
Proof. destruct l; [contradiction|reflexivity]. Qed.

(** Joining the pieces of [split] with ["::"] gives the string back. *)
Lemma splitColons_join (s : string) :
  (forall acc, String.concat "::" (JsString.splitColons acc s) = acc ++ s) /\
  (forall c acc,
     String.concat "::" (JsString.splitColons acc (String c s)) = acc ++ String c s).
Proof.
  induction s as [|c' s [IH1 IH2]].
  - split.
    + intros acc. cbn [JsString.splitColons String.concat].
      rewrite append_nil_r. reflexivity.
    + intros c acc. reflexivity.
  - split.
    + intros acc. apply IH2.
    + intros c acc. rewrite splitColons_step.
      destruct (Ascii.eqb c ":" && Ascii.eqb c' ":")%bool eqn:E.
      * apply andb_true_iff in E as [E1 E2].
        apply Ascii.eqb_eq in E1, E2. subst c c'.
        rewrite concat_cons by apply (proj1 (splitColons_nonempty s)).
        rewrite IH1. reflexivity.
      * rewrite IH2. rewrite append_assoc. reflexivity.
Qed.

Lemma split_join (s : string) : String.concat "::" (JsString.split s) = s.
Proof. unfold JsString.split. apply (proj1 (splitColons_join s)). Qed.

Lemma prefix_append (s t : string) : String.prefix s (s ++ t) = true.
Proof.
  induction s as [|c s IH]; simpl; [destruct t; reflexivity|].
  rewrite IH. destruct (ascii_dec c c); [reflexivity|contradiction].
Qed.

Lemma spelled_cons (item : TimelineCaptionItem) (items : list TimelineCaptionItem) :
  spelled (item :: items) = value item ++ spelled items.
Proof.
  unfold spelled. simpl. destruct (map value items) as [|v vs] eqn:E.
  - simpl. rewrite append_nil_r. reflexivity.
  - reflexivity.
Qed.

(** What the [while] loop of [getCaptions] spells is the beginning of the
    pieces joined, with ["::"] in front; and all of it when no piece is
    empty. *)
Lemma restCaptions_spelled (pieces : list string) :
  pieces <> [] ->
  exists tail,
    "::" ++ String.concat "::" pieces = spelled (restCaptions pieces) ++ tail /\
    (Forall (fun p => p <> EmptyString) pieces -> tail = EmptyString).
Proof.
  induction pieces as [|p rest IH]; intros Hne; [contradiction|].
  cbn [restCaptions]. destruct (String.eqb p EmptyString) eqn:Ep.
  - exists ("::" ++ String.concat "::" (p :: rest)). split; [reflexivity|].
    intros Hall. apply String.eqb_eq in Ep. exfalso. exact (Forall_inv Hall Ep).
  - destruct rest as [|q rest].
    + exists EmptyString. split; [|reflexivity].
      rewrite spelled_cons. simpl. rewrite !append_nil_r. reflexivity.
    + destruct IH as (tail & Htail & Hall); [discriminate|].
      exists tail. split.
      * rewrite spelled_cons. cbn [value].
        rewrite concat_cons by discriminate.
        rewrite !append_assoc. do 2 f_equal. exact Htail.
      * intros Hf. apply Hall. exact (Forall_inv_tail Hf).
Qed.

Section Items.
Variable formatExecutionTime : Q -> string.

Lemma getCaptions_shape (caption : string) (beginSpan endSpan : Q) :
  getCaptions formatExecutionTime caption beginSpan endSpan
  = (nameItems formatExecutionTime caption beginSpan endSpan
     ++ [durationItem formatExecutionTime beginSpan endSpan])%list.
Proof.
  unfold nameItems, getCaptions, durationItem.
  rewrite removelast_last. reflexivity.
Qed.

Lemma restCaptions_not_skippable (pieces : list string) :
  Forall (fun item => skippable item = false) (restCaptions pieces).
Proof.
  induction pieces as [|p rest IH]; simpl; [constructor|].
  destruct (String.eqb p EmptyString); constructor; [reflexivity|assumption].
Qed.

(** [getCaptions] always yields at least one item for the name, then the
    duration, last; the duration is the one item marked skippable (the one
    [writeText] leaves out whole when it does not fit). *)
Theorem duration_is_the_skippable_item (caption : string) (beginSpan endSpan : Q) :
  exists names,
    getCaptions formatExecutionTime caption beginSpan endSpan
    = (names ++ [durationItem formatExecutionTime beginSpan endSpan])%list /\
    names <> [] /\
    Forall (fun item => skippable item = false) names /\
    skippable (durationItem formatExecutionTime beginSpan endSpan) = true.
Proof.
  exists (nameItems formatExecutionTime caption beginSpan endSpan).
  split; [apply getCaptions_shape|].
  unfold nameItems, getCaptions. rewrite removelast_last.
  destruct (JsString.split caption) as [|first [|second others]].
  - repeat split; [discriminate|repeat constructor].
  - repeat split; [discriminate|repeat constructor].
  - repeat split; [discriminate|].
    constructor; [reflexivity|apply restCaptions_not_skippable].
Qed.

(** The items for the name spell a beginning of the name, and the whole
    name when no piece after a ["::"] is empty. *)
Theorem name_items_spell_the_name (caption : string) (beginSpan endSpan : Q) :
  String.prefix
    (spelled (nameItems formatExecutionTime caption beginSpan endSpan)) caption
  = true /\
  (Forall (fun p => p <> EmptyString) (tl (JsString.split caption)) ->
   spelled (nameItems formatExecutionTime caption beginSpan endSpan) = caption).
Proof.
  unfold nameItems, getCaptions. rewrite removelast_last.
  pose proof (split_join caption) as Hjoin.
  destruct (JsString.split caption) as [|first [|second others]].
  - split; [|intros _]; unfold spelled; simpl;
      [rewrite <- (append_nil_r caption) at 2; apply prefix_append|reflexivity].
  - split; [|intros _]; unfold spelled; simpl;
      [rewrite <- (append_nil_r caption) at 2; apply prefix_append|reflexivity].
  - destruct (restCaptions_spelled (second :: others)) as (tail & Htail & Hall);
      [discriminate|].
    rewrite concat_cons in Hjoin by discriminate.
    rewrite spelled_cons. cbn [value].
    split.
    + rewrite <- Hjoin, Htail, <- append_assoc. apply prefix_append.
    + intros Hf. simpl in Hf. rewrite (Hall Hf), append_nil_r in Htail.
      rewrite <- Htail. exact Hjoin.
Qed.

End Items.

Lemma name_items_spell_the_name_witness :
  spelled (nameItems secondsOf "ns::inner::leaf" 0 2000) = "ns::inner::leaf".
Proof.
  apply (name_items_spell_the_name secondsOf "ns::inner::leaf" 0 2000).
  repeat constructor; discriminate.
Defined.

(** A piece that is empty ends the name: of ["a::::b"], only ["a"] is
    kept. *)
Example empty_piece_ends_the_name :
  spelled (nameItems secondsOf "a::::b" 0 2000) = "a".
Proof. reflexivity. Qed.

End CaptionItemsFacts.

(** ** Colours *)

Module ColourFacts.

Import Canvas Drawer Colour.
Local Open Scope Q_scope.

Lemma all_bytes_round_trip :
  forallb byteRoundTrip (countFrom 0 256) = true.
Proof. vm_compute. reflexivity. Qed.

Lemma byte_round_trip (r : Z) : isByte r -> byteRoundTrip r = true.
Proof.
  intros Hr. pose proof all_bytes_round_trip as H.
  rewrite forallb_forall in H. apply H. apply countFrom_In. unfold isByte in Hr. lia.
Qed.

Lemma twoDigits_byte (r : Z) :
  isByte r ->
  exists c1 c2,
    twoDigits r = String c1 (String c2 EmptyString) /\
    JsString.parseInt16 (String c1 (String c2 EmptyString)) = Some r.
Proof.
  intros Hr. pose proof (byte_round_trip r Hr) as H. unfold byteRoundTrip in H.
  destruct (twoDigits r) as [|c1 [|c2 [|c3 rest]]] eqn:E; try discriminate.
  exists c1, c2. split; [reflexivity|].
  destruct (JsString.parseInt16 (String c1 (String c2 EmptyString))) as [r'|];
    [|discriminate].
  apply Z.eqb_eq in H. congruence.
Qed.

(** What [toString(16)] with its padding writes of a byte, [parseInt] reads
    back. *)
Theorem byte_written_is_read_back (r : Z) :
  isByte r ->
  String.length (twoDigits r) = 2%nat /\
  JsString.parseInt16 (twoDigits r) = Some r.
Proof.
  intros Hr. destruct (twoDigits_byte r Hr) as (c1 & c2 & -> & Hp).
  split; [reflexivity|assumption].
Qed.

Lemma hexValue_nonneg (c : ascii) (d : Z) : JsString.hexValue c = Some d -> (0 <= d)%Z.
Proof.
  unfold JsString.hexValue.
  destruct ((48 <=? _) && (_ <=? 57))%Z eqn:E1.
  - intros [= <-]. apply andb_true_iff in E1 as [E _]. apply Z.leb_le in E. lia.
  - destruct ((97 <=? _) && (_ <=? 102))%Z eqn:E2.
    + intros [= <-]. apply andb_true_iff in E2 as [E _]. apply Z.leb_le in E. lia.
    + destruct ((65 <=? _) && (_ <=? 70))%Z eqn:E3; [|discriminate].
      intros [= <-]. apply andb_true_iff in E3 as [E _]. apply Z.leb_le in E. lia.
Qed.

Lemma parseHexFrom_nonneg (s : string) : forall acc r,
  match acc with Some a => (0 <= a)%Z | None => True end ->
  JsString.parseHexFrom acc s = Some r -> (0 <= r)%Z.
Proof.
  induction s as [|c s IH]; intros acc r Hacc; simpl.
  - intros ->. exact Hacc.
  - destruct (JsString.hexValue c) as [d|] eqn:Ed.
    + apply IH. pose proof (hexValue_nonneg c d Ed). destruct acc; lia.
    + intros ->. exact Hacc.
Qed.

Lemma inject_nonneg (r : Z) : (0 <= r)%Z -> 0 <= inject_Z r.
Proof. intros H. rewrite Zle_Qle in H. exact H. Qed.

Lemma shadeChannel_byte (hex : string) (decimal : Q) :
  0 < decimal -> isByte (shadeChannel hex decimal).
Proof.
  intros Hd. unfold shadeChannel, isByte.
  destruct (JsString.parseInt16 hex) as [r|] eqn:E; [|lia].
  assert (Hr : (0 <= r)%Z) by (eapply (parseHexFrom_nonneg hex None); [exact I|exact E]).
  assert (H0 : (0 <= Qfloor (inject_Z r / decimal + (1 # 2)))%Z).
  { apply (CaptionsFacts.floor_at_least _ 0).
    assert (0 <= inject_Z r / decimal).
    { apply Qle_shift_div_l; [assumption|]. change (0 * decimal <= inject_Z r).
      pose proof (inject_nonneg r Hr). lra. }
    change (inject_Z 0) with 0. lra. }
  destruct (Qfloor (inject_Z r / decimal + (1 # 2)) <? 255)%Z eqn:El;
    [apply Z.ltb_lt in El|]; lia.
Qed.

(** On any string of hexadecimal digits and [#], whatever its length (on
    such strings [parseInt16] is [parseInt] with radix 16), and for any
    positive [decimal], [shadeColor] yields a colour of the form [#rrggbb]:
    seven characters, three channels between 0 and 255.  A channel that
    cannot be read comes out as 255. *)
Theorem shadeColor_is_a_colour (color : string) (decimal : Q) :
  hexOrHash color = true ->
  0 < decimal ->
  exists r g b,
    isByte r /\ isByte g /\ isByte b /\
    shadeColor color decimal = hexColor r g b /\
    String.length (shadeColor color decimal) = 7%nat.
Proof.
  intros _ Hd. unfold shadeColor. cbv zeta.
  set (base := if JsString.startsWith color "#" then 1%nat else 0%nat).
  set (r := shadeChannel (JsString.substring base 3 color) decimal).
  set (g := shadeChannel (JsString.substring (base + 2) 5 color) decimal).
  set (b := shadeChannel (JsString.substring (base + 4) 7 color) decimal).
  assert (Hr : isByte r) by (apply shadeChannel_byte; assumption).
  assert (Hg : isByte g) by (apply shadeChannel_byte; assumption).
  assert (Hb : isByte b) by (apply shadeChannel_byte; assumption).
  exists r, g, b.
  split; [assumption|]. split; [assumption|]. split; [assumption|].
  split; [reflexivity|].
  destruct (twoDigits_byte r Hr) as (r1 & r2 & -> & _).
  destruct (twoDigits_byte g Hg) as (g1 & g2 & -> & _).
  destruct (twoDigits_byte b Hb) as (b1 & b2 & -> & _).
  reflexivity.
Qed.

Lemma shadeChannel_of_byte (r : Z) (decimal : Q) :
  isByte r -> shadeChannel (twoDigits r) decimal = shaded decimal r.
Proof.
  intros Hr. unfold shadeChannel, shaded.
  destruct (twoDigits_byte r Hr) as (c1 & c2 & -> & ->).
  destruct (Qfloor (inject_Z r / decimal + (1 # 2)) <? 255)%Z eqn:El;
    [apply Z.ltb_lt in El|apply Z.ltb_ge in El]; lia.
Qed.

(** On a colour [#rrggbb], [shadeColor] works channel by channel: each is
    divided by [decimal], rounded and held at 255. *)
Lemma shadeColor_by_channel (r g b : Z) (decimal : Q) :
  isByte r -> isByte g -> isByte b ->
  shadeColor (hexColor r g b) decimal
  = hexColor (shaded decimal r) (shaded decimal g) (shaded decimal b).
Proof.
  intros Hr Hg Hb.
  pose proof (shadeChannel_of_byte r decimal Hr) as Er.
  pose proof (shadeChannel_of_byte g decimal Hg) as Eg.
  pose proof (shadeChannel_of_byte b decimal Hb) as Eb.
  unfold shadeColor, hexColor.
  destruct (twoDigits_byte r Hr) as (r1 & r2 & Hr12 & _).
  destruct (twoDigits_byte g Hg) as (g1 & g2 & Hg12 & _).
  destruct (twoDigits_byte b Hb) as (b1 & b2 & Hb12 & _).
  rewrite Hr12 in Er |- *. rewrite Hg12 in Eg |- *. rewrite Hb12 in Eb |- *.
  match goal with
  | |- context [JsString.substring ?base 3 ?col] =>
      change (JsString.substring base 3 col) with (String r1 (String r2 EmptyString));
      change (JsString.substring (base + 2) 5 col)
        with (String g1 (String g2 EmptyString));
      change (JsString.substring (base + 4) 7 col)
        with (String b1 (String b2 EmptyString))
  end.
  rewrite Er, Eg, Eb. reflexivity.
Qed.

Lemma shaded_le (decimal : Q) (r : Z) :
  1 <= decimal -> (0 <= r)%Z -> (0 <= shaded decimal r <= r)%Z.
Proof.
  intros Hd Hr. unfold shaded.
  assert (Hq0 : 0 <= inject_Z r) by (apply inject_nonneg; assumption).
  assert (Hdiv0 : 0 <= inject_Z r / decimal).
  { apply Qle_shift_div_l; [lra|]. lra. }
  assert (Hdiv1 : inject_Z r / decimal <= inject_Z r).
  { apply Qle_shift_div_r; [lra|]. nra. }
  assert (H0 : (0 <= Qfloor (inject_Z r / decimal + (1 # 2)))%Z).
  { apply (CaptionsFacts.floor_at_least _ 0). change (inject_Z 0) with 0. lra. }
  assert (H1 : (Qfloor (inject_Z r / decimal + (1 # 2)) <= r)%Z).
  { assert (Hlt : (Qfloor (inject_Z r / decimal + (1 # 2)) < r + 1)%Z).
    { rewrite Zlt_Qlt.
      apply Qle_lt_trans with (y := inject_Z r / decimal + (1 # 2));
        [apply Qfloor_le|].
      rewrite inject_Z_plus. change (inject_Z 1) with 1. lra. }
    lia. }
  lia.
Qed.

(** With a [decimal] of 1 or more [shadeColor] never brightens: applied to
    a colour [#rrggbb] it yields the colour whose channels are those
    divided by [decimal] and rounded, none above the channel it comes
    from. *)
Theorem shadeColor_darkens (r g b : Z) (decimal : Q) :
  isByte r -> isByte g -> isByte b ->
  1 <= decimal ->
  shadeColor (hexColor r g b) decimal
  = hexColor (shaded decimal r) (shaded decimal g) (shaded decimal b) /\
  (0 <= shaded decimal r <= r)%Z /\
  (0 <= shaded decimal g <= g)%Z /\
  (0 <= shaded decimal b <= b)%Z.
Proof.
  intros Hr Hg Hb Hd. split; [apply shadeColor_by_channel; assumption|].
  unfold isByte in *. repeat split; apply shaded_le; assumption || lia.
Qed.

(** Two tracks next to each other never have the same colour, whatever
    the sign of the index. *)
Theorem getIndexColor_alternates (trackIndex : Z) :
  getIndexColor (trackIndex + 1) <> getIndexColor trackIndex.
Proof.
  unfold getIndexColor.
  destruct (Z.rem trackIndex 2 =? 0)%Z eqn:E0;
    destruct (Z.rem (trackIndex + 1) 2 =? 0)%Z eqn:E1; try discriminate.
  - apply Z.eqb_eq in E0, E1.
    apply Z.rem_divide in E0, E1; try lia.
    destruct E0 as [k Hk]. destruct E1 as [k' Hk']. lia.
  - apply Z.eqb_neq in E0, E1. exfalso.
    destruct (Z.Even_or_Odd trackIndex) as [[k Hk]|[k Hk]].
    + apply E0. apply Z.rem_divide; [lia|]. exists k. lia.
    + apply E1. apply Z.rem_divide; [lia|]. exists (k + 1)%Z. lia.
Qed.

End ColourFacts.

(** ** The search term and the view *)

Module ViewFacts.

Import Canvas Drawer Visibility Colour.
Local Open Scope Q_scope.

Lemma lowerChar_idempotent (c : ascii) :
  JsString.lowerChar (JsString.lowerChar c) = JsString.lowerChar c.
Proof. destruct c as [[] [] [] [] [] [] [] []]; reflexivity. Qed.

Lemma toLowerCase_idempotent (s : string) :
  JsString.toLowerCase (JsString.toLowerCase s) = JsString.toLowerCase s.
Proof.
  induction s as [|c s IH]; simpl; [reflexivity|].
  rewrite lowerChar_idempotent, IH. reflexivity.
Qed.

Lemma toLowerCase_empty (s : string) :
  String.eqb (JsString.toLowerCase s) EmptyString = String.eqb s EmptyString.
Proof. destruct s; reflexivity. Qed.

Lemma forEachIndex_ext {A : Type} (body body' : Z -> A -> Completion A)
    (idxs : list Z) :
  (forall i a, body i a = body' i a) ->
  forall a, forEachIndex body idxs a = forEachIndex body' idxs a.
Proof.
  intros Hext. induction idxs as [|i idxs IH]; intros a; simpl; [reflexivity|].
  rewrite Hext. destruct (body' i a); [apply IH|reflexivity].
Qed.

Section Search.
Variable measureText : string -> string -> TextMetrics.
Variable spanPixelHeight : Q.
Variable formatExecutionTime : Q -> string.

Lemma drawSpan_search (this : Drawer.t) (trackIndex : Z) (track : SpanTrack)
    (tc : TimelineTrackContext) (s s' : string) (cw ch : Q) (i : Z) (c : Canvas.t) :
  JsString.toLowerCase s = JsString.toLowerCase s' ->
  drawSpan measureText spanPixelHeight formatExecutionTime
    this trackIndex track (withSearch tc s) cw ch i c
  = drawSpan measureText spanPixelHeight formatExecutionTime
      this trackIndex track (withSearch tc s') cw ch i c.
Proof.
  intros Hlow.
  assert (Hempty : String.eqb s EmptyString = String.eqb s' EmptyString).
  { rewrite <- (toLowerCase_empty s), <- (toLowerCase_empty s'), Hlow. reflexivity. }
  unfold drawSpan.
  destruct (BinarySearch.at_index (spans track) i) as [span|]; [|reflexivity].
  cbv zeta.
  change (search (withSearch tc s)) with s.
  change (search (withSearch tc s')) with s'.
  change (callWidthOf this (withSearch tc s) span) with (callWidthOf this tc span).
  change (callWidthOf this (withSearch tc s') span) with (callWidthOf this tc span).
  change (beginPixelsOf this (withSearch tc s) span) with (beginPixelsOf this tc span).
  change (beginPixelsOf this (withSearch tc s') span) with (beginPixelsOf this tc span).
  rewrite Hlow, Hempty. reflexivity.
Qed.

(** The search term is matched without regard to case: two terms that are
    the same once in lower case make [drawSpanTrack] paint the same. *)
Theorem search_ignores_case
    (this : Drawer.t) (trackIndex : Z) (track : SpanTrack)
    (tc : TimelineTrackContext) (s s' : string) :
  JsString.toLowerCase s = JsString.toLowerCase s' ->
  drawSpanTrack measureText spanPixelHeight formatExecutionTime
    this trackIndex track (withSearch tc s)
  = drawSpanTrack measureText spanPixelHeight formatExecutionTime
      this trackIndex track (withSearch tc s').
Proof.
  intros Hlow. unfold drawSpanTrack.
  destruct (ctx this) as [c|]; [|reflexivity].
  change (visitedSpans this track (withSearch tc s'))
    with (visitedSpans this track (withSearch tc s)).
  destruct (visitedSpans this track (withSearch tc s)) as [idxs|]; [|reflexivity].
  cbv zeta.
  rewrite (forEachIndex_ext _ _ idxs
             (fun i c0 => drawSpan_search this trackIndex track tc s s' _ _ i c0 Hlow)).
  reflexivity.
Qed.

End Search.

Lemma insertionPoints_ordered (track : SpanTrack) (cmp : Span -> Q -> Z)
    (n1 n2 : Q) (r1 r2 : Z) :
  BinarySearch.splits (spans track) n1 cmp r1 ->
  BinarySearch.splits (spans track) n2 cmp r2 ->
  (forall span, (cmp span n1 < 0)%Z -> (cmp span n2 < 0)%Z) ->
  (r1 <= r2)%Z.
Proof.
  intros [Hr1 Hs1] [Hr2 Hs2] Hmono.
  destruct (Z_le_gt_dec r1 r2) as [Hle|Hgt]; [assumption|exfalso].
  destruct (BinarySearchFacts.at_index_Some (spans track) r2) as [span Hspan]; [lia|].
  assert (Hc : forall n, BinarySearch.cmpAt (spans track) n cmp r2 = Some (cmp span n)).
  { intros n. unfold BinarySearch.cmpAt. rewrite Hspan. reflexivity. }
  assert (H1 : (cmp span n1 < 0)%Z) by (apply (Hs1 r2 _ (Hc n1)); lia).
  apply Hmono in H1. apply (Hs2 r2 _ (Hc n2)) in H1. lia.
Qed.

(** Widening the view never takes a span out of the loop: on a track
    without overlap, every span gone through for a view is gone through for
    any view that contains it. *)
Theorem wider_view_keeps_spans
    (this : Drawer.t) (track : SpanTrack) (tc tc' : TimelineTrackContext) :
  nonOverlapping track ->
  (Z.of_nat (length (spans track)) < 2 ^ 31)%Z ->
  tc_begin tc' <= tc_begin tc ->
  tc_end tc <= tc_end tc' ->
  exists idxs idxs',
    visitedSpans this track tc = Some idxs /\
    visitedSpans this track tc' = Some idxs' /\
    forall i, In i idxs -> In i idxs'.
Proof.
  intros Hno Hlen Hb He. unfold visitedSpans, spanBounds.
  destruct (BinarySearchFacts.binarySearch_splits (spans track)
              (firstNeedle this tc) compareFirst Hlen
              (VisibilityFacts.compareFirst_ordered track _ Hno)) as (a & -> & Ha).
  destruct (BinarySearchFacts.binarySearch_splits (spans track)
              (lastNeedle this tc) compareLast Hlen
              (VisibilityFacts.compareLast_ordered track _ Hno)) as (b & -> & Hb').
  destruct (BinarySearchFacts.binarySearch_splits (spans track)
              (firstNeedle this tc') compareFirst Hlen
              (VisibilityFacts.compareFirst_ordered track _ Hno)) as (a' & -> & Ha').
  destruct (BinarySearchFacts.binarySearch_splits (spans track)
              (lastNeedle this tc') compareLast Hlen
              (VisibilityFacts.compareLast_ordered track _ Hno)) as (b' & -> & Hb'').
  eexists. eexists. split; [reflexivity|]. split; [reflexivity|].
  cbn [option_map fst snd].
  change (complement a) with (BinarySearch.insertionPoint a).
  change (complement b) with (BinarySearch.insertionPoint b).
  change (complement a') with (BinarySearch.insertionPoint a').
  change (complement b') with (BinarySearch.insertionPoint b').
  assert (H1 : (BinarySearch.insertionPoint a' <= BinarySearch.insertionPoint a)%Z).
  { apply (insertionPoints_ordered track compareFirst _ _ _ _ Ha' Ha).
    pose proof (JsFacts.sub_le_mono_l _ _ (processOffsetMs this) Hb) as Hn.
    fold (firstNeedle this tc') in Hn. fold (firstNeedle this tc) in Hn.
    intros span. rewrite !VisibilityFacts.compareFirst_neg. lra. }
  assert (H2 : (BinarySearch.insertionPoint b <= BinarySearch.insertionPoint b')%Z).
  { apply (insertionPoints_ordered track compareLast _ _ _ _ Hb' Hb'').
    pose proof (JsFacts.sub_le_mono_l _ _ (processOffsetMs this) He) as Hn.
    fold (lastNeedle this tc) in Hn. fold (lastNeedle this tc') in Hn.
    intros span. rewrite !VisibilityFacts.compareLast_neg. lra. }
  intros i. unfold indexRange. rewrite !countFrom_In. lia.
Qed.

End ViewFacts.

(** ** Tasks, requests and the store along a run *)

Module HistoryFacts.

Import Streamer StreamerFacts History.

Section WithApi.
Context {api : MetricApi}.

Lemma launch_keeps (k : Task) (s : t) :
  settled (launch k s) = settled s /\
  metricStore (launch k s) = metricStore s /\
  client (launch k s) = client s.
Proof.
  unfold launch, acquire. destruct (0 <? permits (semaphore s)); simpl; auto.
Qed.

Lemma launchAll_keeps (ks : list Task) : forall s,
  settled (launchAll ks s) = settled s /\
  metricStore (launchAll ks s) = metricStore s /\
  client (launchAll ks s) = client s.
Proof.
  induction ks as [|k ks IH]; intros s; simpl; [auto|].
  destruct (IH (launch k s)) as (H1 & H2 & H3).
  destruct (launch_keeps k s) as (K1 & K2 & K3).
  repeat split; congruence.
Qed.

Lemma launch_tasks (k : Task) (s : t) :
  gateInvariant s ->
  map task (inFlight (launch k s)) ++ queued (launch k s)
  = (map task (inFlight s) ++ queued s) ++ [k].
Proof.
  intros (H0 & Hsum & Hq). unfold launch, acquire, queued in *.
  destruct (0 <? permits (semaphore s)) eqn:E; simpl.
  - apply Z.ltb_lt in E.
    destruct (promiseResolverQueue (semaphore s)) as [|q qs].
    + rewrite map_app. simpl. rewrite !app_nil_r. reflexivity.
    + assert (permits (semaphore s) = 0) by (apply Hq; discriminate). lia.
  - rewrite app_assoc. reflexivity.
Qed.

Lemma launchAll_tasks (ks : list Task) : forall s,
  gateInvariant s ->
  map task (inFlight (launchAll ks s)) ++ queued (launchAll ks s)
  = (map task (inFlight s) ++ queued s) ++ ks.
Proof.
  induction ks as [|k ks IH]; intros s Hinv; simpl.
  - rewrite app_nil_r. reflexivity.
  - rewrite IH by (apply launch_invariant; assumption).
    rewrite launch_tasks by assumption. rewrite <- app_assoc. reflexivity.
Qed.

Lemma tasksOf_nil (lod : Z) (missing : list (string * list Block)) :
  flat_map snd missing = [] -> tasksOf lod missing = [].
Proof.
  induction missing as [|[n bs] rest IH]; simpl; [reflexivity|].
  intros H. apply app_eq_nil in H as [-> Hrest]. simpl. apply IH. assumption.
Qed.

(** In any state a streamer reaches, [fetchSelectedMetrics] starts one task
    for each missing block of each metric that can be displayed, in the
    order of the store: each is then in flight or queued, behind the tasks
    that were there; no task is lost or started twice, and none has run to
    its end when the call returns. *)
Theorem fetchSelectedMetrics_starts_each_missing_block
    (pid : string) (events : list Event) (lod : Z) :
  let s := run events (new pid) in
  let s' := fetchSelectedMetrics lod s in
  map task (inFlight s') ++ queued s'
  = (map task (inFlight s) ++ queued s) ++ tasksOf lod (missingBlocks lod s) /\
  settled s' = settled s.
Proof.
  intros s s'. subst s'.
  pose proof (run_invariant events (new pid) (new_invariant pid)) as Hinv. fold s in Hinv.
  unfold fetchSelectedMetrics.
  destruct (Nat.eqb (length (flat_map snd (missingBlocks lod s))) 0) eqn:E.
  - apply Nat.eqb_eq in E. apply length_zero_iff_nil in E.
    rewrite (tasksOf_nil lod _ E), app_nil_r. auto.
  - destruct (launchAll_keeps (tasksOf lod (missingBlocks lod s)) s) as (H1 & _ & _).
    split; [apply launchAll_tasks; assumption|assumption].
Qed.

(** The tasks [fetchSelectedMetrics] starts are those of the blocks that a
    metric of the store, one that can be displayed, reports missing for the
    current range and the level of detail asked for: no task is started for
    a metric that cannot be displayed. *)
Lemma started_tasks_are_missing_blocks (lod : Z) (s : t) (k : Task) :
  In k (tasksOf lod (missingBlocks lod s)) <->
  exists m,
    In m (metricStore s) /\
    canBeDisplayed m = true /\
    metricName k = name m /\
    In (block k) (requestMissingBlocks m (currentMinMs s) (currentMaxMs s) lod) /\
    taskLod k = lod.
Proof.
  unfold tasksOf, missingBlocks. rewrite in_flat_map. split.
  - intros ([n bs] & Hin & Hk). apply in_map_iff in Hin as (m & Hm & Hin).
    injection Hm as <- <-. apply List.filter_In in Hin as [Hin Hd].
    simpl in Hk. apply in_map_iff in Hk as (b & <- & Hb).
    exists m. simpl. auto.
  - intros (m & Hin & Hd & Hn & Hb & Hl).
    exists (name m, requestMissingBlocks m (currentMinMs s) (currentMaxMs s) lod).
    split.
    + apply in_map_iff. exists m. split; [reflexivity|].
      apply List.filter_In. auto.
    + simpl. apply in_map_iff. exists (block k). split; [|assumption].
      destruct k as [kn kb kl]. simpl in *. congruence.
Qed.

Lemma registerSettled_app (store : list MetricState) (e1 e2 : list (Task * Outcome)) :
  registerSettled store (e1 ++ e2) = registerSettled (registerSettled store e1) e2.
Proof. unfold registerSettled. apply fold_left_app. Qed.

Lemma step_history (s : t) (e : Event) :
  isInitialize e = false ->
  exists entries,
    settled (step s e) = settled s ++ entries /\
    metricStore (step s e) = registerSettled (metricStore s) entries.
Proof.
  destruct e as [ms|lod lo hi|n o]; intros Hinit; [discriminate| |].
  - exists []. simpl. rewrite app_nil_r. unfold tick, fetchSelectedMetrics.
    match goal with
    | |- context [if ?b then ?x else launchAll ?ks ?y] =>
        destruct b; [split; reflexivity|];
        destruct (launchAll_keeps ks y) as (H1 & H2 & _)
    end.
    split; assumption.
  - simpl. destruct (nth_error (inFlight s) n) as [f|] eqn:En.
    + destruct (settle_effect n f o s En) as (Hset & Hstore & _).
      exists [(task f, if requested f then o else NoData)].
      split; [assumption|]. rewrite Hstore. unfold registerSettled. simpl.
      destruct (if requested f then o else NoData); reflexivity.
    + exists []. unfold settle. rewrite En, app_nil_r. split; reflexivity.
Qed.

(** Between initializations the store changes by the fetches that end with a
    payload, and by nothing else: after any ticks and fetch outcomes, it is
    the store as it was with the payloads of the fetches settled meanwhile
    registered, under their block and metric, in the order the fetches
    ended. *)
Theorem store_is_the_settled_payloads (events : list Event) (s : t) :
  Forall (fun e => isInitialize e = false) events ->
  exists entries,
    settled (run events s) = settled s ++ entries /\
    metricStore (run events s) = registerSettled (metricStore s) entries.
Proof.
  revert s. induction events as [|e events IH]; intros s Hall.
  - exists []. simpl. rewrite app_nil_r. split; reflexivity.
  - simpl. destruct (step_history s e (Forall_inv Hall)) as (e1 & Hs1 & Hm1).
    destruct (IH (step s e) (Forall_inv_tail Hall)) as (e2 & Hs2 & Hm2).
    exists (e1 ++ e2). split.
    + rewrite Hs2, Hs1, app_assoc. reflexivity.
    + rewrite Hm2, Hm1, registerSettled_app. reflexivity.
Qed.

Lemma launch_requests (k : Task) (s : t) :
  requestsAccounted s -> requestsAccounted (launch k s).
Proof.
  unfold requestsAccounted, launch, acquire.
  destruct (0 <? permits (semaphore s)); simpl; [|auto].
  destruct (client s); rewrite ?length_app; simpl; lia.
Qed.

Lemma launchAll_requests (ks : list Task) : forall s,
  requestsAccounted s -> requestsAccounted (launchAll ks s).
Proof.
  induction ks as [|k ks IH]; intros s H; simpl; [assumption|].
  apply IH. apply launch_requests. assumption.
Qed.

Lemma settle_requests (n : nat) (o : Outcome) (s : t) :
  requestsAccounted s -> requestsAccounted (settle n o s).
Proof.
  unfold requestsAccounted, settle. intros H.
  destruct (nth_error (inFlight s) n) as [f|] eqn:En; [|assumption].
  pose proof (removeNth_length _ _ _ En) as Hlen.
  unfold release, signal. simpl.
  destruct (promiseResolverQueue (semaphore s)) as [|k rest]; simpl.
  - rewrite length_app. simpl. lia.
  - destruct (client s); rewrite ?length_app; simpl; lia.
Qed.

Lemma run_requests (events : list Event) : forall s,
  requestsAccounted s -> requestsAccounted (run events s).
Proof.
  induction events as [|e events IH]; intros s H; simpl; [assumption|].
  apply IH. destruct e as [ms|lod lo hi|n o]; simpl.
  - exact H.
  - unfold tick, fetchSelectedMetrics.
    match goal with
    | |- context [if ?b then ?x else launchAll ?ks ?y] =>
        destruct b; [exact H|apply launchAll_requests; exact H]
    end.
  - apply settle_requests. exact H.
Qed.

(** However many blocks are missing, the requests that have gone out and
    whose fetch has not ended are never more than 8: in every state a
    streamer reaches, the requests sent are at most 8 more than the tasks
    settled. *)
Theorem requests_outstanding_are_bounded (pid : string) (events : list Event) :
  (length (requests (run events (new pid)))
   <= length (settled (run events (new pid))) + 8)%nat.
Proof.
  assert (H0 : requestsAccounted (new pid)) by (unfold requestsAccounted; simpl; lia).
  pose proof (run_requests events (new pid) H0) as Hreq.
  pose proof (invariant_bound _ (run_invariant events (new pid) (new_invariant pid)))
    as Hcap.
  unfold requestsAccounted in Hreq. unfold holders, capacity in Hcap. lia.
Qed.

(** No unit of the semaphore is ever lost, whether fetches end with a
    payload, with nothing or with an error: in every state a streamer
    reaches the free units and the tasks in flight add up to 8, a task is
    queued only while 8 are in flight, and once none is in flight all 8
    units are free. *)
Theorem units_are_never_lost (pid : string) (events : list Event) :
  let s := run events (new pid) in
  permits (semaphore s) + holders s = 8 /\
  (queued s <> [] -> holders s = 8) /\
  (inFlight s = [] -> permits (semaphore s) = 8 /\ queued s = []).
Proof.
  intros s.
  destruct (run_invariant events (new pid) (new_invariant pid)) as (H0 & Hsum & Hq).
  fold s in H0, Hsum, Hq. unfold capacity in Hsum.
  split; [exact Hsum|]. split.
  - intros Hne. specialize (Hq Hne). lia.
  - intros Hidle. unfold holders in Hsum. rewrite Hidle in Hsum. simpl in Hsum.
    split; [lia|].
    destruct (queued s) as [|q qs] eqn:Eq; [reflexivity|].
    assert (permits (semaphore s) = 0) by (apply Hq; discriminate). lia.
Qed.

End WithApi.

End HistoryFacts.

(** ** The metric states [initializeAsync] builds *)

Module ManifestFacts.

Import Streamer History.

Section WithApi.
Context {api : MetricApi}.

Lemma mapUpdate_keys (key : string) (f : MetricState -> MetricState)
    (m : list (string * MetricState)) :
  map fst (mapUpdate key f m) = map fst m.
Proof.
  induction m as [|[k v] rest IH]; simpl; [reflexivity|].
  destruct (String.eqb k key); simpl; [reflexivity|]. rewrite IH. reflexivity.
Qed.

Lemma mapGet_None (key : string) (m : list (string * MetricState)) :
  mapGet key m = None <-> ~ In key (map fst m).
Proof.
  induction m as [|[k v] rest IH]; simpl; [tauto|].
  destruct (String.eqb k key) eqn:E.
  - apply String.eqb_eq in E. split; [discriminate|]. intros H. exfalso. auto.
  - apply String.eqb_neq in E. rewrite IH. tauto.
Qed.

Lemma mapGet_app (key k : string) (v : MetricState) (m : list (string * MetricState)) :
  mapGet key (m ++ [(k, v)])
  = match mapGet key m with
    | Some x => Some x
    | None => if String.eqb k key then Some v else None
    end.
Proof.
  induction m as [|[k' v'] rest IH]; simpl; [reflexivity|].
  destruct (String.eqb k' key); [reflexivity|exact IH].
Qed.

Lemma mapGet_mapUpdate (key k : string) (f : MetricState -> MetricState)
    (m : list (string * MetricState)) :
  mapGet key (mapUpdate k f m)
  = if String.eqb k key then option_map f (mapGet key m) else mapGet key m.
Proof.
  induction m as [|[k' v'] rest IH]; simpl.
  - destruct (String.eqb k key); reflexivity.
  - destruct (String.eqb k' k) eqn:E1; simpl.
    + apply String.eqb_eq in E1. subst k'.
      destruct (String.eqb k key); reflexivity.
    + destruct (String.eqb k' key) eqn:E2.
      * apply String.eqb_eq in E2. subst k'.
        rewrite String.eqb_sym, E1. reflexivity.
      * exact IH.
Qed.

(** One description gone through: the state of its metric is made if there
    is none, and handed the manifest; the other metrics stay. *)
Lemma mapGet_addMetric (key : string) (manifest : BlockManifest)
    (m : list (string * MetricState)) (desc : MetricDesc) :
  mapGet key (addMetric manifest m desc)
  = if String.eqb (descName desc) key
    then Some (registerManifest manifest
                 (match mapGet key m with
                  | Some st => st
                  | None => newMetricState desc
                  end))
    else mapGet key m.
Proof.
  unfold addMetric.
  destruct (mapGet (descName desc) m) as [st|] eqn:Eg.
  - rewrite mapGet_mapUpdate. destruct (String.eqb (descName desc) key) eqn:E.
    + apply String.eqb_eq in E. rewrite <- E, Eg. reflexivity.
    + reflexivity.
  - rewrite mapGet_mapUpdate, mapGet_app.
    destruct (String.eqb (descName desc) key) eqn:E.
    + apply String.eqb_eq in E. rewrite <- E, Eg. reflexivity.
    + destruct (mapGet key m); reflexivity.
Qed.

Lemma NoDup_snoc (l : list string) (x : string) :
  List.NoDup l -> ~ In x l -> List.NoDup (l ++ [x]).
Proof.
  induction l as [|y l IH]; intros Hnd Hx; simpl.
  - apply List.NoDup_cons; [intros []|apply List.NoDup_nil].
  - apply List.NoDup_cons_iff in Hnd as [Hy Hnd].
    apply List.NoDup_cons_iff. split.
    + rewrite in_app_iff. simpl. intros [H|[H|[]]]; [contradiction|].
      apply Hx. left. symmetry. assumption.
    + apply IH; [assumption|]. intros H. apply Hx. right. assumption.
Qed.

Lemma addMetric_keys (manifest : BlockManifest)
    (m : list (string * MetricState)) (desc : MetricDesc) :
  List.NoDup (map fst m) ->
  List.NoDup (map fst (addMetric manifest m desc)) /\
  forall key,
    In key (map fst (addMetric manifest m desc))
    <-> In key (map fst m) \/ key = descName desc.
Proof.
  intros Hnd. unfold addMetric. rewrite mapUpdate_keys.
  destruct (mapGet (descName desc) m) as [st|] eqn:Eg.
  - split; [assumption|]. intros key. split; [auto|].
    intros [H| ->]; [assumption|].
    destruct (in_dec string_dec (descName desc) (map fst m)) as [Hin|Hout];
      [assumption|].
    apply mapGet_None in Hout. congruence.
  - apply mapGet_None in Eg. rewrite map_app. simpl. split.
    + apply NoDup_snoc; assumption.
    + intros key. rewrite in_app_iff. simpl. intuition.
Qed.

Lemma fold_addMetric_keys (manifest : BlockManifest) (descs : list MetricDesc) :
  forall m,
    List.NoDup (map fst m) ->
    List.NoDup (map fst (fold_left (addMetric manifest) descs m)) /\
    forall key,
      In key (map fst (fold_left (addMetric manifest) descs m))
      <-> In key (map fst m) \/ In key (map descName descs).
Proof.
  induction descs as [|d descs IH]; intros m Hnd; simpl.
  - split; [assumption|]. intros key. tauto.
  - destruct (addMetric_keys manifest m d Hnd) as [Hnd' Hin'].
    destruct (IH _ Hnd') as [Hnd'' Hin''].
    split; [assumption|]. intros key. rewrite Hin'', Hin'. intuition.
Qed.

Lemma fold_addManifest_keys (blockManifests : list (option BlockManifest)) :
  forall m,
    List.NoDup (map fst m) ->
    List.NoDup (map fst (fold_left addManifest blockManifests m)) /\
    forall key,
      In key (map fst (fold_left addManifest blockManifests m))
      <-> In key (map fst m) \/ In key (namesOf (listings blockManifests)).
Proof.
  induction blockManifests as [|bm rest IH]; intros m Hnd; simpl.
  - split; [assumption|]. intros key. unfold namesOf. simpl. tauto.
  - destruct bm as [manifest|]; simpl.
    + destruct (fold_addMetric_keys manifest (manifestMetrics manifest) m Hnd)
        as [Hnd' Hin'].
      destruct (IH _ Hnd') as [Hnd'' Hin''].
      split; [assumption|]. intros key. rewrite Hin'', Hin'.
      unfold namesOf, listings. simpl. rewrite map_app, in_app_iff, map_map. simpl.
      tauto.
    + apply IH. assumption.
Qed.

(** The states [initializeAsync] registers with the store are those of a
    map with one state for each metric name, however many block manifests
    list the metric, and one for every name listed. *)
Theorem one_state_per_metric_name
    (blockManifests : list (option BlockManifest)) (s : t) :
  metricStore (initializeAsync blockManifests s)
  = registerMetrics (map snd (metricStatesOf blockManifests)) (metricStore s) /\
  List.NoDup (map fst (metricStatesOf blockManifests)) /\
  forall key,
    In key (map fst (metricStatesOf blockManifests))
    <-> exists d manifest,
          In (Some manifest) blockManifests /\
          In d (manifestMetrics manifest) /\
          descName d = key.
Proof.
  split; [reflexivity|].
  unfold metricStatesOf.
  destruct (fold_addManifest_keys blockManifests [] (List.NoDup_nil _)) as [Hnd Hin].
  split; [assumption|]. intros key. rewrite Hin. simpl.
  unfold namesOf, listings. rewrite in_map_iff. split.
  - intros [[]|([d manifest] & Hk & Hl)]. simpl in Hk.
    apply in_flat_map in Hl as (bm & Hbm & Hd).
    destruct bm as [manifest'|]; [|contradiction].
    apply in_map_iff in Hd as (d' & Heq & Hd'). injection Heq as <- <-.
    exists d', manifest'. auto.
  - intros (d & manifest & Hbm & Hd & Hk). right.
    exists (d, manifest). split; [assumption|].
    apply in_flat_map. exists (Some manifest). split; [assumption|].
    apply in_map_iff. exists d. auto.
Qed.

Lemma afterListings_cons (start : option MetricState) (d : MetricDesc)
    (manifest : BlockManifest) (ls : list (MetricDesc * BlockManifest)) :
  afterListings start ((d, manifest) :: ls)
  = afterListings
      (Some (registerManifest manifest
               (match start with Some st => st | None => newMetricState d end)))
      ls.
Proof. destruct start; reflexivity. Qed.

Lemma fold_addMetric_get (key : string) (manifest : BlockManifest)
    (descs : list MetricDesc) : forall m,
  mapGet key (fold_left (addMetric manifest) descs m)
  = afterListings (mapGet key m)
      (List.filter (fun l => String.eqb (descName (fst l)) key)
         (map (fun d => (d, manifest)) descs)).
Proof.
  induction descs as [|d descs IH]; intros m; simpl.
  - destruct (mapGet key m); reflexivity.
  - rewrite IH, mapGet_addMetric.
    destruct (String.eqb (descName d) key).
    + rewrite afterListings_cons. reflexivity.
    + reflexivity.
Qed.

Lemma afterListings_app (start : option MetricState)
    (l1 l2 : list (MetricDesc * BlockManifest)) :
  afterListings start (l1 ++ l2) = afterListings (afterListings start l1) l2.
Proof.
  revert start. induction l1 as [|[d manifest] l1 IH]; intros start.
  - simpl. destruct start; [reflexivity|]. destruct l2 as [|[d m] l2]; reflexivity.
  - simpl app. rewrite !afterListings_cons. apply IH.
Qed.

Lemma fold_addManifest_get (key : string)
    (blockManifests : list (option BlockManifest)) : forall m,
  mapGet key (fold_left addManifest blockManifests m)
  = afterListings (mapGet key m) (listingsOf key blockManifests).
Proof.
  unfold listingsOf.
  induction blockManifests as [|bm rest IH]; intros m; simpl.
  - destruct (mapGet key m); reflexivity.
  - rewrite IH. destruct bm as [manifest|]; simpl.
    + rewrite fold_addMetric_get, List.filter_app, afterListings_app. reflexivity.
    + reflexivity.
Qed.

(** The first manifest that lists a metric decides its state, the later
    ones add to it: the state [initializeAsync] builds for a name is made
    from the first description of that name, and is then handed each
    manifest that lists the name, in order and as many times as it lists
    it. *)
Theorem first_description_makes_the_state
    (blockManifests : list (option BlockManifest)) (s : t) (key : string) :
  metricStore (initializeAsync blockManifests s)
  = registerMetrics (map snd (metricStatesOf blockManifests)) (metricStore s) /\
  mapGet key (metricStatesOf blockManifests)
  = stateAfter (listingsOf key blockManifests).
Proof.
  split; [reflexivity|].
  unfold metricStatesOf. rewrite fold_addManifest_get. reflexivity.
Qed.

End WithApi.

End ManifestFacts.

(** ** The range [initializeAsync] computes *)

Module RangeFacts.

Import Streamer.

Lemma ltb_irrefl (q : Q) : Js.ltb q q = false.
Proof. apply JsFacts.ltb_false. apply Qle_refl. Qed.

Ltac to_Q :=
  repeat match goal with
  | H : Js.ltb _ _ = true |- _ => apply JsFacts.ltb_spec in H
  | H : Js.ltb _ _ = false |- _ => apply JsFacts.ltb_false in H
  end.

Ltac by_cases :=
  intros; simpl in *; try congruence; try reflexivity;
  repeat (match goal with
          | |- context [if Js.ltb ?x ?y then _ else _] =>
              destruct (Js.ltb x y) eqn:?
          end; simpl in *);
  try congruence; try reflexivity;
  to_Q; try (apply JsFacts.ltb_false; lra).

Lemma min2_not_NaN (a b : Number.t) :
  Number.isNaN a = false -> Number.isNaN b = false ->
  Number.isNaN (Number.min2 a b) = false.
Proof.
  destruct a, b; simpl; try congruence. intros _ _. destruct (Js.ltb q0 q); reflexivity.
Qed.

Lemma min2_is_one (a b : Number.t) :
  Number.min2 a b = a \/ Number.min2 a b = b.
Proof.
  destruct a, b; simpl; auto. destruct (Js.ltb q0 q); auto.
Qed.

Lemma min2_below_left (a b : Number.t) :
  Number.isNaN a = false -> Number.isNaN b = false ->
  Number.ltb a (Number.min2 a b) = false.
Proof.
  destruct a, b; by_cases.
Qed.

Lemma min2_below (a b x : Number.t) :
  Number.isNaN a = false -> Number.isNaN b = false -> Number.isNaN x = false ->
  Number.ltb x b = false -> Number.ltb x (Number.min2 a b) = false.
Proof.
  destruct a, b, x; by_cases.
Qed.

Lemma mathMin_NaN (l : list Number.t) :
  Exists (fun a => Number.isNaN a = true) l -> Number.mathMin l = Number.NaN.
Proof.
  induction l as [|a l IH]; intros H; [inversion H|].
  simpl. apply Exists_cons in H as [H|H].
  - destruct a; try discriminate. reflexivity.
  - rewrite (IH H). destruct a; reflexivity.
Qed.

Lemma mathMin_least (l : list Number.t) :
  Forall (fun a => Number.isNaN a = false) l ->
  Number.isNaN (Number.mathMin l) = false /\
  Forall (fun a => Number.ltb a (Number.mathMin l) = false) l /\
  (l <> [] -> In (Number.mathMin l) l).
Proof.
  induction l as [|a l IH]; intros Hall.
  - repeat split; [constructor|]. intros H. contradiction.
  - pose proof (Forall_inv Hall) as Ha.
    destruct (IH (Forall_inv_tail Hall)) as (Hn & Hle & Hin).
    simpl. split; [apply min2_not_NaN; assumption|]. split.
    + constructor; [apply min2_below_left; assumption|].
      pose proof (Forall_inv_tail Hall) as Hrest.
      rewrite List.Forall_forall in Hle, Hrest |- *.
      intros x Hx. apply min2_below; auto.
    + intros _. destruct l as [|b l].
      * left. simpl. destruct a; simpl in *; congruence.
      * destruct (min2_is_one a (Number.mathMin (b :: l))) as [E|E]; rewrite E.
        -- left. reflexivity.
        -- right. apply Hin. discriminate.
Qed.

Lemma max2_not_NaN (a b : Number.t) :
  Number.isNaN a = false -> Number.isNaN b = false ->
  Number.isNaN (Number.max2 a b) = false.
Proof.
  destruct a, b; simpl; try congruence. intros _ _. destruct (Js.ltb q q0); reflexivity.
Qed.

Lemma max2_is_one (a b : Number.t) :
  Number.max2 a b = a \/ Number.max2 a b = b.
Proof.
  destruct a, b; simpl; auto. destruct (Js.ltb q q0); auto.
Qed.

Lemma max2_above_left (a b : Number.t) :
  Number.isNaN a = false -> Number.isNaN b = false ->
  Number.ltb (Number.max2 a b) a = false.
Proof.
  destruct a, b; by_cases.
Qed.

Lemma max2_above (a b x : Number.t) :
  Number.isNaN a = false -> Number.isNaN b = false -> Number.isNaN x = false ->
  Number.ltb b x = false -> Number.ltb (Number.max2 a b) x = false.
Proof.
  destruct a, b, x; by_cases.
Qed.

Lemma mathMax_NaN (l : list Number.t) :
  Exists (fun a => Number.isNaN a = true) l -> Number.mathMax l = Number.NaN.
Proof.
  induction l as [|a l IH]; intros H; [inversion H|].
  simpl. apply Exists_cons in H as [H|H].
  - destruct a; try discriminate. reflexivity.
  - rewrite (IH H). destruct a; reflexivity.
Qed.

Lemma mathMax_greatest (l : list Number.t) :
  Forall (fun a => Number.isNaN a = false) l ->
  Number.isNaN (Number.mathMax l) = false /\
  Forall (fun a => Number.ltb (Number.mathMax l) a = false) l /\
  (l <> [] -> In (Number.mathMax l) l).
Proof.
  induction l as [|a l IH]; intros Hall.
  - repeat split; [constructor|]. intros H. contradiction.
  - pose proof (Forall_inv Hall) as Ha.
    destruct (IH (Forall_inv_tail Hall)) as (Hn & Hle & Hin).
    simpl. split; [apply max2_not_NaN; assumption|]. split.
    + constructor; [apply max2_above_left; assumption|].
      pose proof (Forall_inv_tail Hall) as Hrest.
      rewrite List.Forall_forall in Hle, Hrest |- *.
      intros x Hx. apply max2_above; auto.
    + intros _. destruct l as [|b l].
      * left. simpl. destruct a; simpl in *; congruence.
      * destruct (max2_is_one a (Number.mathMax (b :: l))) as [E|E]; rewrite E.
        -- left. reflexivity.
        -- right. apply Hin. discriminate.
Qed.

Section WithApi.
Context {api : MetricApi}.

(** After [initializeAsync], when the registry holds a metric and no metric
    has NaN for a bound, [currentMinMs] is the least of the metrics' [min]
    and [currentMaxMs] the greatest of their [max]: each is the bound of one
    of the metrics, and no metric goes beyond it. *)
Theorem current_range_spans_the_metrics
    (blockManifests : list (option BlockManifest)) (s : t) :
  let s' := initializeAsync blockManifests s in
  metricStore s' <> [] ->
  (forall m, In m (metricStore s') ->
     Number.isNaN (min m) = false /\ Number.isNaN (max m) = false) ->
  (exists m, In m (metricStore s') /\ currentMinMs s' = min m) /\
  (exists m, In m (metricStore s') /\ currentMaxMs s' = max m) /\
  forall m, In m (metricStore s') ->
    Number.ltb (min m) (currentMinMs s') = false /\
    Number.ltb (currentMaxMs s') (max m) = false.
Proof.
  intros s' Hne Hnan. unfold s', initializeAsync in *. simpl in *.
  set (store := registerMetrics _ (metricStore s)) in *.
  assert (Hmin : Forall (fun a => Number.isNaN a = false) (map min store)).
  { apply List.Forall_forall. intros a Ha. apply in_map_iff in Ha as (m & <- & Hm).
    apply (Hnan m Hm). }
  assert (Hmax : Forall (fun a => Number.isNaN a = false) (map max store)).
  { apply List.Forall_forall. intros a Ha. apply in_map_iff in Ha as (m & <- & Hm).
    apply (Hnan m Hm). }
  destruct (mathMin_least _ Hmin) as (_ & Hlo & Hinlo).
  destruct (mathMax_greatest _ Hmax) as (_ & Hhi & Hinhi).
  assert (Hne' : forall f : MetricState -> Number.t, map f store <> []).
  { intros f E. apply map_eq_nil in E. contradiction. }
  split; [|split].
  - specialize (Hinlo (Hne' min)). apply in_map_iff in Hinlo as (m & Hm & Hin).
    exists m. split; [assumption|congruence].
  - specialize (Hinhi (Hne' max)). apply in_map_iff in Hinhi as (m & Hm & Hin).
    exists m. split; [assumption|congruence].
  - intros m Hm. rewrite List.Forall_forall in Hlo, Hhi. split.
    + apply Hlo. apply in_map. assumption.
    + apply Hhi. apply in_map. assumption.
Qed.

(** One metric with NaN for its [min] makes [currentMinMs] NaN, and one with
    NaN for its [max] makes [currentMaxMs] NaN, whatever the other metrics
    say. *)
Theorem NaN_bound_spoils_the_range
    (blockManifests : list (option BlockManifest)) (s : t) (m : MetricState) :
  In m (metricStore (initializeAsync blockManifests s)) ->
  (Number.isNaN (min m) = true ->
   currentMinMs (initializeAsync blockManifests s) = Number.NaN) /\
  (Number.isNaN (max m) = true ->
   currentMaxMs (initializeAsync blockManifests s) = Number.NaN).
Proof.
  unfold initializeAsync. simpl. intros Hin. split; intros Hnan.
  - apply mathMin_NaN. apply List.Exists_exists. exists (min m).
    split; [apply in_map; assumption|assumption].
  - apply mathMax_NaN. apply List.Exists_exists. exists (max m).
    split; [apply in_map; assumption|assumption].
Qed.

End WithApi.

End RangeFacts.

(** ** The drawer on examples *)

Module DrawerRuns.

Import Canvas Drawer Visibility SpanDrawing Paint Colour CaptionItems.
Local Open Scope Q_scope.

Lemma drawSpanTrack_only_adds_witness :
  exists c',
    ctx (completionState
           (drawSpanTrack fixedPitch 20 noDuration
              (drawerWith blankCanvas oneScope) 0 jumbledTrack (viewOf 0 100)))
    = Some c' /\
    extends blankCanvas c'.
Proof.
  apply (TrackLoopFacts.drawSpanTrack_only_adds fixedPitch 20 noDuration
           (drawerWith blankCanvas oneScope) 0 jumbledTrack (viewOf 0 100) blankCanvas).
  reflexivity.
Defined.

Lemma visited_indices_are_spans_witness :
  exists idxs,
    visitedSpans (idleDrawer 0) jumbledTrack (viewOf 30 55) = Some idxs /\
    forall i, In i idxs ->
      exists span, BinarySearch.at_index (spans jumbledTrack) i = Some span.
Proof.
  apply (TrackLoopFacts.visited_indices_are_spans (idleDrawer 0) jumbledTrack
           (viewOf 30 55)).
  reflexivity.
Defined.

Lemma drawSpanTrack_returns_when_scopes_known_witness :
  isThrow (drawSpanTrack fixedPitch 20 noDuration
             (drawerWith blankCanvas oneScope) 0 jumbledTrack (viewOf 0 100)) = false.
Proof.
  apply TrackLoopFacts.drawSpanTrack_returns_when_scopes_known.
  - reflexivity.
  - intros span [<-|[<-|[<-|[]]]] Hne.
    + eexists. reflexivity.
    + exfalso. apply Hne. reflexivity.
    + eexists. reflexivity.
Defined.

Lemma narrowFont_is_narrow (font text : string) :
  0 <= Canvas.width (narrowFont font text) /\
  Canvas.width (narrowFont font text)
    <= inject_Z (Z.of_nat (String.length text)) * 8.
Proof.
  unfold narrowFont. simpl.
  change 8 with (inject_Z 8). rewrite <- inject_Z_mult.
  change 0 with (inject_Z 0). rewrite <- !Zle_Qle. lia.
Qed.

Lemma writeText_stays_within_width_witness :
  exists more,
    ops (writeText narrowFont blankCanvas 40 8
           (getCaptions noDuration "ns::inner::leaf" 0 40) 5 30)
    = ops blankCanvas ++ more /\
    measuredWidth narrowFont more <= 40.
Proof.
  apply (WriteTextFacts.writeText_stays_within_width narrowFont blankCanvas 40 8).
  - reflexivity.
  - discriminate.
  - exact narrowFont_is_narrow.
Defined.

(** With the wide font the first text takes 32 pixels of the 20 there are:
    12 below zero, the next item is painted without its last two
    characters. *)
Lemma writeText_goes_on_below_zero_witness :
  Captions.textsOf
    (ops (writeItems wideFont "#000000" "15px arial" 8 30
            [ {| value := "::inner"; itemFont := None; itemColor := None;
                 skippable := false |} ]
            (-12) 5 blankCanvas))
  = ["::inn"%string].
Proof.
  destruct (WriteTextFacts.writeText_goes_on_below_zero wideFont
              "#000000" "15px arial" 8 30
              {| value := "::inner"; itemFont := None; itemColor := None;
                 skippable := false |}
              [] (-12) 5 blankCanvas) as [_ ->].
  - reflexivity.
  - reflexivity.
  - reflexivity.
Defined.

Lemma byte_written_is_read_back_witness :
  JsString.parseInt16 (twoDigits 164) = Some 164%Z.
Proof.
  apply (ColourFacts.byte_written_is_read_back 164). unfold isByte. lia.
Defined.

Lemma shadeColor_is_a_colour_witness :
  exists r g b,
    isByte r /\ isByte g /\ isByte b /\
    shadeColor "#f80" (104 # 100) = hexColor r g b /\
    String.length (shadeColor "#f80" (104 # 100)) = 7%nat.
Proof.
  apply ColourFacts.shadeColor_is_a_colour; reflexivity.
Defined.

Lemma shadeColor_darkens_witness :
  shadeColor "#fea446" (104 # 100) = hexColor 244 158 67.
Proof.
  destruct (ColourFacts.shadeColor_darkens 254 164 70 (104 # 100)) as [H _].
  - unfold isByte. lia.
  - unfold isByte. lia.
  - unfold isByte. lia.
  - discriminate.
  - exact H.
Defined.

Lemma search_ignores_case_witness :
  drawSpanTrack fixedPitch 20 noDuration
    (drawerWith blankCanvas oneScope) 0 jumbledTrack
    (withSearch (viewOf 0 100) "UPDATE")
  = drawSpanTrack fixedPitch 20 noDuration
      (drawerWith blankCanvas oneScope) 0 jumbledTrack
      (withSearch (viewOf 0 100) "update").
Proof.
  apply ViewFacts.search_ignores_case. reflexivity.
Defined.

Lemma wider_view_keeps_spans_witness :
  exists idxs idxs',
    visitedSpans (idleDrawer 0) fiveSpans (viewOf 12 32) = Some idxs /\
    visitedSpans (idleDrawer 0) fiveSpans (viewOf 5 41) = Some idxs' /\
    forall i, In i idxs -> In i idxs'.
Proof.
  apply ViewFacts.wider_view_keeps_spans.
  - split.
    + repeat constructor; discriminate.
    + repeat constructor.
  - reflexivity.
  - discriminate.
  - discriminate.
Defined.

End DrawerRuns.

(** ** The streamer on examples *)

Module StreamerRuns.

Import Streamer History.
Import Registry.

Lemma store_is_the_settled_payloads_witness :
  exists entries,
    settled (run [Tick 0 (Registry.msOf 0) (Registry.msOf 100);
                  Settle 0 (Data {| Registry.bd_lod := 0 |})]
               (run [Initialize [Registry.manifestOf 0]] (new "p")))
    = settled (run [Initialize [Registry.manifestOf 0]] (new "p")) ++ entries /\
    metricStore (run [Tick 0 (Registry.msOf 0) (Registry.msOf 100);
                      Settle 0 (Data {| Registry.bd_lod := 0 |})]
                   (run [Initialize [Registry.manifestOf 0]] (new "p")))
    = registerSettled
        (metricStore (run [Initialize [Registry.manifestOf 0]] (new "p"))) entries.
Proof.
  apply (HistoryFacts.store_is_the_settled_payloads (api := Registry.api)).
  repeat constructor.
Defined.

Lemma current_range_spans_the_metrics_witness :
  exists m,
    In m (metricStore (initializeAsync Registry.tenManifests (new "p"))) /\
    currentMinMs (initializeAsync Registry.tenManifests (new "p")) = min m.
Proof.
  apply (RangeFacts.current_range_spans_the_metrics (api := Registry.api)
           Registry.tenManifests (new "p")).
  - vm_compute. discriminate.
  - intros m Hm. vm_compute in Hm. destruct Hm as [<-|[]]. split; reflexivity.
Defined.

End StreamerRuns.

Module PlainRuns.

Import Streamer History.

Lemma NaN_bound_spoils_the_range_witness :
  currentMinMs (initializeAsync (api := Plain.api) Plain.spoiled (new (api := Plain.api) "p"))
  = Number.NaN.
Proof.
  apply (RangeFacts.NaN_bound_spoils_the_range (api := Plain.api) Plain.spoiled
           (new (api := Plain.api) "p")
           {| Plain.pm_name := "a"; Plain.pm_min := Number.NaN;
              Plain.pm_max := Number.Fin 5 |}).
  - left. reflexivity.
  - reflexivity.
Defined.

End PlainRuns.
